(** * The calculation service of the Vedo back end

    A shallow embedding of [backend/app/services/calculator.py]
    (class [CalculatorService]) and the properties of its pipeline:
    identifier parsing, token-list and tabular ingestion, cutoff
    assignment, derived columns and column projection.

    Python text is read as a list of Unicode code points, Python
    integers as [Z], exceptions as the left summand of a result type.
    The floating-point columns of the data frame and the operations
    Python, NumPy and pandas perform on them are gathered in the record
    [numeric]. *)

From Stdlib Require Import String Ascii Bool NArith ZArith QArith List Lia Permutation Sorted.
Import ListNotations.
Local Open Scope Z_scope.

(* ================================================================== *)
(** * Python values                                                     *)
(* ================================================================== *)

(** A character of a Python [str]: a Unicode code point. *)
Definition char := N.

(** A Python [str]. *)
Definition str := list char.

(** The code points of a text encoded in UTF-8, as the source file is. *)
Fixpoint decode_utf8 (bytes : list N) : str :=
  match bytes with
  | [] => []
  | b0 :: rest =>
      if (b0 <? 128)%N then b0 :: decode_utf8 rest
      else if (b0 <? 224)%N then
        match rest with
        | b1 :: rest' =>
            ((b0 - 192) * 64 + (b1 - 128))%N :: decode_utf8 rest'
        | _ => []
        end
      else if (b0 <? 240)%N then
        match rest with
        | b1 :: b2 :: rest' =>
            ((b0 - 224) * 4096 + (b1 - 128) * 64 + (b2 - 128))%N
            :: decode_utf8 rest'
        | _ => []
        end
      else
        match rest with
        | b1 :: b2 :: b3 :: rest' =>
            ((b0 - 240) * 262144 + (b1 - 128) * 4096 + (b2 - 128) * 64
             + (b3 - 128))%N
            :: decode_utf8 rest'
        | _ => []
        end
  end.

(** A string literal of the source. *)
Definition lit (s : string) : str :=
  decode_utf8 (map N_of_ascii (list_ascii_of_string s)).

Definition str_eq_dec : forall a b : str, {a = b} + {a <> b} :=
  list_eq_dec N.eq_dec.

(** The characters the source names: ['_'], ['x'], ['\n'] and ['-']. *)
Definition underscore : char := 95%N.
Definition letter_x : char := 120%N.
Definition line_feed : char := 10%N.
Definition hyphen_minus : char := 45%N.

(** The columns of the data frames, by their names in the source. *)
Inductive column :=
| ColName          (* 'Наименование изделия' *)
| ColUnit          (* 'Ед. изм.' *)
| ColQuantity      (* 'Количество' *)
| ColKolVo         (* 'Кол-во', the quantity column of a spreadsheet *)
| ColWidthM        (* 'Ширина, м' *)
| ColLengthM       (* 'Длина, м' *)
| ColProjectionM   (* 'Проекция, м' *)
| ColFormType      (* 'Тип формы' *)
| ColWidthMm       (* 'width_mm' *)
| ColLengthMm      (* 'length_mm' *)
| ColCutoff        (* 'Отсечка' *)
| ColCutoffType    (* 'Тип отсечки' *)
| ColUnroll        (* 'Развертка, м' *)
| ColTotalArea     (* 'Общая площадь, м' *)
| ColProjArea      (* 'Площадь проекции, м' *)
| ColOther (name : str).

Definition column_eq_dec : forall a b : column, {a = b} + {a <> b}.
Proof. decide equality. apply str_eq_dec. Defined.

Definition has_column (cols : list column) (c : column) : bool :=
  if in_dec column_eq_dec c cols then true else false.

(** The exceptions the service can raise. *)
Inductive exception :=
| ValueError (msg : str)
| KeyError (key : column)         (* a column missing from a data frame *)
| KeyErrorForm (form_type : Z)    (* a key missing from a configuration dict *)
| IntCastingNaNError              (* [astype(int)] on a non-finite value *)
| OverflowError (msg : str).

Inductive result (A : Type) :=
| Ok (a : A)
| Raise (e : exception).

Arguments Ok {A} a.
Arguments Raise {A} e.

Definition bind {A B} (m : result A) (k : A -> result B) : result B :=
  match m with
  | Ok a => k a
  | Raise e => Raise e
  end.

Notation "x <- m ;; k" := (bind m (fun x => k))
  (at level 61, m at next level, right associativity).

Definition is_ok {A} (m : result A) : bool :=
  match m with Ok _ => true | Raise _ => false end.

(* ------------------------------------------------------------------ *)
(** ** The character tables of the interpreter                          *)
(* ------------------------------------------------------------------ *)

(** The classes of characters the service relies on are those of the
    Unicode database built into the interpreter (CPython 3.11, Unicode
    14.0.0).  Each table lists the code points of a class as inclusive
    ranges, in ascending order. *)

(** [str.isdecimal]: the decimal digits of all scripts (category Nd).
    Every range holds the digits 0 to 9 of one script, in order, ten at
    a time. *)
Definition decimal_ranges : list (N * N) :=
  [(48, 57); (1632, 1641); (1776, 1785); (1984, 1993); (2406, 2415);
   (2534, 2543); (2662, 2671); (2790, 2799); (2918, 2927); (3046, 3055);
   (3174, 3183); (3302, 3311); (3430, 3439); (3558, 3567); (3664, 3673);
   (3792, 3801); (3872, 3881); (4160, 4169); (4240, 4249); (6112, 6121);
   (6160, 6169); (6470, 6479); (6608, 6617); (6784, 6793); (6800, 6809);
   (6992, 7001); (7088, 7097); (7232, 7241); (7248, 7257); (42528, 42537);
   (43216, 43225); (43264, 43273); (43472, 43481); (43504, 43513);
   (43600, 43609); (44016, 44025); (65296, 65305); (66720, 66729);
   (68912, 68921); (69734, 69743); (69872, 69881); (69942, 69951);
   (70096, 70105); (70384, 70393); (70736, 70745); (70864, 70873);
   (71248, 71257); (71360, 71369); (71472, 71481); (71904, 71913);
   (72016, 72025); (72784, 72793); (73040, 73049); (73120, 73129);
   (92768, 92777); (92864, 92873); (93008, 93017); (120782, 120831);
   (123200, 123209); (123632, 123641); (125264, 125273); (130032, 130041)]%N.

(** [str.isalnum]: letters, decimal digits and the other characters
    with a numeric value. *)
Definition alnum_ranges : list (N * N) :=
  [(48, 57); (65, 90); (97, 122); (170, 170); (178, 179); (181, 181);
   (185, 186); (188, 190); (192, 214); (216, 246); (248, 705); (710, 721);
   (736, 740); (748, 748); (750, 750); (880, 884); (886, 887); (890, 893);
   (895, 895); (902, 902); (904, 906); (908, 908); (910, 929); (931, 1013);
   (1015, 1153); (1162, 1327); (1329, 1366); (1369, 1369); (1376, 1416);
   (1488, 1514); (1519, 1522); (1568, 1610); (1632, 1641); (1646, 1647);
   (1649, 1747); (1749, 1749); (1765, 1766); (1774, 1788); (1791, 1791);
   (1808, 1808); (1810, 1839); (1869, 1957); (1969, 1969); (1984, 2026);
   (2036, 2037); (2042, 2042); (2048, 2069); (2074, 2074); (2084, 2084);
   (2088, 2088); (2112, 2136); (2144, 2154); (2160, 2183); (2185, 2190);
   (2208, 2249); (2308, 2361); (2365, 2365); (2384, 2384); (2392, 2401);
   (2406, 2415); (2417, 2432); (2437, 2444); (2447, 2448); (2451, 2472);
   (2474, 2480); (2482, 2482); (2486, 2489); (2493, 2493); (2510, 2510);
   (2524, 2525); (2527, 2529); (2534, 2545); (2548, 2553); (2556, 2556);
   (2565, 2570); (2575, 2576); (2579, 2600); (2602, 2608); (2610, 2611);
   (2613, 2614); (2616, 2617); (2649, 2652); (2654, 2654); (2662, 2671);
   (2674, 2676); (2693, 2701); (2703, 2705); (2707, 2728); (2730, 2736);
   (2738, 2739); (2741, 2745); (2749, 2749); (2768, 2768); (2784, 2785);
   (2790, 2799); (2809, 2809); (2821, 2828); (2831, 2832); (2835, 2856);
   (2858, 2864); (2866, 2867); (2869, 2873); (2877, 2877); (2908, 2909);
   (2911, 2913); (2918, 2927); (2929, 2935); (2947, 2947); (2949, 2954);
   (2958, 2960); (2962, 2965); (2969, 2970); (2972, 2972); (2974, 2975);
   (2979, 2980); (2984, 2986); (2990, 3001); (3024, 3024); (3046, 3058);
   (3077, 3084); (3086, 3088); (3090, 3112); (3114, 3129); (3133, 3133);
   (3160, 3162); (3165, 3165); (3168, 3169); (3174, 3183); (3192, 3198);
   (3200, 3200); (3205, 3212); (3214, 3216); (3218, 3240); (3242, 3251);
   (3253, 3257); (3261, 3261); (3293, 3294); (3296, 3297); (3302, 3311);
   (3313, 3314); (3332, 3340); (3342, 3344); (3346, 3386); (3389, 3389);
   (3406, 3406); (3412, 3414); (3416, 3425); (3430, 3448); (3450, 3455);
   (3461, 3478); (3482, 3505); (3507, 3515); (3517, 3517); (3520, 3526);
   (3558, 3567); (3585, 3632); (3634, 3635); (3648, 3654); (3664, 3673);
   (3713, 3714); (3716, 3716); (3718, 3722); (3724, 3747); (3749, 3749);
   (3751, 3760); (3762, 3763); (3773, 3773); (3776, 3780); (3782, 3782);
   (3792, 3801); (3804, 3807); (3840, 3840); (3872, 3891); (3904, 3911);
   (3913, 3948); (3976, 3980); (4096, 4138); (4159, 4169); (4176, 4181);
   (4186, 4189); (4193, 4193); (4197, 4198); (4206, 4208); (4213, 4225);
   (4238, 4238); (4240, 4249); (4256, 4293); (4295, 4295); (4301, 4301);
   (4304, 4346); (4348, 4680); (4682, 4685); (4688, 4694); (4696, 4696);
   (4698, 4701); (4704, 4744); (4746, 4749); (4752, 4784); (4786, 4789);
   (4792, 4798); (4800, 4800); (4802, 4805); (4808, 4822); (4824, 4880);
   (4882, 4885); (4888, 4954); (4969, 4988); (4992, 5007); (5024, 5109);
   (5112, 5117); (5121, 5740); (5743, 5759); (5761, 5786); (5792, 5866);
   (5870, 5880); (5888, 5905); (5919, 5937); (5952, 5969); (5984, 5996);
   (5998, 6000); (6016, 6067); (6103, 6103); (6108, 6108); (6112, 6121);
   (6128, 6137); (6160, 6169); (6176, 6264); (6272, 6276); (6279, 6312);
   (6314, 6314); (6320, 6389); (6400, 6430); (6470, 6509); (6512, 6516);
   (6528, 6571); (6576, 6601); (6608, 6618); (6656, 6678); (6688, 6740);
   (6784, 6793); (6800, 6809); (6823, 6823); (6917, 6963); (6981, 6988);
   (6992, 7001); (7043, 7072); (7086, 7141); (7168, 7203); (7232, 7241);
   (7245, 7293); (7296, 7304); (7312, 7354); (7357, 7359); (7401, 7404);
   (7406, 7411); (7413, 7414); (7418, 7418); (7424, 7615); (7680, 7957);
   (7960, 7965); (7968, 8005); (8008, 8013); (8016, 8023); (8025, 8025);
   (8027, 8027); (8029, 8029); (8031, 8061); (8064, 8116); (8118, 8124);
   (8126, 8126); (8130, 8132); (8134, 8140); (8144, 8147); (8150, 8155);
   (8160, 8172); (8178, 8180); (8182, 8188); (8304, 8305); (8308, 8313);
   (8319, 8329); (8336, 8348); (8450, 8450); (8455, 8455); (8458, 8467);
   (8469, 8469); (8473, 8477); (8484, 8484); (8486, 8486); (8488, 8488);
   (8490, 8493); (8495, 8505); (8508, 8511); (8517, 8521); (8526, 8526);
   (8528, 8585); (9312, 9371); (9450, 9471); (10102, 10131);
   (11264, 11492); (11499, 11502); (11506, 11507); (11517, 11517);
   (11520, 11557); (11559, 11559); (11565, 11565); (11568, 11623);
   (11631, 11631); (11648, 11670); (11680, 11686); (11688, 11694);
   (11696, 11702); (11704, 11710); (11712, 11718); (11720, 11726);
   (11728, 11734); (11736, 11742); (11823, 11823); (12293, 12295);
   (12321, 12329); (12337, 12341); (12344, 12348); (12353, 12438);
   (12445, 12447); (12449, 12538); (12540, 12543); (12549, 12591);
   (12593, 12686); (12690, 12693); (12704, 12735); (12784, 12799);
   (12832, 12841); (12872, 12879); (12881, 12895); (12928, 12937);
   (12977, 12991); (13312, 19903); (19968, 42124); (42192, 42237);
   (42240, 42508); (42512, 42539); (42560, 42606); (42623, 42653);
   (42656, 42735); (42775, 42783); (42786, 42888); (42891, 42954);
   (42960, 42961); (42963, 42963); (42965, 42969); (42994, 43009);
   (43011, 43013); (43015, 43018); (43020, 43042); (43056, 43061);
   (43072, 43123); (43138, 43187); (43216, 43225); (43250, 43255);
   (43259, 43259); (43261, 43262); (43264, 43301); (43312, 43334);
   (43360, 43388); (43396, 43442); (43471, 43481); (43488, 43492);
   (43494, 43518); (43520, 43560); (43584, 43586); (43588, 43595);
   (43600, 43609); (43616, 43638); (43642, 43642); (43646, 43695);
   (43697, 43697); (43701, 43702); (43705, 43709); (43712, 43712);
   (43714, 43714); (43739, 43741); (43744, 43754); (43762, 43764);
   (43777, 43782); (43785, 43790); (43793, 43798); (43808, 43814);
   (43816, 43822); (43824, 43866); (43868, 43881); (43888, 44002);
   (44016, 44025); (44032, 55203); (55216, 55238); (55243, 55291);
   (63744, 64109); (64112, 64217); (64256, 64262); (64275, 64279);
   (64285, 64285); (64287, 64296); (64298, 64310); (64312, 64316);
   (64318, 64318); (64320, 64321); (64323, 64324); (64326, 64433);
   (64467, 64829); (64848, 64911); (64914, 64967); (65008, 65019);
   (65136, 65140); (65142, 65276); (65296, 65305); (65313, 65338);
   (65345, 65370); (65382, 65470); (65474, 65479); (65482, 65487);
   (65490, 65495); (65498, 65500); (65536, 65547); (65549, 65574);
   (65576, 65594); (65596, 65597); (65599, 65613); (65616, 65629);
   (65664, 65786); (65799, 65843); (65856, 65912); (65930, 65931);
   (66176, 66204); (66208, 66256); (66273, 66299); (66304, 66339);
   (66349, 66378); (66384, 66421); (66432, 66461); (66464, 66499);
   (66504, 66511); (66513, 66517); (66560, 66717); (66720, 66729);
   (66736, 66771); (66776, 66811); (66816, 66855); (66864, 66915);
   (66928, 66938); (66940, 66954); (66956, 66962); (66964, 66965);
   (66967, 66977); (66979, 66993); (66995, 67001); (67003, 67004);
   (67072, 67382); (67392, 67413); (67424, 67431); (67456, 67461);
   (67463, 67504); (67506, 67514); (67584, 67589); (67592, 67592);
   (67594, 67637); (67639, 67640); (67644, 67644); (67647, 67669);
   (67672, 67702); (67705, 67742); (67751, 67759); (67808, 67826);
   (67828, 67829); (67835, 67867); (67872, 67897); (67968, 68023);
   (68028, 68047); (68050, 68096); (68112, 68115); (68117, 68119);
   (68121, 68149); (68160, 68168); (68192, 68222); (68224, 68255);
   (68288, 68295); (68297, 68324); (68331, 68335); (68352, 68405);
   (68416, 68437); (68440, 68466); (68472, 68497); (68521, 68527);
   (68608, 68680); (68736, 68786); (68800, 68850); (68858, 68899);
   (68912, 68921); (69216, 69246); (69248, 69289); (69296, 69297);
   (69376, 69415); (69424, 69445); (69457, 69460); (69488, 69505);
   (69552, 69579); (69600, 69622); (69635, 69687); (69714, 69743);
   (69745, 69746); (69749, 69749); (69763, 69807); (69840, 69864);
   (69872, 69881); (69891, 69926); (69942, 69951); (69956, 69956);
   (69959, 69959); (69968, 70002); (70006, 70006); (70019, 70066);
   (70081, 70084); (70096, 70106); (70108, 70108); (70113, 70132);
   (70144, 70161); (70163, 70187); (70272, 70278); (70280, 70280);
   (70282, 70285); (70287, 70301); (70303, 70312); (70320, 70366);
   (70384, 70393); (70405, 70412); (70415, 70416); (70419, 70440);
   (70442, 70448); (70450, 70451); (70453, 70457); (70461, 70461);
   (70480, 70480); (70493, 70497); (70656, 70708); (70727, 70730);
   (70736, 70745); (70751, 70753); (70784, 70831); (70852, 70853);
   (70855, 70855); (70864, 70873); (71040, 71086); (71128, 71131);
   (71168, 71215); (71236, 71236); (71248, 71257); (71296, 71338);
   (71352, 71352); (71360, 71369); (71424, 71450); (71472, 71483);
   (71488, 71494); (71680, 71723); (71840, 71922); (71935, 71942);
   (71945, 71945); (71948, 71955); (71957, 71958); (71960, 71983);
   (71999, 71999); (72001, 72001); (72016, 72025); (72096, 72103);
   (72106, 72144); (72161, 72161); (72163, 72163); (72192, 72192);
   (72203, 72242); (72250, 72250); (72272, 72272); (72284, 72329);
   (72349, 72349); (72368, 72440); (72704, 72712); (72714, 72750);
   (72768, 72768); (72784, 72812); (72818, 72847); (72960, 72966);
   (72968, 72969); (72971, 73008); (73030, 73030); (73040, 73049);
   (73056, 73061); (73063, 73064); (73066, 73097); (73112, 73112);
   (73120, 73129); (73440, 73458); (73648, 73648); (73664, 73684);
   (73728, 74649); (74752, 74862); (74880, 75075); (77712, 77808);
   (77824, 78894); (82944, 83526); (92160, 92728); (92736, 92766);
   (92768, 92777); (92784, 92862); (92864, 92873); (92880, 92909);
   (92928, 92975); (92992, 92995); (93008, 93017); (93019, 93025);
   (93027, 93047); (93053, 93071); (93760, 93846); (93952, 94026);
   (94032, 94032); (94099, 94111); (94176, 94177); (94179, 94179);
   (94208, 100343); (100352, 101589); (101632, 101640); (110576, 110579);
   (110581, 110587); (110589, 110590); (110592, 110882); (110928, 110930);
   (110948, 110951); (110960, 111355); (113664, 113770); (113776, 113788);
   (113792, 113800); (113808, 113817); (119520, 119539); (119648, 119672);
   (119808, 119892); (119894, 119964); (119966, 119967); (119970, 119970);
   (119973, 119974); (119977, 119980); (119982, 119993); (119995, 119995);
   (119997, 120003); (120005, 120069); (120071, 120074); (120077, 120084);
   (120086, 120092); (120094, 120121); (120123, 120126); (120128, 120132);
   (120134, 120134); (120138, 120144); (120146, 120485); (120488, 120512);
   (120514, 120538); (120540, 120570); (120572, 120596); (120598, 120628);
   (120630, 120654); (120656, 120686); (120688, 120712); (120714, 120744);
   (120746, 120770); (120772, 120779); (120782, 120831); (122624, 122654);
   (123136, 123180); (123191, 123197); (123200, 123209); (123214, 123214);
   (123536, 123565); (123584, 123627); (123632, 123641); (124896, 124902);
   (124904, 124907); (124909, 124910); (124912, 124926); (124928, 125124);
   (125127, 125135); (125184, 125251); (125259, 125259); (125264, 125273);
   (126065, 126123); (126125, 126127); (126129, 126132); (126209, 126253);
   (126255, 126269); (126464, 126467); (126469, 126495); (126497, 126498);
   (126500, 126500); (126503, 126503); (126505, 126514); (126516, 126519);
   (126521, 126521); (126523, 126523); (126530, 126530); (126535, 126535);
   (126537, 126537); (126539, 126539); (126541, 126543); (126545, 126546);
   (126548, 126548); (126551, 126551); (126553, 126553); (126555, 126555);
   (126557, 126557); (126559, 126559); (126561, 126562); (126564, 126564);
   (126567, 126570); (126572, 126578); (126580, 126583); (126585, 126588);
   (126590, 126590); (126592, 126601); (126603, 126619); (126625, 126627);
   (126629, 126633); (126635, 126651); (127232, 127244); (130032, 130041);
   (131072, 173791); (173824, 177976); (177984, 178205); (178208, 183969);
   (183984, 191456); (194560, 195101); (196608, 201546)]%N.

(** [str.isspace]: the characters [str.strip] and [str.split] take for
    white space. *)
Definition space_ranges : list (N * N) :=
  [(9, 13); (28, 32); (133, 133); (160, 160); (5760, 5760); (8192, 8202);
   (8232, 8233); (8239, 8239); (8287, 8287); (12288, 12288)]%N.
(* ------------------------------------------------------------------ *)
(** ** Character classes, [int] and [str] of integers                   *)
(* ------------------------------------------------------------------ *)

(** Membership in a table of ranges. *)
Fixpoint in_ranges (ranges : list (N * N)) (c : char) : bool :=
  match ranges with
  | [] => false
  | (lo, hi) :: rest =>
      ((lo <=? c)%N && (c <=? hi)%N) || in_ranges rest c
  end.

(** Every range of [small] lies within a range of [big]. *)
Definition ranges_within (small big : list (N * N)) : bool :=
  forallb (fun r =>
             existsb (fun r' => (fst r' <=? fst r)%N && (snd r <=? snd r')%N)
                     big)
          small.

(** No range of [a] meets a range of [b]. *)
Definition ranges_apart (a b : list (N * N)) : bool :=
  forallb (fun r =>
             forallb (fun r' => (snd r <? fst r')%N || (snd r' <? fst r)%N) b)
          a.

(** [\d] in a pattern over [str]: a decimal digit of any script. *)
Definition is_digit (c : char) : bool := in_ranges decimal_ranges c.

(** [\w] in a pattern over [str]: an alphanumeric character of any
    script, or the underscore. *)
Definition is_word (c : char) : bool :=
  in_ranges alnum_ranges c || (c =? underscore)%N.

(** [str.isspace] *)
Definition is_space (c : char) : bool := in_ranges space_ranges c.

(** The value of a decimal digit: its place in the range of its
    script. *)
Fixpoint decimal_in (ranges : list (N * N)) (c : char) : Z :=
  match ranges with
  | [] => 0
  | (lo, hi) :: rest =>
      if (lo <=? c)%N && (c <=? hi)%N then Z.of_N ((c - lo) mod 10)
      else decimal_in rest c
  end.

Definition digit_val (c : char) : Z := decimal_in decimal_ranges c.

(** The ASCII digit of a value between 0 and 9. *)
Definition digit_char (d : Z) : char := Z.to_N (d + 48).

(** Reading decimal digits from the left, [acc] being the value of the
    digits read so far. *)
Definition int_from (acc : Z) (s : str) : Z :=
  fold_left (fun acc c => 10 * acc + digit_val c) s acc.

Fixpoint digits_of (fuel : nat) (n : Z) (acc : str) : str :=
  match fuel with
  | O => acc
  | S fuel' =>
      let acc' := digit_char (n mod 10) :: acc in
      if n / 10 =? 0 then acc' else digits_of fuel' (n / 10) acc'
  end.

(** [str(n)], the decimal numeral of an integer. *)
Definition str_of_int (n : Z) : str :=
  if n <? 0
  then hyphen_minus :: digits_of (S (Z.to_nat (- n))) (- n) []
  else digits_of (S (Z.to_nat n)) n [].

(** [sys.get_int_max_str_digits()]: the longest numeral [int] converts,
    at the interpreter's default. *)
Definition int_max_str_digits : nat := 4300.

Definition int_limit_message (digits : nat) : str :=
  lit "Exceeds the limit (4300 digits) for integer string conversion: value has "
  ++ str_of_int (Z.of_nat digits)
  ++ lit " digits; use sys.set_int_max_str_digits() to increase the limit".

(** [int(s)] for a non-empty string of decimal digits: a numeral of more
    digits than the limit raises [ValueError], leading zeros
    included. *)
Definition int (s : str) : result Z :=
  if (int_max_str_digits <? length s)%nat
  then Raise (ValueError (int_limit_message (length s)))
  else Ok (int_from 0 s).

(* ------------------------------------------------------------------ *)
(** ** [str.strip], [str.split]                                         *)
(* ------------------------------------------------------------------ *)

Fixpoint lstrip (s : str) : str :=
  match s with
  | c :: s' => if is_space c then lstrip s' else s
  | [] => []
  end.

(** [s.strip()] *)
Definition strip (s : str) : str := rev (lstrip (rev (lstrip s))).

(** [s.split(sep)] for a one-character separator: the pieces between
    the separators, empty pieces included. *)
Fixpoint split_on (sep : char) (s : str) : list str :=
  match s with
  | [] => [[]]
  | c :: s' =>
      if (c =? sep)%N then [] :: split_on sep s'
      else match split_on sep s' with
           | piece :: pieces => (c :: piece) :: pieces
           | [] => [[c]]
           end
  end.

(** [s.split()]: the maximal runs of characters that are not white space.
    [cur] is the run being read, in reverse. *)
Fixpoint split_ws_from (cur : str) (s : str) : list str :=
  match s with
  | [] => match cur with [] => [] | _ => [rev cur] end
  | c :: s' =>
      if is_space c
      then match cur with
           | [] => split_ws_from [] s'
           | _ => rev cur :: split_ws_from [] s'
           end
      else split_ws_from (c :: cur) s'
  end.

Definition split_ws (s : str) : list str := split_ws_from [] s.

(* ------------------------------------------------------------------ *)
(** ** [re.match] for patterns of literals and captured [class+] groups *)
(* ------------------------------------------------------------------ *)

(** One element of a pattern: a literal character, or a capturing group
    [(c+)] over a character class, greedy as in Python. *)
Inductive atom :=
| Lit (c : char)
| Group (cls : char -> bool).

(** A greedy group [(cls+)] followed by the rest of the pattern [k]:
    the group first takes as many characters as its class allows and
    gives them back one at a time while the rest of the pattern fails
    (backtracking).  [taken] holds the characters taken so far, in
    reverse. *)
Fixpoint take_group (cls : char -> bool) (k : str -> option (list str))
  (taken : str) (s : str) : option (list str) :=
  match s with
  | a :: s' =>
      if cls a then
        match take_group cls k (a :: taken) s' with
        | Some groups => Some groups
        | None =>
            match k s' with
            | Some groups => Some (rev (a :: taken) :: groups)
            | None => None
            end
        end
      else None
  | [] => None
  end.

(** [re.match(pattern, s)]: the pattern is tried at the start of [s] and
    need not reach its end.  The result is the list of the captured
    groups. *)
Fixpoint re_match (pattern : list atom) (s : str) : option (list str) :=
  match pattern with
  | [] => Some []
  | Lit c :: rest =>
      match s with
      | a :: s' => if (a =? c)%N then re_match rest s' else None
      | [] => None
      end
  | Group cls :: rest => take_group cls (re_match rest) [] s
  end.

(* ------------------------------------------------------------------ *)
(** ** Insertion-ordered dictionaries                                   *)
(* ------------------------------------------------------------------ *)

(** A [dict] keyed by strings keeps its keys in the order of their first
    insertion; it is read here as an association list without repeated
    keys. *)
Definition dict (V : Type) := list (str * V).

(** [d.get(k, default)] *)
Fixpoint dict_get {V} (d : dict V) (k : str) (default : V) : V :=
  match d with
  | [] => default
  | (k', v) :: d' => if str_eq_dec k' k then v else dict_get d' k default
  end.

(** [d[k] = v]: an existing key keeps its place, a new key goes last. *)
Fixpoint dict_set {V} (d : dict V) (k : str) (v : V) : dict V :=
  match d with
  | [] => [(k, v)]
  | (k', v') :: d' =>
      if str_eq_dec k' k then (k', v) :: d' else (k', v') :: dict_set d' k v
  end.

(* ------------------------------------------------------------------ *)
(** ** Stable sorting                                                   *)
(* ------------------------------------------------------------------ *)

Section StableSort.
Variable A : Type.
Variable le : A -> A -> bool.

Fixpoint insert_sorted (x : A) (l : list A) : list A :=
  match l with
  | [] => [x]
  | y :: l' => if le x y then x :: l else y :: insert_sorted x l'
  end.

(** A stable sort: of two elements neither of which is below the other,
    the one that came first stays first. *)
Fixpoint stable_sort (l : list A) : list A :=
  match l with
  | [] => []
  | x :: l' => insert_sorted x (stable_sort l')
  end.
End StableSort.

Arguments insert_sorted {A} le x l.
Arguments stable_sort {A} le l.

(** The order a stable pass by [le] produces from a list ordered by
    [R]: [le] decides, and [R] where [le] does not tell apart. *)
Definition then_by {A} (le : A -> A -> bool) (R : A -> A -> Prop) (a b : A)
  : Prop :=
  le a b = true /\ (le b a = true -> R a b).

Definition enumerate {A} (l : list A) : list (nat * A) :=
  combine (seq 0 (length l)) l.

(* ================================================================== *)
(** * The floating-point columns                                        *)
(* ================================================================== *)

(** Widths, lengths, projections and areas are IEEE doubles held in
    pandas columns.  The service compares them, multiplies them, rounds
    them and converts them from and to integers; these operations
    belong to Python, NumPy and pandas, and what they compute is taken
    as given: the properties below rest on the order of the lengths
    alone, never on the value of a product or of a rounding.  When an
    operation raises is part of the service's behaviour and is written
    out where the operation is used.  Non-finite values never reach the
    cutoff assignment: token ingestion divides integers, and tabular
    ingestion casts the width and length columns to integers, which
    fails on NaN and infinities. *)
Record numeric := {
  num : Type;
  (** [a <= b] *)
  num_le : num -> num -> bool;
  (** [n / 1000], the double nearest to the quotient, for an integer
      whose quotient is within the range of the doubles *)
  div_1000 : Z -> num;
  (** [round(x, 2)] of the built-in [round] on a float *)
  round_float : num -> num;
  (** [(x * 1000).astype(int)]; [None] when the value is not finite *)
  mm_of_m : num -> option Z;
  (** [a * b] on a float column *)
  num_mul : num -> num -> num;
  (** an integer column promoted to float *)
  num_of_int : Z -> num;
  (** [round(x, 2)] on a float column *)
  round2 : num -> num
}.

(** The integers whose quotient by 1000 is too large for a double:
    [n / 1000] rounds to the nearest double, and from
    [2^1024 - 2^970] on, half way between the largest double and
    [2^1024], there is none. *)
Definition true_div_overflows (n : Z) : bool :=
  1000 * (2 ^ 1024 - 2 ^ 970) <=? Z.abs n.

(** An instance with exact arithmetic, for running the service on
    sample tables: the columns hold rationals, quotients and products
    are exact and rounding is half to even on the second decimal. *)
Definition round_half_even_div (a b : Z) : Z :=
  let q := a / b in
  let r := a mod b in
  if 2 * r <? b then q
  else if b <? 2 * r then q + 1
  else if Z.even q then q else q + 1.

Definition Qround2 (x : Q) : Q :=
  Qred (round_half_even_div (Qnum x * 100) (Zpos (Qden x)) # 100).

Definition exact : numeric := {|
  num := Q;
  num_le := Qle_bool;
  div_1000 := fun n => Qred (n # 1000);
  round_float := Qround2;
  mm_of_m := fun x => Some (Z.quot (Qnum x * 1000) (Zpos (Qden x)));
  num_mul := fun a b => Qred (Qmult a b);
  num_of_int := inject_Z;
  round2 := Qround2
|}.

(* ================================================================== *)
(** * Configuration ([app.core.config.Settings])                        *)
(* ================================================================== *)

Record Settings := {
  FORM_CAPACITY_1 : Z;
  FORM_CAPACITY_2 : Z;
  FORM_CAPACITY_3 : Z;
  CUTOFF_TYPE_1 : Z;
  CUTOFF_TYPE_2 : Z;
  CUTOFF_TYPE_3 : Z
}.

(** The values of [config.py], used when the environment sets none. *)
Definition default_settings : Settings := {|
  FORM_CAPACITY_1 := 15;
  FORM_CAPACITY_2 := 20;
  FORM_CAPACITY_3 := 10;
  CUTOFF_TYPE_1 := 8;
  CUTOFF_TYPE_2 := 9;
  CUTOFF_TYPE_3 := 10
|}.

(** [d[key]] on a dict with the keys 1, 2 and 3. *)
Definition lookup_123 (v1 v2 v3 : Z) (key : Z) : result Z :=
  if key =? 1 then Ok v1
  else if key =? 2 then Ok v2
  else if key =? 3 then Ok v3
  else Raise (KeyErrorForm key).

(** [self.FORM_CAPACITY[form_type]] *)
Definition FORM_CAPACITY (settings : Settings) : Z -> result Z :=
  lookup_123 (FORM_CAPACITY_1 settings) (FORM_CAPACITY_2 settings)
             (FORM_CAPACITY_3 settings).

(** [self.CUTOFF_TYPES[form_type]] *)
Definition CUTOFF_TYPES (settings : Settings) : Z -> result Z :=
  lookup_123 (CUTOFF_TYPE_1 settings) (CUTOFF_TYPE_2 settings)
             (CUTOFF_TYPE_3 settings).

(* ================================================================== *)
(** * [CalculatorService.parse_item_name]                               *)
(* ================================================================== *)

(** The dict returned by [parse_item_name]. *)
Record ItemSpec := {
  name : str;
  spec_width_mm : Z;
  spec_length_mm : Z;
  projection_mm : Z;
  spec_form_type : Z
}.

(** [r'(\w+)_(\d+)x(\d+)x(\d+)_(\d+)'] *)
Definition item_pattern : list atom :=
  [Group is_word; Lit underscore; Group is_digit; Lit letter_x;
   Group is_digit; Lit letter_x; Group is_digit; Lit underscore;
   Group is_digit].

Definition bad_format_message (item_name : str) : str :=
  lit "Некорректный формат названия: " ++ item_name.

Definition parse_item_name (item_name : str) : result ItemSpec :=
  match re_match item_pattern item_name with
  | Some [name; width; length; projection; form_type] =>
      width_mm <- int width ;;
      length_mm <- int length ;;
      projection_mm <- int projection ;;
      form_type <- int form_type ;;
      Ok {| name := name;
            spec_width_mm := width_mm;
            spec_length_mm := length_mm;
            projection_mm := projection_mm;
            spec_form_type := form_type |}
  | _ => Raise (ValueError (bad_format_message item_name))
  end.

(* ================================================================== *)
(** * Data frames                                                       *)
(* ================================================================== *)

(** A data frame: the names of its columns and its rows.  The rows are
    typed records; a field whose column is not listed in [columns] is
    not part of the frame, and reading it raises [KeyError]. *)
Record DataFrame (R : Type) := {
  columns : list column;
  rows : list R
}.

Arguments columns {R} d.
Arguments rows {R} d.

(** [pd.DataFrame(records)] for a list of dicts that all have the keys
    [cols]: without records the frame has no columns at all. *)
Definition frame_of_records {R} (cols : list column) (records : list R)
  : DataFrame R :=
  match records with
  | [] => {| columns := []; rows := [] |}
  | _ => {| columns := cols; rows := records |}
  end.

(** Reading the columns [needed] of a frame: the first one that is
    missing raises [KeyError]. *)
Fixpoint require_columns (cols needed : list column) : result unit :=
  match needed with
  | [] => Ok tt
  | c :: needed' =>
      if has_column cols c then require_columns cols needed'
      else Raise (KeyError c)
  end.

Definition ingested_columns : list column :=
  [ColName; ColUnit; ColQuantity; ColWidthM; ColLengthM; ColProjectionM;
   ColFormType; ColWidthMm; ColLengthMm].

Definition output_columns : list column :=
  [ColName; ColUnit; ColQuantity; ColWidthM; ColLengthM;
   ColUnroll; ColTotalArea;
   ColProjectionM; ColProjArea;
   ColFormType; ColCutoff; ColCutoffType].

Fixpoint remove_columns (drop cols : list column) : list column :=
  match cols with
  | [] => []
  | c :: cols' =>
      if has_column drop c then remove_columns drop cols'
      else c :: remove_columns drop cols'
  end.

(* ================================================================== *)
(** * The service                                                       *)
(* ================================================================== *)

Section Calculator.

Variable ops : numeric.
Variable settings : Settings.

(** A row of the ingested frame. *)
Record row := {
  Name : str;            (* 'Наименование изделия' *)
  Unit : str;            (* 'Ед. изм.' *)
  Quantity : Z;          (* 'Количество' *)
  WidthM : num ops;          (* 'Ширина, м' *)
  LengthM : num ops;         (* 'Длина, м' *)
  ProjectionM : num ops;     (* 'Проекция, м' *)
  FormType : Z;          (* 'Тип формы' *)
  width_mm : Z;
  length_mm : Z
}.

(** A row of [new_rows]: the ingested row with 'Отсечка' and
    'Тип отсечки'. *)
Record cut_row := {
  base : row;
  Cutoff : Z;
  CutoffType : Z
}.

(** A row with the derived columns 'Развертка, м', 'Общая площадь, м'
    and 'Площадь проекции, м'. *)
Record out_row := {
  cut : cut_row;
  Unroll : num ops;
  TotalArea : num ops;
  ProjArea : num ops
}.

(* ------------------------------------------------------------------ *)
(** ** [parse_txt_file]                                                 *)
(* ------------------------------------------------------------------ *)

(** Lines 63-67: the tokens of the text. *)
Definition items_of (content : str) : list str :=
  flat_map (fun line => split_ws (strip line))
           (split_on line_feed (strip content)).

(** Lines 70-73: [item_counts]. *)
Definition count_items (items : list str) : dict Z :=
  fold_left (fun item_counts item =>
               dict_set item_counts item (dict_get item_counts item 0 + 1))
            items [].

(** Lines 77-79: [n / 1000] on an integer raises [OverflowError] when
    the quotient is too large for a double. *)
Definition true_div_1000 (n : Z) : result (num ops) :=
  if true_div_overflows n
  then Raise (OverflowError
                (lit "integer division result too large for a float"))
  else Ok (div_1000 ops n).

(** Lines 81-91: the dict [record]. *)
Definition make_record (parsed : ItemSpec) (count : Z)
  (width_m length_m projection_m : num ops) : row := {|
  Name := name parsed ++ underscore :: str_of_int (spec_width_mm parsed)
            ++ letter_x :: str_of_int (spec_length_mm parsed);
  Unit := lit "шт.";
  Quantity := count;
  WidthM := round_float ops width_m;
  LengthM := round_float ops length_m;
  ProjectionM := round_float ops projection_m;
  FormType := spec_form_type parsed;
  width_mm := spec_width_mm parsed;
  length_mm := spec_length_mm parsed
|}.

(** Lines 77-91: the record of one parsed identifier. *)
Definition record_of (parsed : ItemSpec) (count : Z) : result row :=
  width_m <- true_div_1000 (spec_width_mm parsed) ;;
  length_m <- true_div_1000 (spec_length_mm parsed) ;;
  projection_m <- true_div_1000 (projection_mm parsed) ;;
  Ok (make_record parsed count width_m length_m projection_m).

(** Lines 75-92: the loop over [item_counts.items()].  The first
    component lists the identifiers handed to [parse_item_name], in the
    order of the calls; an exception ends the loop. *)
Fixpoint read_items (item_counts : dict Z) : list str * result (list row) :=
  match item_counts with
  | [] => ([], Ok [])
  | (item_name, count) :: rest =>
      match parsed <- parse_item_name item_name ;; record_of parsed count with
      | Raise e => ([item_name], Raise e)
      | Ok record =>
          let (calls, data) := read_items rest in
          (item_name :: calls, data <- data ;; Ok (record :: data))
      end
  end.

Definition parse_txt_file_traced (content : str)
  : list str * result (DataFrame row) :=
  let (calls, data) := read_items (count_items (items_of content)) in
  (calls, data <- data ;; Ok (frame_of_records ingested_columns data)).

Definition parse_txt_file (content : str) : result (DataFrame row) :=
  snd (parse_txt_file_traced content).

(* ------------------------------------------------------------------ *)
(** ** [parse_xlsx_file]                                                *)
(* ------------------------------------------------------------------ *)

(** A row of the sheet [pd.read_excel] returns. *)
Record sheet_row := {
  sName : str;
  sUnit : str;
  sQuantity : Z;
  sWidthM : num ops;
  sLengthM : num ops;
  sProjectionM : num ops;
  sFormType : Z
}.

(** [df.rename(columns={'Кол-во': 'Количество'})] *)
Definition rename_quantity (cols : list column) : list column :=
  map (fun c => if column_eq_dec c ColKolVo then ColQuantity else c) cols.

(** [df[c] = ...]: an existing column keeps its place, a new one goes last. *)
Definition set_column (cols : list column) (c : column) : list column :=
  if has_column cols c then cols else cols ++ [c].

(** [(column * 1000).astype(int)] *)
Fixpoint astype_int (values : list (num ops)) : result (list Z) :=
  match values with
  | [] => Ok []
  | x :: values' =>
      match mm_of_m ops x with
      | None => Raise IntCastingNaNError
      | Some mm => mms <- astype_int values' ;; Ok (mm :: mms)
      end
  end.

Definition ingest_sheet_row (r : sheet_row) (w l : Z) : row := {|
  Name := sName r;
  Unit := sUnit r;
  Quantity := sQuantity r;
  WidthM := sWidthM r;
  LengthM := sLengthM r;
  ProjectionM := sProjectionM r;
  FormType := sFormType r;
  width_mm := w;
  length_mm := l
|}.

Fixpoint zip_sheet (rs : list sheet_row) (ws ls : list Z) : list row :=
  match rs, ws, ls with
  | r :: rs', w :: ws', l :: ls' => ingest_sheet_row r w l :: zip_sheet rs' ws' ls'
  | _, _, _ => []
  end.

(** [sheet] is the frame [pd.read_excel(file_path)] returns. *)
Definition parse_xlsx_file (sheet : DataFrame sheet_row) : result (DataFrame row) :=
  let cols := rename_quantity (columns sheet) in
  _ <- require_columns cols [ColWidthM] ;;
  widths <- astype_int (map sWidthM (rows sheet)) ;;
  let cols := set_column cols ColWidthMm in
  _ <- require_columns cols [ColLengthM] ;;
  lengths <- astype_int (map sLengthM (rows sheet)) ;;
  let cols := set_column cols ColLengthMm in
  _ <- require_columns cols ingested_columns ;;
  Ok {| columns := ingested_columns;
        rows := zip_sheet (rows sheet) widths lengths |}.

(* ------------------------------------------------------------------ *)
(** ** [assign_cutoffs]                                                 *)
(* ------------------------------------------------------------------ *)

Definition by_form (a b : row) : bool := FormType a <=? FormType b.
Definition by_width (a b : row) : bool := width_mm a <=? width_mm b.
Definition by_length_desc (a b : row) : bool :=
  num_le ops (LengthM b) (LengthM a).

(** Lines 140-143: [df.sort_values(['Тип формы', 'width_mm', 'Длина, м'],
    ascending=[True, True, False])].  With several keys pandas sorts
    lexicographically and stably; the passes run from the least
    significant key to the most significant one. *)
Definition sort_values (rs : list row) : list row :=
  stable_sort by_form (stable_sort by_width (stable_sort by_length_desc rs)).

Definition group_key (r : row) : Z * Z := (FormType r, width_mm r).

Definition key_eq_dec : forall a b : Z * Z, {a = b} + {a <> b}.
Proof. decide equality; apply Z.eq_dec. Defined.

Definition key_leb (a b : Z * Z) : bool :=
  (fst a <? fst b) || ((fst a =? fst b) && (snd a <=? snd b)).

Definition has_key (k : Z * Z) (r : row) : bool :=
  if key_eq_dec (group_key r) k then true else false.

(** The distinct keys of the rows, in ascending order. *)
Definition group_keys (rs : list row) : list (Z * Z) :=
  stable_sort key_leb (nodup key_eq_dec (map group_key rs)).

(** Line 148: [df.groupby(['Тип формы', 'width_mm'])]: one group per
    distinct key, the keys in ascending order, the rows of a group in
    the order they have in [df]. *)
Definition groupby (rs : list row) : list ((Z * Z) * list row) :=
  map (fun k => (k, filter (has_key k) rs)) (group_keys rs).

(** Lines 153-155: [subgroups], [current_subgroup], [current_total]. *)
Definition packing : Type := list (list row) * list row * Z.

Definition close_bin (subgroups : list (list row)) (current_subgroup : list row)
  : list (list row) :=
  match current_subgroup with
  | [] => subgroups
  | _ => subgroups ++ [current_subgroup]
  end.

(** Lines 158-166: the body of the loop over the rows of a group. *)
Definition pack_step (capacity : Z) (st : packing) (r : row) : packing :=
  let '(subgroups, current_subgroup, current_total) := st in
  let count := Quantity r in
  if current_total + count >? capacity
  then (close_bin subgroups current_subgroup, [r], count)
  else (subgroups, current_subgroup ++ [r], current_total + count).

(** Lines 153-169: the subgroups of one group. *)
Definition pack (capacity : Z) (group : list row) : list (list row) :=
  let '(subgroups, current_subgroup, _) :=
    fold_left (pack_step capacity) group ([], [], 0) in
  close_bin subgroups current_subgroup.

(** [max(range(len(subgroup)), key=...)] keeps the first index whose key
    no later key exceeds: the candidate changes only on a strictly
    greater key. *)
Fixpoint argmax_from (best : nat) (best_key : num ops) (i : nat)
  (rest : list row) : nat :=
  match rest with
  | [] => best
  | r :: rest' =>
      if negb (num_le ops (LengthM r) best_key)
      then argmax_from i (LengthM r) (S i) rest'
      else argmax_from best best_key (S i) rest'
  end.

(** Lines 172-175; [max] of an empty range raises [ValueError]. *)
Definition max_length_idx (subgroup : list row) : result nat :=
  match subgroup with
  | [] => Raise (ValueError (lit "max() arg is an empty sequence"))
  | r :: rest => Ok (argmax_from 0 (LengthM r) 1 rest)
  end.

(** Lines 176-180: the rows one subgroup adds to [new_rows]. *)
Definition mark_rows (cutoff_type cutoff_counter : Z) (max_length_idx : nat)
  (subgroup : list row) : list cut_row :=
  map (fun ir =>
         {| base := snd ir;
            Cutoff := cutoff_counter;
            CutoffType := if Nat.eqb (fst ir) max_length_idx
                          then 0 else cutoff_type |})
      (enumerate subgroup).

(** [new_rows] and [cutoff_counter]. *)
Definition assignment : Type := list cut_row * Z.

(** Lines 171-181: the loop over the subgroups of a group. *)
Fixpoint emit (cutoff_type : Z) (subgroups : list (list row)) (st : assignment)
  : result assignment :=
  match subgroups with
  | [] => Ok st
  | subgroup :: rest =>
      idx <- max_length_idx subgroup ;;
      emit cutoff_type rest
           (fst st ++ mark_rows cutoff_type (snd st) idx subgroup, snd st + 1)
  end.

(** Lines 149-181: the body of the loop over the groups.  A group has
    at least one row, so the first pass of the inner loop reads
    'Количество'. *)
Definition assign_group (cols : list column) (st : assignment)
  (g : (Z * Z) * list row) : result assignment :=
  let form_type := fst (fst g) in
  capacity <- FORM_CAPACITY settings form_type ;;
  cutoff_type <- CUTOFF_TYPES settings form_type ;;
  _ <- require_columns cols [ColQuantity] ;;
  emit cutoff_type (pack capacity (snd g)) st.

Fixpoint for_groups (cols : list column) (groups : list ((Z * Z) * list row))
  (st : assignment) : result assignment :=
  match groups with
  | [] => Ok st
  | g :: groups' =>
      st' <- assign_group cols st g ;; for_groups cols groups' st'
  end.

Definition assign_cutoffs (df : DataFrame row) : result (DataFrame cut_row) :=
  _ <- require_columns (columns df) [ColFormType; ColWidthMm; ColLengthM] ;;
  let sorted := sort_values (rows df) in
  st <- for_groups (columns df) (groupby sorted) ([], 1) ;;
  let result_df :=
    frame_of_records
      (set_column (set_column (columns df) ColCutoff) ColCutoffType) (fst st) in
  Ok {| columns := remove_columns [ColWidthMm; ColLengthMm] (columns result_df);
        rows := rows result_df |}.

(* ------------------------------------------------------------------ *)
(** ** [calculate_derived_columns], [reorder_columns], [process_file]   *)
(* ------------------------------------------------------------------ *)

(** Lines 198-202 on one row; 'Общая площадь, м' reads the column
    'Развертка, м' assigned the line before. *)
Definition derive (r : cut_row) : out_row :=
  let quantity := num_of_int ops (Quantity (base r)) in
  let unroll := round2 ops (num_mul ops (WidthM (base r)) (LengthM (base r))) in
  {| cut := r;
     Unroll := unroll;
     TotalArea := round2 ops (num_mul ops unroll quantity);
     ProjArea :=
       round2 ops (num_mul ops (num_mul ops (LengthM (base r))
                                            (ProjectionM (base r)))
                               quantity) |}.

Definition calculate_derived_columns (df : DataFrame cut_row)
  : result (DataFrame out_row) :=
  _ <- require_columns (columns df) [ColWidthM; ColLengthM] ;;
  let cols := set_column (columns df) ColUnroll in
  _ <- require_columns cols [ColUnroll; ColQuantity] ;;
  let cols := set_column cols ColTotalArea in
  _ <- require_columns cols [ColLengthM; ColProjectionM; ColQuantity] ;;
  let cols := set_column cols ColProjArea in
  Ok {| columns := cols; rows := map derive (rows df) |}.

(** [df[[...]]]: a missing column raises [KeyError]. *)
Definition reorder_columns (df : DataFrame out_row) : result (DataFrame out_row) :=
  _ <- require_columns (columns df) output_columns ;;
  Ok {| columns := output_columns; rows := rows df |}.

(** [sheet] stands for the spreadsheet stored at [file_path]. *)
Definition process_file (sheet : DataFrame sheet_row) (file_extension : str)
  (content : option str) : result (DataFrame out_row) :=
  df <- (if str_eq_dec file_extension (lit ".txt") then
           match content with
           | None => Raise (ValueError (lit "Для TXT файла требуется содержимое"))
           | Some content => parse_txt_file content
           end
         else if str_eq_dec file_extension (lit ".xlsx") then
           parse_xlsx_file sheet
         else
           Raise (ValueError (lit "Неподдерживаемое расширение: "
                                ++ file_extension))) ;;
  df <- assign_cutoffs df ;;
  df <- calculate_derived_columns df ;;
  reorder_columns df.

(* ================================================================== *)
(** * The properties, in the words of the specification                 *)
(* ================================================================== *)

(** A non-empty string over a character class. *)
Definition token_of (cls : char -> bool) (s : str) : Prop :=
  s <> [] /\ Forall (fun c => cls c = true) s.

(** The identifier grammar [^(\w+)_(\d+)x(\d+)x(\d+)_(\d+)$] read on the
    entire string, with the five components named. *)
Definition conforms_as (s nm w l p f : str) : Prop :=
  s = nm ++ underscore :: w ++ letter_x :: l ++ letter_x :: p
         ++ underscore :: f
  /\ token_of is_word nm
  /\ token_of is_digit w /\ token_of is_digit l
  /\ token_of is_digit p /\ token_of is_digit f.

Definition conforms (s : str) : Prop :=
  exists nm w l p f, conforms_as s nm w l p f.

(** The identifier [name_WIDTHxLENGTHxPROJECTION_FORMTYPE] rebuilt from
    parsed fields. *)
Definition reconstruct (i : ItemSpec) : str :=
  name i ++ underscore :: str_of_int (spec_width_mm i)
         ++ letter_x :: str_of_int (spec_length_mm i)
         ++ letter_x :: str_of_int (projection_mm i)
         ++ underscore :: str_of_int (spec_form_type i).

(** The fields of an identifier the parser accepts. *)
Definition spec_of (item_name : str) : ItemSpec :=
  match parse_item_name item_name with
  | Ok spec => spec
  | Raise _ => {| name := []; spec_width_mm := 0; spec_length_mm := 0;
                  projection_mm := 0; spec_form_type := 0 |}
  end.

(** The width, length and projection of a parsed identifier are within
    the range [n / 1000] converts to a double. *)
Definition in_float_range (spec : ItemSpec) : bool :=
  negb (true_div_overflows (spec_width_mm spec))
  && negb (true_div_overflows (spec_length_mm spec))
  && negb (true_div_overflows (projection_mm spec)).


(** The record of an identifier whose measures are in that range. *)
Definition record_for (spec : ItemSpec) (count : Z) : row :=
  make_record spec count (div_1000 ops (spec_width_mm spec))
    (div_1000 ops (spec_length_mm spec)) (div_1000 ops (projection_mm spec)).

(** The distinct elements of a list, in the order of their first
    occurrence. *)
Fixpoint first_occurrences (l : list str) : list str :=
  match l with
  | [] => []
  | x :: l' => x :: remove str_eq_dec x (first_occurrences l')
  end.

(** The number of occurrences of a token. *)
Definition occurrences (items : list str) (item : str) : Z :=
  Z.of_nat (count_occ str_eq_dec items item).

(** The order (form_type ascending, width_mm ascending, length_m
    descending). *)
Definition sorted_before (a b : row) : Prop :=
  FormType a < FormType b
  \/ (FormType a = FormType b
      /\ (width_mm a < width_mm b
          \/ (width_mm a = width_mm b
              /\ num_le ops (LengthM b) (LengthM a) = true))).

(** [r] has the sort key of [x]: the same form type and width, and a
    length the comparison does not tell from the length of [x]. *)
Definition same_sort_key (x r : row) : bool :=
  (FormType r =? FormType x) && (width_mm r =? width_mm x)
  && num_le ops (LengthM r) (LengthM x) && num_le ops (LengthM x) (LengthM r).


(** The order of the group keys (form_type, width_mm) alone. *)
Definition key_before (a b : row) : Prop :=
  FormType a < FormType b
  \/ (FormType a = FormType b /\ width_mm a <= width_mm b).

(** The strict order of the group keys. *)
Definition key_lt (k k' : Z * Z) : Prop :=
  fst k < fst k' \/ (fst k = fst k' /\ snd k < snd k').

(** [grouped sorted groups]: the sorted sequence is cut into consecutive
    groups without being reordered, each group holds the rows of one
    key, and the keys of the groups ascend. *)
Definition grouped (sorted : list row) (groups : list (list row)) : Prop :=
  concat groups = sorted
  /\ Forall (fun g => g <> []) groups
  /\ Forall (fun g => forall a b, In a g -> In b g -> group_key a = group_key b)
            groups
  /\ StronglySorted
       (fun g g' => forall a b, In a g -> In b g' ->
                                key_lt (group_key a) (group_key b))
       groups.

Definition total_quantity (bin : list row) : Z :=
  fold_right (fun r acc => Quantity r + acc) 0 bin.

(** Sequential first-fit accumulation.  [first_fit capacity bin total
    records bins]: with [bin] open and holding [total], reading
    [records] closes the bins [bins].  A record that would make the
    total exceed the capacity closes the open bin, if it is not empty,
    and seeds a new bin; every other record joins the open bin; after
    the last record an open bin is closed. *)
Inductive first_fit (capacity : Z)
  : list row -> Z -> list row -> list (list row) -> Prop :=
| ff_end_empty total :
    first_fit capacity [] total [] []
| ff_end_open bin total :
    bin <> [] ->
    first_fit capacity bin total [] [bin]
| ff_seed_first total r records bins :
    total + Quantity r > capacity ->
    first_fit capacity [r] (Quantity r) records bins ->
    first_fit capacity [] total (r :: records) bins
| ff_seed bin total r records bins :
    bin <> [] ->
    total + Quantity r > capacity ->
    first_fit capacity [r] (Quantity r) records bins ->
    first_fit capacity bin total (r :: records) (bin :: bins)
| ff_join bin total r records bins :
    total + Quantity r <= capacity ->
    first_fit capacity (bin ++ [r]) (total + Quantity r) records bins ->
    first_fit capacity bin total (r :: records) bins.

(** The cutoffs of an output table: the maximal runs of consecutive
    rows that carry the same cutoff id. *)
Fixpoint cutoffs_of (rs : list cut_row) : list (list cut_row) :=
  match rs with
  | [] => []
  | r :: rs' =>
      match cutoffs_of rs' with
      | (r' :: bin) :: bins =>
          if Cutoff r =? Cutoff r' then (r :: r' :: bin) :: bins
          else [r] :: (r' :: bin) :: bins
      | _ => [[r]]
      end
  end.

(** The capacity and the cutoff-type constant of a form type of the
    configuration. *)
Definition capacity_of (form_type : Z) : Z :=
  match FORM_CAPACITY settings form_type with Ok c => c | Raise _ => 0 end.

Definition cutoff_type_of (form_type : Z) : Z :=
  match CUTOFF_TYPES settings form_type with Ok c => c | Raise _ => 0 end.

(** The index [max_length_idx] returns on a subgroup. *)
Definition longest_idx (subgroup : list row) : nat :=
  match subgroup with
  | [] => 0%nat
  | r :: rest => argmax_from 0 (LengthM r) 1 rest
  end.

(** The subgroups of all groups in the order the loops visit them, each
    with the cutoff-type constant of its group. *)
Definition tagged_bins (groups : list ((Z * Z) * list row))
  : list (Z * list row) :=
  flat_map (fun g => map (pair (cutoff_type_of (fst (fst g))))
                         (pack (capacity_of (fst (fst g))) (snd g)))
           groups.

(** The rows [new_rows] receives for these subgroups when the counter
    starts at [counter]. *)
Fixpoint numbered (counter : Z) (tagged : list (Z * list row))
  : list (list cut_row) :=
  match tagged with
  | [] => []
  | (cutoff_type, subgroup) :: rest =>
      mark_rows cutoff_type counter (longest_idx subgroup) subgroup
      :: numbered (counter + 1) rest
  end.

(** [binss] holds, group by group, the first-fit bins of the groups
    under the configured capacity of the form type of each group. *)
Definition bins_of_groups (groups : list (list row))
  (binss : list (list (list row))) : Prop :=
  Forall2 (fun g bs =>
             exists capacity,
               (forall r, In r g ->
                          FORM_CAPACITY settings (FormType r) = Ok capacity)
               /\ first_fit capacity [] 0 g bs)
          groups binss.

(** The bins the specified procedure assigns: the records are sorted,
    the sorted sequence is cut into its groups, and each group is
    packed by first fit under the capacity of its form type. *)
Definition assigned_by_procedure (records : list row)
  (bins : list (list row)) : Prop :=
  exists sorted groups binss,
    Permutation records sorted
    /\ StronglySorted sorted_before sorted
    /\ grouped sorted groups
    /\ bins_of_groups groups binss
    /\ bins = concat binss.

(** The capacity invariant of one cutoff of a table assigned from
    [records]: the records of the cutoff share a configured capacity;
    two or more records sum to at most that capacity; a cutoff above
    the capacity is a single record that is itself above it; and, when
    no quantity of [records] is negative, a record above the capacity
    has the cutoff to itself. *)
Definition within_capacity (records : list row) (bin : list cut_row) : Prop :=
  exists capacity,
    (forall r, In r bin ->
               FORM_CAPACITY settings (FormType (base r)) = Ok capacity)
    /\ ((2 <= length bin)%nat -> total_quantity (map base bin) <= capacity)
    /\ (capacity < total_quantity (map base bin) ->
        exists r, bin = [r] /\ capacity < Quantity (base r))
    /\ (Forall (fun r => 0 <= Quantity r) records ->
        forall r, In r bin -> capacity < Quantity (base r) -> bin = [r]).


(** The cutoff [bin] carries the id [id] on all its rows, and has a
    row. *)
Definition carries_id (id : Z) (bin : list cut_row) : Prop :=
  bin <> [] /\ Forall (fun r => Cutoff r = id) bin.


(** The ids 1, 2, ..., n. *)
Definition ids_up_to (n : nat) : list Z := map Z.of_nat (seq 1 n).

(** The form types of the configuration. *)
Definition configured (form_type : Z) : Prop :=
  form_type = 1 \/ form_type = 2 \/ form_type = 3.

(** What it means for a pattern to match at the start of a string:
    [matches pattern s groups tail] when [s] is an instance of the
    pattern followed by [tail], the groups being [groups]. *)
Inductive matches : list atom -> str -> list str -> str -> Prop :=
| matches_end tail :
    matches [] tail [] tail
| matches_lit c rest s groups tail :
    matches rest s groups tail ->
    matches (Lit c :: rest) (c :: s) groups tail
| matches_group cls rest g s groups tail :
    token_of cls g ->
    matches rest s groups tail ->
    matches (Group cls :: rest) (g ++ s) (g :: groups) tail.

(** The number of underscores of a string, and of the literals of a
    pattern. *)
Definition underscores (s : str) : nat := count_occ N.eq_dec s underscore.

Fixpoint lit_underscores (pattern : list atom) : nat :=
  match pattern with
  | [] => 0
  | Lit c :: rest =>
      if (c =? underscore)%N then S (lit_underscores rest) else lit_underscores rest
  | Group _ :: rest => lit_underscores rest
  end.

(** The dict that maps each key of [keys] to [g key]. *)
Definition tabulate (g : str -> Z) (keys : list str) : dict Z :=
  map (fun t => (t, g t)) keys.

(* ------------------------------------------------------------------ *)
(** ** Sample inputs                                                    *)
(* ------------------------------------------------------------------ *)

(** Three tokens on two lines, the first of them twice. *)
Definition sample_text : str :=
  lit "tray_500x300x50_1 tray_500x250x50_1" ++ line_feed
      :: lit "  tray_500x300x50_1 ".
(* ================================================================== *)
(** * Characters and numerals                                           *)
(* ================================================================== *)

Lemma in_ranges_spec ranges c :
  in_ranges ranges c = true <->
  exists lo hi, In (lo, hi) ranges /\ (lo <= c <= hi)%N.
Proof.
  induction ranges as [|[lo hi] rest IH]; cbn [in_ranges In].
  - split; [discriminate | intros (? & ? & [] & _)].
  - rewrite orb_true_iff, andb_true_iff, !N.leb_le, IH. split.
    + intros [H | (lo' & hi' & Hin & H)].
      * exists lo, hi. split; [left; reflexivity | exact H].
      * exists lo', hi'. split; [right; exact Hin | exact H].
    + intros (lo' & hi' & [E | Hin] & H).
      * injection E as -> ->. left. exact H.
      * right. exists lo', hi'. split; assumption.
Qed.

Lemma ranges_within_sound small big c :
  ranges_within small big = true ->
  in_ranges small c = true -> in_ranges big c = true.
Proof.
  unfold ranges_within. rewrite forallb_forall, !in_ranges_spec.
  intros Hw (lo & hi & Hin & Hc).
  apply Hw, existsb_exists in Hin as ([lo' hi'] & Hin' & H).
  cbn [fst snd] in H. apply andb_true_iff in H as [H1 H2].
  apply N.leb_le in H1, H2.
  exists lo', hi'. split; [exact Hin' | lia].
Qed.

Lemma ranges_apart_sound a b c :
  ranges_apart a b = true ->
  in_ranges a c = true -> in_ranges b c = false.
Proof.
  unfold ranges_apart. rewrite forallb_forall, in_ranges_spec.
  intros Ha (lo & hi & Hin & Hc).
  destruct (in_ranges b c) eqn:E; [exfalso | reflexivity].
  apply in_ranges_spec in E as (lo' & hi' & Hin' & Hc').
  specialize (Ha _ Hin). rewrite forallb_forall in Ha.
  specialize (Ha _ Hin'). cbn [fst snd] in Ha.
  apply orb_true_iff in Ha as [H | H]; apply N.ltb_lt in H; lia.
Qed.

(** A decimal digit is a word character, and neither the underscore nor
    the letter x. *)
Lemma digit_is_word c : is_digit c = true -> is_word c = true.
Proof.
  unfold is_digit, is_word. intros H. apply orb_true_iff. left.
  apply (ranges_within_sound decimal_ranges); [vm_compute; reflexivity | exact H].
Qed.

Lemma digit_not_underscore c : is_digit c = true -> c <> underscore.
Proof. intros H ->. vm_compute in H. discriminate H. Qed.

Lemma digit_not_x c : is_digit c = true -> c <> letter_x.
Proof. intros H ->. vm_compute in H. discriminate H. Qed.

(** White space is no word character. *)
Lemma space_not_word c : is_space c = true -> is_word c = false.
Proof.
  unfold is_space, is_word. intros H. apply orb_false_iff. split.
  - apply (ranges_apart_sound space_ranges); [vm_compute; reflexivity | exact H].
  - destruct (N.eqb_spec c underscore) as [-> |]; [| reflexivity].
    vm_compute in H. discriminate H.
Qed.

Lemma token_of_cons cls c s :
  cls c = true -> Forall (fun c => cls c = true) s -> token_of cls (c :: s).
Proof. intros Hc Hs. split; [discriminate | constructor; assumption]. Qed.

Lemma digit_val_char d : 0 <= d <= 9 -> digit_val (digit_char d) = d.
Proof.
  intros H.
  assert (d = 0 \/ d = 1 \/ d = 2 \/ d = 3 \/ d = 4 \/ d = 5 \/ d = 6
          \/ d = 7 \/ d = 8 \/ d = 9) as Hd by lia.
  repeat (destruct Hd as [-> | Hd]; [reflexivity |]). subst; reflexivity.
Qed.

Lemma digit_char_is_digit d : 0 <= d <= 9 -> is_digit (digit_char d) = true.
Proof.
  intros H.
  assert (d = 0 \/ d = 1 \/ d = 2 \/ d = 3 \/ d = 4 \/ d = 5 \/ d = 6
          \/ d = 7 \/ d = 8 \/ d = 9) as Hd by lia.
  repeat (destruct Hd as [-> | Hd]; [reflexivity |]). subst; reflexivity.
Qed.

Lemma decimal_in_range ranges c : 0 <= decimal_in ranges c <= 9.
Proof.
  induction ranges as [|[lo hi] rest IH]; cbn [decimal_in]; [lia |].
  destruct ((lo <=? c)%N && (c <=? hi)%N); [| exact IH].
  pose proof (N.mod_lt (c - lo) 10 ltac:(discriminate)) as H.
  set (m := ((c - lo) mod 10)%N) in *. clearbody m. lia.
Qed.

Lemma digit_val_range c : 0 <= digit_val c <= 9.
Proof. apply decimal_in_range. Qed.

Lemma int_from_nonneg s : forall acc, 0 <= acc -> 0 <= int_from acc s.
Proof.
  induction s as [|c s IH]; intros acc Hacc; [assumption |].
  change (0 <= int_from (10 * acc + digit_val c) s).
  apply IH. pose proof (digit_val_range c). lia.
Qed.

(** A numeral of [k] digits is below [10^k]. *)
Lemma int_from_bound s : forall acc,
  0 <= acc -> int_from acc s < (acc + 1) * 10 ^ Z.of_nat (length s).
Proof.
  induction s as [|c s IH]; intros acc Hacc.
  - cbn [int_from fold_left length]. change (10 ^ Z.of_nat 0) with 1. lia.
  - change (int_from (10 * acc + digit_val c) s
            < (acc + 1) * 10 ^ Z.of_nat (S (length s))).
    pose proof (digit_val_range c) as Hd.
    pose proof (IH (10 * acc + digit_val c) ltac:(lia)) as H.
    rewrite Nat2Z.inj_succ, Z.pow_succ_r by lia.
    assert (0 < 10 ^ Z.of_nat (length s)) by (apply Z.pow_pos_nonneg; lia).
    nia.
Qed.

Lemma digits_of_value fuel : forall n acc,
  0 <= n < Z.of_nat fuel ->
  int_from 0 (digits_of fuel n acc) = int_from n acc.
Proof.
  induction fuel as [|fuel IH]; intros n acc Hn; [lia |].
  cbn [digits_of].
  pose proof (Z.mod_pos_bound n 10 ltac:(lia)) as Hm.
  pose proof (Z.div_mod n 10 ltac:(lia)) as Hd.
  destruct (Z.eqb_spec (n / 10) 0) as [E | E].
  - unfold int_from; cbn [fold_left]. rewrite digit_val_char by lia.
    f_equal. lia.
  - assert (0 < n / 10) by (pose proof (Z.div_pos n 10); lia).
    rewrite IH by lia.
    unfold int_from; cbn [fold_left]. rewrite digit_val_char by lia.
    f_equal. lia.
Qed.

Lemma digits_of_token fuel : forall n acc,
  0 <= n -> Forall (fun c => is_digit c = true) acc ->
  (fuel <> 0)%nat ->
  token_of is_digit (digits_of fuel n acc).
Proof.
  induction fuel as [|fuel IH]; intros n acc Hn Hacc Hf; [congruence |].
  cbn [digits_of].
  pose proof (Z.mod_pos_bound n 10 ltac:(lia)) as Hm.
  assert (Forall (fun c => is_digit c = true) (digit_char (n mod 10) :: acc))
    as Hacc' by (constructor; [apply digit_char_is_digit; lia | assumption]).
  destruct (n / 10 =? 0).
  - split; [discriminate | assumption].
  - destruct fuel as [|fuel'].
    + split; [discriminate | assumption].
    + apply IH; [apply Z.div_pos; lia | assumption | discriminate].
Qed.

(** The numeral of a number below [10^k] has at most [k] digits. *)
Lemma digits_of_length fuel : forall n acc k,
  0 <= n < 10 ^ Z.of_nat k -> (1 <= k)%nat ->
  (length (digits_of fuel n acc) <= length acc + k)%nat.
Proof.
  induction fuel as [|fuel IH]; intros n acc k Hn Hk; cbn [digits_of];
    [lia |].
  destruct (Z.eqb_spec (n / 10) 0) as [E | E]; [cbn [length]; lia |].
  destruct k as [|[|k]]; [lia | |].
  - change (10 ^ Z.of_nat 1) with 10 in Hn.
    exfalso. apply E. apply Z.div_small. lia.
  - specialize (IH (n / 10) (digit_char (n mod 10) :: acc) (S k)).
    cbn [length] in IH.
    assert (0 <= n / 10 < 10 ^ Z.of_nat (S k)) as Hq.
    { split; [apply Z.div_pos; lia |].
      apply Z.div_lt_upper_bound; [lia |].
      rewrite <- Z.pow_succ_r by lia. rewrite <- Nat2Z.inj_succ. apply Hn. }
    specialize (IH Hq ltac:(lia)). lia.
Qed.

Lemma str_of_int_token n : 0 <= n -> token_of is_digit (str_of_int n).
Proof.
  intros Hn. unfold str_of_int.
  destruct (Z.ltb_spec n 0); [lia |].
  apply digits_of_token; [assumption | constructor | discriminate].
Qed.

Lemma str_of_int_value n : 0 <= n -> int_from 0 (str_of_int n) = n.
Proof.
  intros Hn. unfold str_of_int.
  destruct (Z.ltb_spec n 0); [lia |].
  rewrite digits_of_value by lia. reflexivity.
Qed.

Lemma str_of_int_length n k :
  0 <= n < 10 ^ Z.of_nat k -> (1 <= k)%nat ->
  (length (str_of_int n) <= k)%nat.
Proof.
  intros Hn Hk. unfold str_of_int.
  destruct (Z.ltb_spec n 0); [lia |].
  apply (digits_of_length _ n [] k Hn Hk).
Qed.

(** [int] on a numeral: within the limit its value, beyond it
    [ValueError]. *)
Lemma int_short s :
  (length s <= int_max_str_digits)%nat -> int s = Ok (int_from 0 s).
Proof.
  intros H. unfold int.
  destruct (Nat.ltb_spec int_max_str_digits (length s)); [lia | reflexivity].
Qed.

Lemma int_long s :
  (int_max_str_digits < length s)%nat ->
  int s = Raise (ValueError (int_limit_message (length s))).
Proof.
  intros H. unfold int.
  destruct (Nat.ltb_spec int_max_str_digits (length s)); [reflexivity | lia].
Qed.

Lemma int_ok s n :
  int s = Ok n ->
  n = int_from 0 s /\ (length s <= int_max_str_digits)%nat /\ 0 <= n.
Proof.
  unfold int. destruct (Nat.ltb_spec int_max_str_digits (length s));
    [discriminate |].
  intros E. injection E as <-. split; [reflexivity |].
  split; [assumption | apply int_from_nonneg; lia].
Qed.

(** The numeral of the value of a numeral is no longer than the
    numeral: a number read by [int] is written and read again within
    the limit. *)
Lemma int_str_of_int s n :
  s <> [] -> int s = Ok n -> int (str_of_int n) = Ok n.
Proof.
  intros Hne H. apply int_ok in H as (-> & Hlen & Hn).
  assert (length (str_of_int (int_from 0 s)) <= length s)%nat as Hle.
  { apply str_of_int_length.
    - split; [assumption |].
      pose proof (int_from_bound s 0 ltac:(lia)). lia.
    - destruct s; [congruence | cbn [length]; lia]. }
  rewrite int_short by lia. rewrite str_of_int_value by assumption.
  reflexivity.
Qed.

(* ================================================================== *)
(** * The matcher                                                       *)
(* ================================================================== *)

Lemma take_group_sound cls k : forall s taken r,
  take_group cls k taken s = Some r ->
  exists g s' groups,
    token_of cls g /\ s = g ++ s' /\ k s' = Some groups
    /\ r = (rev taken ++ g) :: groups.
Proof.
  induction s as [|a s IH]; intros taken r H; cbn [take_group] in H;
    [discriminate |].
  destruct (cls a) eqn:Ha; [| discriminate].
  destruct (take_group cls k (a :: taken) s) as [r' |] eqn:Hmore.
  - injection H as <-.
    destruct (IH _ _ Hmore) as (g & s' & groups & [_ Hg] & -> & Hk & ->).
    exists (a :: g), s', groups. repeat split.
    + discriminate.
    + constructor; assumption.
    + assumption.
    + cbn [rev]. rewrite <- app_assoc. reflexivity.
  - destruct (k s) as [groups |] eqn:Hk; [| discriminate].
    injection H as <-.
    exists [a], s, groups. repeat split.
    + discriminate.
    + constructor; [assumption | constructor].
    + assumption.
Qed.

Lemma re_match_sound : forall pattern s groups,
  re_match pattern s = Some groups ->
  exists tail, matches pattern s groups tail.
Proof.
  induction pattern as [|[c | cls] rest IH]; intros s groups H;
    cbn [re_match] in H.
  - injection H as <-. exists s. constructor.
  - destruct s as [|a s]; [discriminate |].
    destruct (N.eqb_spec a c) as [-> |]; [| discriminate].
    destruct (IH _ _ H) as [tail Ht]. exists tail. constructor; assumption.
  - destruct (take_group_sound _ _ _ _ _ H) as (g & s' & gs & Hg & -> & Hk & ->).
    destruct (IH _ _ Hk) as [tail Ht]. exists tail.
    cbn [rev app]. constructor; assumption.
Qed.

Lemma take_group_complete cls k : forall g s' taken,
  token_of cls g -> k s' <> None ->
  take_group cls k taken (g ++ s') <> None.
Proof.
  induction g as [|a g IH]; intros s' taken [Hne Hg] Hk; [congruence |].
  inversion Hg as [|? ? Ha Hg']; subst.
  cbn [app take_group]. rewrite Ha.
  destruct g as [|b g].
  - cbn [app]. destruct (take_group cls k (a :: taken) s'); [discriminate |].
    destruct (k s'); [discriminate | congruence].
  - specialize (IH s' (a :: taken)).
    destruct (take_group cls k (a :: taken) ((b :: g) ++ s'));
      [discriminate |].
    exfalso. apply IH; [split; [discriminate | assumption] | assumption
                        | reflexivity].
Qed.

Lemma re_match_complete : forall pattern s groups tail,
  matches pattern s groups tail -> re_match pattern s <> None.
Proof.
  intros pattern s groups tail H.
  induction H as [tail | c rest s groups tail _ IH
                  | cls rest g s groups tail Hg _ IH]; cbn [re_match].
  - discriminate.
  - rewrite N.eqb_refl. assumption.
  - apply take_group_complete; assumption.
Qed.

(** A group takes the longest run after which the rest of the pattern
    matches. *)
Lemma take_group_longest cls k : forall g s' taken groups,
  token_of cls g -> k s' = Some groups ->
  (forall h s'', token_of cls h -> s' = h ++ s'' -> k s'' = None) ->
  take_group cls k taken (g ++ s') = Some ((rev taken ++ g) :: groups).
Proof.
  induction g as [|a g IH]; intros s' taken groups [Hne Hg] Hk Hlong;
    [congruence |].
  inversion Hg as [|? ? Ha Hg']; subst.
  cbn [app take_group]. rewrite Ha.
  destruct g as [|b g].
  - cbn [app].
    destruct (take_group cls k (a :: taken) s') as [r |] eqn:Hmore.
    + destruct (take_group_sound _ _ _ _ _ Hmore)
        as (h & s'' & gs & Hh & -> & Hk' & _).
      rewrite (Hlong h s'' Hh eq_refl) in Hk'. discriminate.
    + rewrite Hk. reflexivity.
  - rewrite (IH s' (a :: taken) groups);
      [| split; [discriminate | assumption] | assumption | assumption].
    cbn [rev]. rewrite <- app_assoc. reflexivity.
Qed.

(* ================================================================== *)
(** * [parse_item_name]                                                 *)
(* ================================================================== *)

Lemma conforms_as_matches s nm w l p f :
  conforms_as s nm w l p f -> matches item_pattern s [nm; w; l; p; f] [].
Proof.
  intros (-> & Hnm & Hw & Hl & Hp & Hf). unfold item_pattern.
  do 4 (apply matches_group; [assumption |]; apply matches_lit).
  pose proof (matches_group is_digit [] f [] [] [] Hf (matches_end [])) as H.
  rewrite app_nil_r in H. exact H.
Qed.

Lemma matches_item_pattern s groups tail :
  matches item_pattern s groups tail ->
  exists nm w l p f,
    groups = [nm; w; l; p; f]
    /\ conforms_as (nm ++ underscore :: w ++ letter_x :: l ++ letter_x :: p
                       ++ underscore :: f) nm w l p f
    /\ s = (nm ++ underscore :: w ++ letter_x :: l ++ letter_x :: p
               ++ underscore :: f) ++ tail.
Proof.
  unfold item_pattern. intros H.
  inversion H as [| | ? ? nm s1 g1 ? Hnm H1]; subst; clear H.
  inversion H1 as [| ? ? s2 ? ? H2 |]; subst; clear H1.
  inversion H2 as [| | ? ? w s3 g3 ? Hw H3]; subst; clear H2.
  inversion H3 as [| ? ? s4 ? ? H4 |]; subst; clear H3.
  inversion H4 as [| | ? ? l s5 g5 ? Hl H5]; subst; clear H4.
  inversion H5 as [| ? ? s6 ? ? H6 |]; subst; clear H5.
  inversion H6 as [| | ? ? p s7 g7 ? Hp H7]; subst; clear H6.
  inversion H7 as [| ? ? s8 ? ? H8 |]; subst; clear H7.
  inversion H8 as [| | ? ? f s9 g9 ? Hf H9]; subst; clear H8.
  inversion H9; subst; clear H9.
  exists nm, w, l, p, f. split; [reflexivity |]. split.
  - repeat split; assumption || apply Hnm || apply Hw || apply Hl
                  || apply Hp || apply Hf.
  - repeat (rewrite <- app_assoc; cbn [app]). reflexivity.
Qed.

Lemma underscores_app a b : underscores (a ++ b) = (underscores a + underscores b)%nat.
Proof. apply count_occ_app. Qed.

Lemma underscores_digits s :
  Forall (fun c => is_digit c = true) s -> underscores s = 0%nat.
Proof.
  intros H. apply count_occ_not_In. intros Hin.
  rewrite Forall_forall in H. apply H in Hin.
  exact (digit_not_underscore _ Hin eq_refl).
Qed.

Lemma underscores_cons_underscore s :
  underscores (underscore :: s) = S (underscores s).
Proof.
  unfold underscores. cbn [count_occ].
  destruct (N.eq_dec underscore underscore); [reflexivity | congruence].
Qed.

Lemma underscores_cons_x s : underscores (letter_x :: s) = underscores s.
Proof.
  unfold underscores. cbn [count_occ].
  destruct (N.eq_dec letter_x underscore) as [E |]; [discriminate E | reflexivity].
Qed.

Lemma matches_underscores pattern s groups tail :
  matches pattern s groups tail ->
  (lit_underscores pattern <= underscores s)%nat.
Proof.
  induction 1 as [tail | c rest s groups tail _ IH
                  | cls rest g s groups tail _ _ IH]; cbn [lit_underscores].
  - lia.
  - unfold underscores in *. cbn [count_occ].
    destruct (N.eq_dec c underscore); destruct (N.eqb_spec c underscore);
      try congruence; lia.
  - rewrite underscores_app. lia.
Qed.

Lemma underscores_conforming nm w l p f :
  conforms_as (nm ++ underscore :: w ++ letter_x :: l ++ letter_x :: p
                  ++ underscore :: f) nm w l p f ->
  (2 <= underscores (underscore :: w ++ letter_x :: l ++ letter_x :: p
                        ++ underscore :: f) <= 2)%nat.
Proof.
  intros (_ & _ & [_ Hw] & [_ Hl] & [_ Hp] & [_ Hf]).
  rewrite underscores_cons_underscore, underscores_app, underscores_cons_x,
    underscores_app, underscores_cons_x, underscores_app,
    underscores_cons_underscore.
  rewrite !underscores_digits by assumption. lia.
Qed.

(** On a string that conforms entirely, the match is the conforming
    decomposition. *)
Lemma re_match_conforming s nm w l p f :
  conforms_as s nm w l p f ->
  re_match item_pattern s = Some [nm; w; l; p; f].
Proof.
  intros Hc. pose proof Hc as (-> & Hnm & Hw & Hl & Hp & Hf).
  assert (forall (c : char) (t h s'' : str),
             is_digit c = false -> token_of is_digit h ->
             c :: t = h ++ s'' -> False) as Hstop.
  { intros c t h s'' Hc' [Hne Hh] E. destruct h as [|a h]; [congruence |].
    injection E as <- _. inversion Hh; congruence. }
  assert (is_digit underscore = false) as Hus by (vm_compute; reflexivity).
  assert (is_digit letter_x = false) as Hx by (vm_compute; reflexivity).
  assert (re_match [Group is_digit] f = Some [f]) as Hf'.
  { cbn [re_match]. rewrite <- (app_nil_r f) at 1.
    apply (take_group_longest is_digit _ f [] [] []);
      [assumption | reflexivity |].
    intros h s'' [Hne _] E. destruct h; [congruence | discriminate]. }
  assert (re_match [Group is_digit; Lit underscore; Group is_digit]
            (p ++ underscore :: f) = Some [p; f]) as Hp'.
  { cbn [re_match].
    apply (take_group_longest is_digit _ p _ [] [f]); [assumption | |].
    - rewrite N.eqb_refl. exact Hf'.
    - intros h s'' Hh E. exfalso. eapply Hstop; [| exact Hh | exact E].
      assumption. }
  assert (re_match [Group is_digit; Lit letter_x; Group is_digit; Lit underscore;
                    Group is_digit]
            (l ++ letter_x :: p ++ underscore :: f) = Some [l; p; f]) as Hl'.
  { cbn [re_match].
    apply (take_group_longest is_digit _ l _ [] [p; f]); [assumption | |].
    - rewrite N.eqb_refl. exact Hp'.
    - intros h s'' Hh E. exfalso. eapply Hstop; [| exact Hh | exact E].
      assumption. }
  assert (re_match [Lit underscore; Group is_digit; Lit letter_x; Group is_digit; Lit letter_x;
                    Group is_digit; Lit underscore; Group is_digit]
            (underscore :: w ++ letter_x :: l ++ letter_x :: p ++ underscore :: f)
          = Some [w; l; p; f]) as Hw'.
  { cbn [re_match]. rewrite N.eqb_refl.
    apply (take_group_longest is_digit _ w _ [] [l; p; f]); [assumption | |].
    - rewrite N.eqb_refl. exact Hl'.
    - intros h s'' Hh E. exfalso. eapply Hstop; [| exact Hh | exact E].
      assumption. }
  unfold item_pattern. cbn [re_match].
  apply (take_group_longest is_word _ nm _ [] [w; l; p; f]);
    [assumption | exact Hw' |].
  intros h s'' [Hne Hh] E.
  change (re_match [Lit underscore; Group is_digit; Lit letter_x; Group is_digit; Lit letter_x;
                    Group is_digit; Lit underscore; Group is_digit] s'' = None).
  destruct (re_match _ s'') as [gs |] eqn:Hk; [exfalso | reflexivity].
  apply re_match_sound in Hk as [tail Hk].
  apply matches_underscores in Hk. cbn in Hk.
  pose proof (underscores_conforming _ _ _ _ _ Hc) as H2.
  rewrite E in H2. rewrite underscores_app in H2.
  destruct h as [|a h]; [congruence |].
  injection E as <- _. rewrite underscores_cons_underscore in H2. lia.
Qed.

Lemma parse_item_name_conforming s nm w l p f :
  conforms_as s nm w l p f ->
  parse_item_name s =
  (width_mm <- int w ;;
   length_mm <- int l ;;
   projection_mm <- int p ;;
   form_type <- int f ;;
   Ok {| name := nm; spec_width_mm := width_mm; spec_length_mm := length_mm;
         projection_mm := projection_mm; spec_form_type := form_type |}).
Proof.
  intros Hc. unfold parse_item_name.
  rewrite (re_match_conforming _ _ _ _ _ _ Hc). reflexivity.
Qed.

(** What the parser returns comes from a match of the pattern at the
    start of the string: the groups of the match are the name and four
    numerals within the limit of [int]. *)
Lemma parse_item_name_ok s spec :
  parse_item_name s = Ok spec ->
  exists nm w l p f tail,
    re_match item_pattern s = Some [nm; w; l; p; f]
    /\ s = (nm ++ underscore :: w ++ letter_x :: l ++ letter_x :: p
               ++ underscore :: f) ++ tail
    /\ conforms_as (nm ++ underscore :: w ++ letter_x :: l ++ letter_x :: p
                       ++ underscore :: f) nm w l p f
    /\ name spec = nm
    /\ int w = Ok (spec_width_mm spec)
    /\ int l = Ok (spec_length_mm spec)
    /\ int p = Ok (projection_mm spec)
    /\ int f = Ok (spec_form_type spec).
Proof.
  unfold parse_item_name. intros H.
  destruct (re_match item_pattern s) as [groups |] eqn:Hm; [| discriminate H].
  pose proof Hm as Hm'.
  apply re_match_sound in Hm' as [tail Hm'].
  apply matches_item_pattern in Hm' as (nm & w & l & p & f & -> & Hc & E).
  exists nm, w, l, p, f, tail.
  destruct (int w) as [wv |]; [| discriminate H].
  destruct (int l) as [lv |]; [| discriminate H].
  destruct (int p) as [pv |]; [| discriminate H].
  destruct (int f) as [fv |]; [| discriminate H].
  cbn [bind] in H. injection H as <-.
  cbn [name spec_width_mm spec_length_mm projection_mm spec_form_type].
  repeat split; try assumption; apply Hc.
Qed.

(** The parser raises [ValueError] only: for a string the pattern does
    not match at its start, with the message that names the string, and
    for a numeral beyond the limit of [int]. *)
Lemma parse_item_name_raises s e :
  parse_item_name s = Raise e ->
  (re_match item_pattern s = None /\ e = ValueError (bad_format_message s))
  \/ (exists nm w l p f digits,
         re_match item_pattern s = Some [nm; w; l; p; f]
         /\ (int_max_str_digits < digits)%nat
         /\ In digits [length w; length l; length p; length f]
         /\ e = ValueError (int_limit_message digits)).
Proof.
  unfold parse_item_name. intros H.
  destruct (re_match item_pattern s) as [groups |] eqn:Hm;
    [| left; split; [reflexivity | congruence]].
  pose proof Hm as Hm'.
  apply re_match_sound in Hm' as [tail Hm'].
  apply matches_item_pattern in Hm' as (nm & w & l & p & f & -> & _ & _).
  right. exists nm, w, l, p, f.
  unfold int in H.
  destruct (Nat.ltb_spec int_max_str_digits (length w)).
  { exists (length w). cbn [bind] in H. injection H as <-.
    repeat split; [assumption | cbn [In]; tauto]. }
  destruct (Nat.ltb_spec int_max_str_digits (length l)).
  { exists (length l). cbn [bind] in H. injection H as <-.
    repeat split; [assumption | cbn [In]; tauto]. }
  destruct (Nat.ltb_spec int_max_str_digits (length p)).
  { exists (length p). cbn [bind] in H. injection H as <-.
    repeat split; [assumption | cbn [In]; tauto]. }
  destruct (Nat.ltb_spec int_max_str_digits (length f)).
  { exists (length f). cbn [bind] in H. injection H as <-.
    repeat split; [assumption | cbn [In]; tauto]. }
  discriminate H.
Qed.

(** The pattern matches at the start of a string exactly when the
    string starts with a conforming identifier. *)
Lemma re_match_prefix s :
  re_match item_pattern s = None <->
  (forall t tail, s = t ++ tail -> ~ conforms t).
Proof.
  split.
  - intros Hn t tail -> (nm & w & l & p & f & Hc).
    assert (matches item_pattern (t ++ tail) [nm; w; l; p; f] tail) as Hm.
    { pose proof Hc as (-> & Hnm & Hw & Hl & Hp & Hf). unfold item_pattern.
      repeat (rewrite <- app_assoc; cbn [app]).
      do 4 (apply matches_group; [assumption |]; apply matches_lit).
      apply matches_group; [assumption |]. apply matches_end. }
    exact (re_match_complete _ _ _ _ Hm Hn).
  - intros H. destruct (re_match item_pattern s) as [groups |] eqn:Hm;
      [exfalso | reflexivity].
    apply re_match_sound in Hm as [tail Hm].
    apply matches_item_pattern in Hm as (nm & w & l & p & f & _ & Hc & E).
    apply (H _ tail E). exists nm, w, l, p, f. exact Hc.
Qed.

Lemma conforms_ends_with_digit s :
  conforms s -> is_digit (last s underscore) = true.
Proof.
  intros (nm & w & l & p & f & -> & _ & _ & _ & _ & [Hne Hf]).
  destruct (exists_last Hne) as (f' & c & ->).
  apply Forall_app in Hf as [_ Hc]. inversion Hc as [|? ? Hd _]; subst.
  replace (nm ++ underscore :: w ++ letter_x :: l ++ letter_x :: p
              ++ underscore :: f' ++ [c])
    with ((nm ++ underscore :: w ++ letter_x :: l ++ letter_x :: p
              ++ underscore :: f') ++ [c]).
  - rewrite last_last. exact Hd.
  - repeat (rewrite <- app_assoc; cbn [app]). reflexivity.
Qed.

Lemma reconstruct_conforms spec :
  token_of is_word (name spec) ->
  0 <= spec_width_mm spec -> 0 <= spec_length_mm spec ->
  0 <= projection_mm spec -> 0 <= spec_form_type spec ->
  conforms_as (reconstruct spec) (name spec)
    (str_of_int (spec_width_mm spec)) (str_of_int (spec_length_mm spec))
    (str_of_int (projection_mm spec)) (str_of_int (spec_form_type spec)).
Proof.
  intros Hnm Hw Hl Hp Hf. unfold conforms_as, reconstruct.
  repeat split; try apply Hnm; apply str_of_int_token; assumption.
Qed.

(** C5, at an identifier with text after a conforming prefix: the parser
    returns the fields of the prefix although the identifier does not
    conform to the grammar as a whole. *)
Theorem parse_item_name_accepts_trailing_text :
  parse_item_name (lit "tray_500x300x50_1zz")
  = Ok {| name := lit "tray"; spec_width_mm := 500; spec_length_mm := 300;
          projection_mm := 50; spec_form_type := 1 |}
  /\ ~ conforms (lit "tray_500x300x50_1zz").
Proof.
  split; [vm_compute; reflexivity |].
  intros H. apply conforms_ends_with_digit in H. vm_compute in H.
  discriminate H.
Qed.

(** C8, within the limit of [int]: for an identifier that matches the
    grammar entirely and whose four numerals have at most 4300 digits,
    the parser returns the name verbatim and the four numbers of the
    identifier; the identifier rebuilt from these fields conforms with
    the same name and with numerals of the same values, and parsing it
    returns the same fields.  With a longer numeral the parser raises
    the [ValueError] of [int]. *)
Theorem parse_round_trip s nm w l p f :
  conforms_as s nm w l p f ->
  (Forall (fun d => (length d <= int_max_str_digits)%nat) [w; l; p; f] ->
   exists spec,
     parse_item_name s = Ok spec
     /\ name spec = nm
     /\ int w = Ok (spec_width_mm spec)
     /\ int l = Ok (spec_length_mm spec)
     /\ int p = Ok (projection_mm spec)
     /\ int f = Ok (spec_form_type spec)
     /\ (exists w' l' p' f',
           conforms_as (reconstruct spec) nm w' l' p' f'
           /\ int w' = int w /\ int l' = int l
           /\ int p' = int p /\ int f' = int f)
     /\ parse_item_name (reconstruct spec) = Ok spec)
  /\ (Exists (fun d => (int_max_str_digits < length d)%nat) [w; l; p; f] ->
      exists digits,
        (int_max_str_digits < digits)%nat
        /\ parse_item_name s = Raise (ValueError (int_limit_message digits))).
Proof.
  intros Hc. rewrite (parse_item_name_conforming _ _ _ _ _ _ Hc). split.
  - intros Hshort.
    repeat match goal with
           | H : Forall _ (_ :: _) |- _ =>
               apply Forall_cons_iff in H as [? H]
           end.
    destruct Hc as (_ & Hnm & [Hw0 Hw] & [Hl0 Hl] & [Hp0 Hp] & [Hf0 Hf]).
    pose proof (int_short w ltac:(assumption)) as Ew.
    pose proof (int_short l ltac:(assumption)) as El.
    pose proof (int_short p ltac:(assumption)) as Ep.
    pose proof (int_short f ltac:(assumption)) as Ef.
    rewrite Ew, El, Ep, Ef. cbn [bind].
    eexists. split; [reflexivity |].
    cbn [name spec_width_mm spec_length_mm projection_mm spec_form_type].
    do 5 (split; [reflexivity |]).
    pose proof (int_from_nonneg w 0 ltac:(lia)) as Nw.
    pose proof (int_from_nonneg l 0 ltac:(lia)) as Nl.
    pose proof (int_from_nonneg p 0 ltac:(lia)) as Np.
    pose proof (int_from_nonneg f 0 ltac:(lia)) as Nf.
    pose proof (reconstruct_conforms
                  {| name := nm; spec_width_mm := int_from 0 w;
                     spec_length_mm := int_from 0 l;
                     projection_mm := int_from 0 p;
                     spec_form_type := int_from 0 f |} Hnm Nw Nl Np Nf) as Hr.
    cbn [name spec_width_mm spec_length_mm projection_mm spec_form_type]
      in Hr.
    pose proof (int_str_of_int w _ Hw0 Ew) as Rw.
    pose proof (int_str_of_int l _ Hl0 El) as Rl.
    pose proof (int_str_of_int p _ Hp0 Ep) as Rp.
    pose proof (int_str_of_int f _ Hf0 Ef) as Rf.
    split.
    + eexists _, _, _, _. split; [exact Hr |].
      rewrite Rw, Rl, Rp, Rf. repeat split; reflexivity.
    + rewrite (parse_item_name_conforming _ _ _ _ _ _ Hr).
      rewrite Rw, Rl, Rp, Rf. reflexivity.
  - intros Hlong. unfold int.
    destruct (Nat.ltb_spec int_max_str_digits (length w));
      [eexists; split; [| reflexivity]; assumption |].
    destruct (Nat.ltb_spec int_max_str_digits (length l));
      [eexists; split; [| reflexivity]; assumption |].
    destruct (Nat.ltb_spec int_max_str_digits (length p));
      [eexists; split; [| reflexivity]; assumption |].
    destruct (Nat.ltb_spec int_max_str_digits (length f));
      [eexists; split; [| reflexivity]; assumption |].
    exfalso.
    repeat match goal with
           | H : Exists _ (_ :: _) |- _ =>
               apply Exists_cons in H as [H | H]; [lia |]
           end.
    inversion Hlong.
Qed.

(* ================================================================== *)
(** * Tokens                                                            *)
(* ================================================================== *)

Lemma split_ws_from_spaces ws : forall cur,
  Forall (fun c => is_space c = true) ws ->
  split_ws_from cur ws = split_ws_from cur [].
Proof.
  induction ws as [|c ws IH]; intros cur H; [reflexivity |].
  inversion H as [|? ? Hc Hws]; subst. cbn [split_ws_from]. rewrite Hc.
  rewrite (IH [] Hws). destruct cur; reflexivity.
Qed.

Lemma split_ws_from_app_spaces s ws : forall cur,
  Forall (fun c => is_space c = true) ws ->
  split_ws_from cur (s ++ ws) = split_ws_from cur s.
Proof.
  induction s as [|c s IH]; intros cur H.
  - apply split_ws_from_spaces. assumption.
  - cbn [app split_ws_from]. destruct (is_space c).
    + rewrite (IH [] H). reflexivity.
    + apply IH. assumption.
Qed.

Lemma lstrip_spaces s :
  exists ws, Forall (fun c => is_space c = true) ws /\ s = ws ++ lstrip s.
Proof.
  induction s as [|c s (ws & Hws & E)].
  - exists []. split; [constructor | reflexivity].
  - cbn [lstrip]. destruct (is_space c) eqn:Hc.
    + exists (c :: ws). split; [constructor; assumption |].
      cbn [app]. f_equal. exact E.
    + exists []. split; [constructor | reflexivity].
Qed.

Lemma split_ws_lstrip s : split_ws (lstrip s) = split_ws s.
Proof.
  unfold split_ws. induction s as [|c s IH]; [reflexivity |].
  cbn [lstrip]. destruct (is_space c) eqn:Hc; [| reflexivity].
  cbn [split_ws_from]. rewrite Hc. exact IH.
Qed.

Lemma split_ws_strip s : split_ws (strip s) = split_ws s.
Proof.
  unfold strip.
  destruct (lstrip_spaces (rev (lstrip s))) as (ws & Hws & E).
  apply (f_equal (@rev char)) in E. rewrite rev_involutive, rev_app_distr in E.
  transitivity (split_ws (lstrip s)); [| apply split_ws_lstrip].
  set (t := rev (lstrip (rev (lstrip s)))) in *. rewrite E.
  unfold split_ws. symmetry. apply split_ws_from_app_spaces.
  apply Forall_rev. assumption.
Qed.

Lemma split_on_not_nil sep s : split_on sep s <> [].
Proof.
  destruct s as [|c s]; cbn [split_on]; [discriminate |].
  destruct ((c =? sep)%N); [discriminate |].
  destruct (split_on sep s); discriminate.
Qed.

Lemma split_ws_from_lines s : forall cur,
  split_ws_from cur s =
  match split_on line_feed s with
  | line :: lines => split_ws_from cur line ++ flat_map split_ws lines
  | [] => []
  end.
Proof.
  induction s as [|c s IH]; intros cur.
  - cbn [split_on flat_map]. rewrite app_nil_r. reflexivity.
  - cbn [split_on]. destruct (N.eqb_spec c line_feed) as [-> | Hc].
    + cbn [split_ws_from]. change (is_space line_feed) with true. cbv iota.
      specialize (IH []). 
      destruct (split_on line_feed s) as [|line lines] eqn:E;
        [exfalso; eapply split_on_not_nil; exact E |].
      rewrite IH. cbn [flat_map split_ws_from]. unfold split_ws.
      destruct cur; reflexivity.
    + destruct (split_on line_feed s) as [|line lines] eqn:E;
        [exfalso; eapply split_on_not_nil; exact E |].
      cbn [split_ws_from]. destruct (is_space c).
      * rewrite (IH []). destruct cur; reflexivity.
      * apply IH.
Qed.

(** The tokens of the text are its maximal runs of characters that are
    not white space. *)
Lemma items_of_split_ws content : items_of content = split_ws content.
Proof.
  unfold items_of. rewrite <- (split_ws_strip content).
  unfold split_ws at 2. rewrite split_ws_from_lines.
  generalize (split_on_not_nil line_feed (strip content)).
  generalize (split_on line_feed (strip content)). intros lines Hne.
  assert (forall ls, flat_map (fun line => split_ws (strip line)) ls
                     = flat_map split_ws ls) as Hflat.
  { induction ls as [|l ls IH]; [reflexivity |].
    cbn [flat_map]. rewrite split_ws_strip, IH. reflexivity. }
  rewrite Hflat. destruct lines; [congruence | reflexivity].
Qed.

Lemma in_first_occurrences l : forall t, In t (first_occurrences l) <-> In t l.
Proof.
  induction l as [|x l IH]; intros t; cbn [first_occurrences]; [tauto |].
  split.
  - intros [-> | H]; [left; reflexivity |].
    apply in_remove in H as [H _]. right. apply IH. exact H.
  - intros [-> | H]; [left; reflexivity |].
    destruct (str_eq_dec x t) as [-> | Hne]; [left; reflexivity |].
    right. apply in_in_remove; [congruence | apply IH; exact H].
Qed.

Lemma NoDup_remove_str x l : NoDup l -> NoDup (remove str_eq_dec x l).
Proof.
  induction 1 as [|y l Hy _ IH]; cbn [remove]; [constructor |].
  destruct (str_eq_dec x y); [exact IH |].
  constructor; [| exact IH].
  intros H. apply in_remove in H as [H _]. contradiction.
Qed.

Lemma NoDup_first_occurrences l : NoDup (first_occurrences l).
Proof.
  induction l as [|x l IH]; cbn [first_occurrences]; constructor.
  - apply remove_In.
  - apply NoDup_remove_str. exact IH.
Qed.

Lemma first_occurrences_snoc l x :
  first_occurrences (l ++ [x]) =
  if in_dec str_eq_dec x l then first_occurrences l
  else first_occurrences l ++ [x].
Proof.
  induction l as [|a l IH].
  - cbn. destruct (str_eq_dec x x); reflexivity.
  - cbn [app first_occurrences]. rewrite IH.
    destruct (in_dec str_eq_dec x l) as [Hin | Hnin];
      destruct (in_dec str_eq_dec x (a :: l)) as [Hin' | Hnin'].
    + reflexivity.
    + exfalso. apply Hnin'. right. exact Hin.
    + destruct Hin' as [-> | Hin']; [| contradiction].
      rewrite remove_app. cbn [remove].
      destruct (str_eq_dec x x); [| congruence].
      rewrite app_nil_r. reflexivity.
    + rewrite remove_app. cbn [remove].
      destruct (str_eq_dec a x) as [-> | Hne];
        [exfalso; apply Hnin'; left; reflexivity | reflexivity].
Qed.

Lemma occurrences_snoc l x t :
  occurrences (l ++ [x]) t =
  occurrences l t + (if str_eq_dec x t then 1 else 0).
Proof.
  unfold occurrences. rewrite count_occ_app. cbn [count_occ].
  destruct (str_eq_dec x t); lia.
Qed.

Lemma occurrences_not_in l t : ~ In t l -> occurrences l t = 0.
Proof.
  intros H. unfold occurrences.
  rewrite (proj1 (count_occ_not_In str_eq_dec l t) H). reflexivity.
Qed.

Lemma occurrences_positive l t : In t l -> 1 <= occurrences l t.
Proof.
  intros H. unfold occurrences.
  apply (count_occ_In str_eq_dec) in H. lia.
Qed.

Lemma dict_get_tabulate (g : str -> Z) ks x d :
  dict_get (tabulate g ks) x d = if in_dec str_eq_dec x ks then g x else d.
Proof.
  induction ks as [|k ks IH]; [reflexivity |].
  cbn [tabulate map dict_get]. fold (tabulate g ks). rewrite IH.
  destruct (str_eq_dec k x) as [-> | Hne].
  - destruct (in_dec str_eq_dec x (x :: ks)) as [|H]; [reflexivity |].
    exfalso. apply H. left. reflexivity.
  - destruct (in_dec str_eq_dec x ks) as [Hin | Hnin];
      destruct (in_dec str_eq_dec x (k :: ks)) as [Hin' | Hnin'];
      try reflexivity.
    + exfalso. apply Hnin'. right. exact Hin.
    + destruct Hin' as [-> | Hin']; [congruence | contradiction].
Qed.

Lemma tabulate_ext (g g' : str -> Z) ks :
  (forall t, In t ks -> g' t = g t) -> tabulate g' ks = tabulate g ks.
Proof.
  intros H. unfold tabulate. apply map_ext_in. intros t Ht.
  rewrite (H t Ht). reflexivity.
Qed.

Lemma dict_set_tabulate_new (g g' : str -> Z) ks x :
  ~ In x ks -> (forall t, In t ks -> g' t = g t) ->
  dict_set (tabulate g ks) x (g' x) = tabulate g' (ks ++ [x]).
Proof.
  induction ks as [|k ks IH]; intros Hnin Hg; [reflexivity |].
  cbn [tabulate map dict_set app]. fold (tabulate g ks).
  fold (tabulate g' (ks ++ [x])).
  destruct (str_eq_dec k x) as [-> | Hne];
    [exfalso; apply Hnin; left; reflexivity |].
  rewrite (Hg k (or_introl eq_refl)). f_equal.
  apply IH; [intros H; apply Hnin; right; exact H |].
  intros t Ht. apply Hg. right. exact Ht.
Qed.

Lemma dict_set_tabulate_old (g g' : str -> Z) ks x :
  In x ks -> NoDup ks -> (forall t, In t ks -> t <> x -> g' t = g t) ->
  dict_set (tabulate g ks) x (g' x) = tabulate g' ks.
Proof.
  induction ks as [|k ks IH]; intros Hin Hnd Hg; [contradiction |].
  inversion Hnd as [|? ? Hk Hnd']; subst.
  cbn [tabulate map dict_set]. fold (tabulate g ks). fold (tabulate g' ks).
  destruct (str_eq_dec k x) as [-> | Hne].
  - f_equal. symmetry. apply tabulate_ext. intros t Ht. apply Hg.
    + right. exact Ht.
    + intros ->. contradiction.
  - rewrite (Hg k (or_introl eq_refl) Hne). f_equal.
    destruct Hin as [-> | Hin]; [congruence |].
    apply IH; [exact Hin | exact Hnd' |].
    intros t Ht. apply Hg. right. exact Ht.
Qed.

(** [item_counts] holds each distinct token once, in the order of first
    occurrence, with the number of its occurrences. *)
Lemma count_items_tabulate items :
  count_items items = tabulate (occurrences items) (first_occurrences items).
Proof.
  induction items as [|x items IH] using rev_ind; [reflexivity |].
  unfold count_items in *. rewrite fold_left_app. cbn [fold_left].
  rewrite IH. rewrite dict_get_tabulate, first_occurrences_snoc.
  destruct (in_dec str_eq_dec x (first_occurrences items)) as [Hin | Hnin];
    destruct (in_dec str_eq_dec x items) as [Hin' | Hnin'].
  - replace (occurrences items x + 1) with (occurrences (items ++ [x]) x).
    + apply dict_set_tabulate_old;
        [exact Hin | apply NoDup_first_occurrences |].
      intros t _ Hne. rewrite occurrences_snoc.
      destruct (str_eq_dec x t); [congruence | lia].
    + rewrite occurrences_snoc. destruct (str_eq_dec x x); congruence.
  - exfalso. apply Hnin'. apply in_first_occurrences. exact Hin.
  - exfalso. apply Hnin. apply in_first_occurrences. exact Hin'.
  - replace (0 + 1) with (occurrences (items ++ [x]) x).
    + apply dict_set_tabulate_new; [exact Hnin |].
      intros t Ht. rewrite occurrences_snoc.
      destruct (str_eq_dec x t) as [-> |]; [contradiction | lia].
    + rewrite occurrences_snoc, occurrences_not_in by exact Hnin'.
      destruct (str_eq_dec x x); congruence.
Qed.

(* ================================================================== *)
(** * [parse_txt_file]                                                  *)
(* ================================================================== *)

Lemma rows_frame_of_records {R} cols (records : list R) :
  rows (frame_of_records cols records) = records.
Proof. destruct records; reflexivity. Qed.

Lemma record_of_in_range spec count :
  in_float_range spec = true ->
  record_of spec count = Ok (record_for spec count).
Proof.
  unfold in_float_range, record_of, true_div_1000, record_for. intros H.
  apply andb_true_iff in H as [H Hp]. apply andb_true_iff in H as [Hw Hl].
  apply negb_true_iff in Hw, Hl, Hp. rewrite Hw, Hl, Hp. reflexivity.
Qed.

Lemma record_of_out_of_range spec count :
  in_float_range spec = false ->
  record_of spec count
  = Raise (OverflowError
             (lit "integer division result too large for a float")).
Proof.
  unfold in_float_range, record_of, true_div_1000. intros H.
  destruct (true_div_overflows (spec_width_mm spec)); [reflexivity |].
  destruct (true_div_overflows (spec_length_mm spec)); [reflexivity |].
  destruct (true_div_overflows (projection_mm spec)); [reflexivity |].
  discriminate H.
Qed.

Lemma read_items_ok (parsed : str -> ItemSpec) (d : dict Z) :
  (forall k, In k (map fst d) ->
             parse_item_name k = Ok (parsed k)
             /\ in_float_range (parsed k) = true) ->
  read_items d =
  (map fst d, Ok (map (fun kv => record_for (parsed (fst kv)) (snd kv)) d)).
Proof.
  induction d as [|[k c] d IH]; intros H; [reflexivity |].
  cbn [read_items map fst snd].
  destruct (H k (or_introl eq_refl)) as [Hk Hr]. rewrite Hk. cbn [bind].
  rewrite (record_of_in_range _ c Hr).
  rewrite IH by (intros k' Hk'; apply H; right; exact Hk').
  reflexivity.
Qed.

Lemma read_items_raises (d : dict Z) :
  (exists k, In k (map fst d)
             /\ forall spec, parse_item_name k = Ok spec ->
                             in_float_range spec = false) ->
  exists calls e, read_items d = (calls, Raise e).
Proof.
  induction d as [|[k c] d IH]; intros (k' & Hin & Hk'); [contradiction |].
  cbn [read_items].
  destruct (parse_item_name k) as [spec | e] eqn:Hk; cbn [bind];
    [| exists [k], e; reflexivity].
  destruct (in_float_range spec) eqn:Hr.
  - rewrite (record_of_in_range _ c Hr).
    destruct Hin as [<- | Hin];
      [rewrite (Hk' spec Hk) in Hr; discriminate Hr |].
    destruct (IH (ex_intro _ k' (conj Hin Hk'))) as (calls & e & ->).
    exists (k :: calls), e. reflexivity.
  - rewrite (record_of_out_of_range _ c Hr). eexists [k], _. reflexivity.
Qed.

Lemma map_fst_tabulate g ks : map fst (tabulate g ks) = ks.
Proof.
  unfold tabulate. rewrite map_map. cbn [fst]. apply map_id.
Qed.

Lemma spec_of_parsed item_name spec :
  parse_item_name item_name = Ok spec -> spec_of item_name = spec.
Proof. unfold spec_of. intros ->. reflexivity. Qed.

(** Ingestion of a text whose tokens all parse, with measures in the
    range of the doubles. *)
Lemma parse_txt_file_traced_ok content :
  (forall t, In t (split_ws content) ->
             exists spec, parse_item_name t = Ok spec
                          /\ in_float_range spec = true) ->
  parse_txt_file_traced content =
  (first_occurrences (split_ws content),
   Ok (frame_of_records ingested_columns
         (map (fun t => record_for (spec_of t) (occurrences (split_ws content) t))
              (first_occurrences (split_ws content))))).
Proof.
  intros Hall. unfold parse_txt_file_traced.
  rewrite items_of_split_ws, count_items_tabulate.
  rewrite (read_items_ok spec_of).
  - rewrite map_fst_tabulate. unfold tabulate. rewrite map_map. reflexivity.
  - intros k Hk. rewrite map_fst_tabulate in Hk.
    apply in_first_occurrences, Hall in Hk as (spec & E & Hr).
    rewrite (spec_of_parsed _ _ E). split; assumption.
Qed.

(** Ingestion of a text with a token that does not parse, or whose
    measures are out of that range. *)
Lemma parse_txt_file_traced_raises content :
  (exists t, In t (split_ws content)
             /\ forall spec, parse_item_name t = Ok spec ->
                             in_float_range spec = false) ->
  exists calls e, parse_txt_file_traced content = (calls, Raise e).
Proof.
  intros (t & Ht & Hbad). unfold parse_txt_file_traced.
  rewrite items_of_split_ws, count_items_tabulate.
  destruct (read_items_raises
              (tabulate (occurrences (split_ws content))
                        (first_occurrences (split_ws content))))
    as (calls & e & ->).
  - exists t. split; [| exact Hbad].
    rewrite map_fst_tabulate. apply in_first_occurrences. exact Ht.
  - exists calls, e. reflexivity.
Qed.

(** Ingestion succeeds on these texts only. *)
Lemma parse_txt_file_ok content df :
  parse_txt_file content = Ok df ->
  (forall t, In t (split_ws content) ->
             exists spec, parse_item_name t = Ok spec
                          /\ in_float_range spec = true)
  /\ df = frame_of_records ingested_columns
            (map (fun t => record_for (spec_of t)
                                      (occurrences (split_ws content) t))
                 (first_occurrences (split_ws content))).
Proof.
  unfold parse_txt_file. intros H.
  assert (forall t, In t (split_ws content) ->
                    exists spec, parse_item_name t = Ok spec
                                 /\ in_float_range spec = true) as Hall.
  { intros t Ht.
    destruct (parse_item_name t) as [spec | e] eqn:E.
    - destruct (in_float_range spec) eqn:Hr;
        [exists spec; split; [reflexivity | exact Hr] |].
      destruct (parse_txt_file_traced_raises content) as (calls & e' & E').
      + exists t. split; [exact Ht |]. intros spec' E2.
        rewrite E in E2. injection E2 as <-. exact Hr.
      + rewrite E' in H. discriminate H.
    - destruct (parse_txt_file_traced_raises content) as (calls & e' & E').
      + exists t. split; [exact Ht |]. intros spec' E2.
        rewrite E in E2. discriminate E2.
      + rewrite E' in H. discriminate H. }
  split; [exact Hall |].
  rewrite (parse_txt_file_traced_ok content Hall) in H. cbn [snd] in H.
  injection H as <-. reflexivity.
Qed.



(* ================================================================== *)
(** * Stable sorting                                                    *)
(* ================================================================== *)

Section StableSortFacts.
Variable A : Type.
Variable le : A -> A -> bool.
Hypothesis le_total : forall a b, le a b = true \/ le b a = true.
Hypothesis le_trans :
  forall a b c, le a b = true -> le b c = true -> le a c = true.

Lemma insert_sorted_perm x l : Permutation (insert_sorted le x l) (x :: l).
Proof.
  induction l as [|y l IH]; cbn [insert_sorted]; [reflexivity |].
  destruct (le x y); [reflexivity |].
  rewrite IH. apply perm_swap.
Qed.

Lemma stable_sort_perm l : Permutation (stable_sort le l) l.
Proof.
  induction l as [|x l IH]; cbn [stable_sort]; [reflexivity |].
  rewrite insert_sorted_perm, IH. reflexivity.
Qed.

Lemma insert_sorted_then_by R x l :
  StronglySorted (then_by le R) l -> Forall (R x) l ->
  StronglySorted (then_by le R) (insert_sorted le x l).
Proof.
  induction l as [|y l IH]; intros Hs Hx; cbn [insert_sorted].
  - constructor; constructor.
  - inversion Hs as [|? ? Hs' Hy]; subst.
    inversion Hx as [|? ? Hxy Hxl]; subst.
    destruct (le x y) eqn:E.
    + constructor; [exact Hs |]. constructor.
      * split; [exact E | intros _; exact Hxy].
      * rewrite Forall_forall in *. intros z Hz. split.
        -- apply (le_trans x y z E). apply (Hy z Hz).
        -- intros _. apply Hxl. exact Hz.
    + constructor; [apply IH; assumption |].
      assert (then_by le R y x) as Hyx.
      { split; [destruct (le_total x y); congruence | congruence]. }
      rewrite Forall_forall in *. intros z Hz.
      apply (Permutation_in _ (insert_sorted_perm x l)) in Hz.
      destruct Hz as [<- | Hz]; [exact Hyx | apply Hy; exact Hz].
Qed.

(** A stable pass keeps the earlier order among the elements it does
    not tell apart. *)
Lemma stable_sort_then_by R l :
  StronglySorted R l -> StronglySorted (then_by le R) (stable_sort le l).
Proof.
  induction 1 as [|x l Hs IH Hx]; cbn [stable_sort]; [constructor |].
  apply insert_sorted_then_by; [exact IH |].
  rewrite Forall_forall in *. intros z Hz. apply Hx.
  apply (Permutation_in _ (stable_sort_perm l)). exact Hz.
Qed.
End StableSortFacts.

Lemma StronglySorted_weaken {A} (R R' : A -> A -> Prop) l :
  (forall a b, R a b -> R' a b) -> StronglySorted R l -> StronglySorted R' l.
Proof.
  intros HR. induction 1 as [|x l _ IH Hx]; constructor; [exact IH |].
  rewrite Forall_forall in *. intros z Hz. apply HR, Hx, Hz.
Qed.

Lemma StronglySorted_any {A} (l : list A) : StronglySorted (fun _ _ => True) l.
Proof.
  induction l; constructor; [assumption |]. apply Forall_forall. trivial.
Qed.

(* ================================================================== *)
(** * [assign_cutoffs]: sorting                                         *)
(* ================================================================== *)

(** The comparison of lengths is a total preorder: the values are finite
    doubles. *)
Hypothesis num_le_total :
  forall a b, num_le ops a b = true \/ num_le ops b a = true.
Hypothesis num_le_trans :
  forall a b c,
    num_le ops a b = true -> num_le ops b c = true -> num_le ops a c = true.

Lemma sort_values_perm rs : Permutation (sort_values rs) rs.
Proof.
  unfold sort_values. rewrite !stable_sort_perm. reflexivity.
Qed.

Lemma by_form_total a b : by_form a b = true \/ by_form b a = true.
Proof. unfold by_form. rewrite !Z.leb_le. lia. Qed.

Lemma by_form_trans a b c :
  by_form a b = true -> by_form b c = true -> by_form a c = true.
Proof. unfold by_form. rewrite !Z.leb_le. lia. Qed.

Lemma by_width_total a b : by_width a b = true \/ by_width b a = true.
Proof. unfold by_width. rewrite !Z.leb_le. lia. Qed.

Lemma by_width_trans a b c :
  by_width a b = true -> by_width b c = true -> by_width a c = true.
Proof. unfold by_width. rewrite !Z.leb_le. lia. Qed.

Lemma sort_values_keys_sorted rs : StronglySorted key_before (sort_values rs).
Proof.
  unfold sort_values.
  apply StronglySorted_weaken
    with (R := then_by by_form (then_by by_width (fun _ _ => True))).
  - unfold then_by, key_before, by_form, by_width. intros a b [H1 H2].
    apply Z.leb_le in H1.
    destruct (Z.eq_dec (FormType a) (FormType b)) as [E | E]; [| lia].
    right. split; [exact E |].
    destruct H2 as [H2 _]; [apply Z.leb_le; lia | apply Z.leb_le; exact H2].
  - apply stable_sort_then_by; [apply by_form_total | apply by_form_trans |].
    apply stable_sort_then_by; [apply by_width_total | apply by_width_trans |].
    apply StronglySorted_any.
Qed.

Lemma sort_values_sorted rs : StronglySorted sorted_before (sort_values rs).
Proof.
  unfold sort_values.
  apply StronglySorted_weaken
    with (R := then_by by_form
                 (then_by by_width (then_by by_length_desc (fun _ _ => True)))).
  - unfold then_by, sorted_before, by_form, by_width, by_length_desc.
    intros a b [H1 H2]. apply Z.leb_le in H1.
    destruct (Z.eq_dec (FormType a) (FormType b)) as [E | E]; [| lia].
    right. split; [exact E |].
    destruct H2 as [H2 H3]; [apply Z.leb_le; lia |].
    apply Z.leb_le in H2.
    destruct (Z.eq_dec (width_mm a) (width_mm b)) as [E' | E']; [| lia].
    right. split; [exact E' |].
    destruct H3 as [H3 _]; [apply Z.leb_le; lia | exact H3].
  - apply stable_sort_then_by; [apply by_form_total | apply by_form_trans |].
    apply stable_sort_then_by; [apply by_width_total | apply by_width_trans |].
    apply stable_sort_then_by.
    + intros a b. apply num_le_total.
    + intros a b c Hab Hbc. unfold by_length_desc in *.
      exact (num_le_trans _ _ _ Hbc Hab).
    + apply StronglySorted_any.
Qed.

(* ================================================================== *)
(** * [assign_cutoffs]: grouping                                        *)
(* ================================================================== *)

Lemma key_leb_spec a b :
  key_leb a b = true <->
  fst a < fst b \/ (fst a = fst b /\ snd a <= snd b).
Proof.
  unfold key_leb.
  rewrite orb_true_iff, andb_true_iff, Z.ltb_lt, Z.eqb_eq, Z.leb_le.
  reflexivity.
Qed.

Lemma key_leb_total a b : key_leb a b = true \/ key_leb b a = true.
Proof. rewrite !key_leb_spec. lia. Qed.

Lemma key_leb_trans a b c :
  key_leb a b = true -> key_leb b c = true -> key_leb a c = true.
Proof. rewrite !key_leb_spec. lia. Qed.

Lemma key_lt_spec a b : key_lt a b <-> key_leb a b = true /\ a <> b.
Proof.
  rewrite key_leb_spec. unfold key_lt. destruct a as [a1 a2], b as [b1 b2].
  cbn [fst snd]. split.
  - intros H. split; [lia |]. intros E. injection E as -> ->. lia.
  - intros [H Hne].
    destruct (Z.eq_dec a2 b2) as [-> |]; [| lia].
    destruct (Z.eq_dec a1 b1) as [-> |]; [congruence | lia].
Qed.

Lemma has_key_true k r : has_key k r = true <-> group_key r = k.
Proof.
  unfold has_key. destruct (key_eq_dec (group_key r) k); split;
    congruence.
Qed.

Lemma in_group_keys rs k :
  In k (group_keys rs) <-> exists r, In r rs /\ group_key r = k.
Proof.
  unfold group_keys. split.
  - intros H. apply (Permutation_in _ (stable_sort_perm _ key_leb _)) in H.
    apply nodup_In, in_map_iff in H as (r & E & Hr). exists r. tauto.
  - intros (r & Hr & <-).
    apply (Permutation_in _ (Permutation_sym (stable_sort_perm _ key_leb _))).
    apply nodup_In, in_map. exact Hr.
Qed.

Lemma group_keys_sorted rs : StronglySorted key_lt (group_keys rs).
Proof.
  unfold group_keys.
  assert (NoDup (stable_sort key_leb (nodup key_eq_dec (map group_key rs))))
    as Hnd.
  { apply (Permutation_NoDup (Permutation_sym (stable_sort_perm _ key_leb _))).
    apply NoDup_nodup. }
  pose proof (stable_sort_then_by _ key_leb key_leb_total key_leb_trans
                (fun _ _ => True) _
                (StronglySorted_any (nodup key_eq_dec (map group_key rs))))
    as Hs.
  revert Hnd Hs.
  generalize (stable_sort key_leb (nodup key_eq_dec (map group_key rs))).
  intros ks Hnd Hs.
  induction Hs as [|k ks Hs IH Hk]; [constructor |].
  inversion Hnd as [|? ? Hnin Hnd']; subst.
  constructor; [apply IH; exact Hnd' |].
  rewrite Forall_forall in *. intros k' Hk'. apply key_lt_spec. split.
  - apply (Hk k' Hk').
  - intros ->. contradiction.
Qed.

Lemma concat_map_nil {A B} (l : list A) :
  concat (map (fun _ => @nil B) l) = [].
Proof. induction l; [reflexivity | assumption]. Qed.

Lemma filter_none {A} (f : A -> bool) l :
  (forall x, In x l -> f x = false) -> filter f l = [].
Proof.
  induction l as [|x l IH]; intros H; [reflexivity |].
  cbn [filter]. rewrite (H x (or_introl eq_refl)).
  apply IH. intros y Hy. apply H. right. exact Hy.
Qed.

Lemma key_before_spec a b :
  key_before a b <-> key_leb (group_key a) (group_key b) = true.
Proof. rewrite key_leb_spec. reflexivity. Qed.

(** On rows sorted by key, collecting the rows of each key in turn
    gives back the rows in their order. *)
Lemma concat_filter_keys keys :
  StronglySorted key_lt keys ->
  forall rs,
    StronglySorted key_before rs ->
    (forall r, In r rs -> In (group_key r) keys) ->
    concat (map (fun k => filter (has_key k) rs) keys) = rs.
Proof.
  induction 1 as [|k ks Hks IHks Hk]; intros rs Hs Hin.
  - destruct rs as [|r rs]; [reflexivity |].
    destruct (Hin r (or_introl eq_refl)).
  - induction Hs as [|r rs Hs IHrs Hr].
    + cbn [map concat filter app]. apply concat_map_nil.
    + cbn [map concat].
      destruct (key_eq_dec (group_key r) k) as [E | E].
      * cbn [filter]. rewrite (proj2 (has_key_true k r) E).
        cbn [app]. f_equal.
        etransitivity;
          [| apply IHrs; intros x Hx; apply Hin; right; exact Hx].
        cbn [map concat]. f_equal. f_equal.
        apply map_ext_in. intros k' Hk'. cbn [filter].
        destruct (has_key k' r) eqn:Hkr; [| reflexivity].
        apply has_key_true in Hkr.
        rewrite Forall_forall in Hk. apply Hk, key_lt_spec in Hk'.
        destruct Hk' as [_ Hne]. congruence.
      * assert (In (group_key r) ks) as Hrk.
        { destruct (Hin r (or_introl eq_refl)); [congruence | assumption]. }
        assert (forall x, In x (r :: rs) -> key_lt k (group_key x)) as Hgt.
        { rewrite Forall_forall in Hk, Hr. intros x [<- | Hx].
          - apply Hk. exact Hrk.
          - pose proof (Hk _ Hrk) as H1. pose proof (Hr _ Hx) as H2.
            apply key_before_spec, key_leb_spec in H2.
            unfold key_lt in *. lia. }
        replace (filter (has_key k) (r :: rs)) with (@nil row).
        -- cbn [app]. apply IHks.
           ++ constructor; assumption.
           ++ intros x Hx. destruct (Hin x Hx) as [E' | H']; [| exact H'].
              exfalso. apply Hgt in Hx. rewrite <- E' in Hx.
              unfold key_lt in Hx. lia.
        -- symmetry. apply filter_none. intros x Hx.
           destruct (has_key k x) eqn:Hkx; [| reflexivity].
           apply has_key_true in Hkx. apply Hgt in Hx.
           rewrite Hkx in Hx. exfalso. unfold key_lt in Hx. lia.
Qed.

Lemma groupby_concat rs :
  StronglySorted key_before rs -> concat (map snd (groupby rs)) = rs.
Proof.
  intros Hs. unfold groupby. rewrite map_map. cbn [snd].
  apply concat_filter_keys; [apply group_keys_sorted | exact Hs |].
  intros r Hr. apply in_group_keys. exists r. tauto.
Qed.

Lemma groupby_grouped rs :
  StronglySorted key_before rs -> grouped rs (map snd (groupby rs)).
Proof.
  intros Hs. split; [apply groupby_concat; exact Hs |].
  unfold groupby. rewrite map_map. cbn [snd].
  pose proof (group_keys_sorted rs) as Hks.
  assert (forall k, In k (group_keys rs) -> filter (has_key k) rs <> [])
    as Hne.
  { intros k Hk. apply in_group_keys in Hk as (r & Hr & E).
    intros Hnil.
    assert (In r (filter (has_key k) rs)) as Hin
      by (apply filter_In; split; [exact Hr | apply has_key_true; exact E]).
    rewrite Hnil in Hin. exact Hin. }
  revert Hks Hne. generalize (group_keys rs). intros ks Hks Hne.
  induction Hks as [|k ks Hks IH Hk].
  - repeat split; constructor.
  - destruct IH as (IH1 & IH2 & IH3);
      [intros k' Hk'; apply Hne; right; exact Hk' |].
    cbn [map]. repeat split.
    + constructor; [apply Hne; left; reflexivity | exact IH1].
    + constructor; [| exact IH2].
      intros a b Ha Hb. apply filter_In in Ha as [_ Ha], Hb as [_ Hb].
      apply has_key_true in Ha, Hb. congruence.
    + constructor; [exact IH3 |].
      rewrite Forall_forall in *. intros g Hg a b Ha Hb.
      apply in_map_iff in Hg as (k' & <- & Hk').
      apply filter_In in Ha as [_ Ha], Hb as [_ Hb].
      apply has_key_true in Ha, Hb. rewrite Ha, Hb. apply Hk. exact Hk'.
Qed.

(* ================================================================== *)
(** * [assign_cutoffs]: packing                                         *)
(* ================================================================== *)

Lemma close_bin_app subgroups bin :
  close_bin subgroups bin = subgroups ++ close_bin [] bin.
Proof. destruct bin; cbn [close_bin app]; [rewrite app_nil_r |]; reflexivity. Qed.

(** The loop of lines 157-169, started in any state, performs the first
    fit of the specification. *)
Lemma pack_loop_first_fit capacity records : forall subgroups bin total,
  exists bins,
    first_fit capacity bin total records bins
    /\ (let '(subgroups', bin', _) :=
          fold_left (pack_step capacity) records (subgroups, bin, total) in
        close_bin subgroups' bin') = subgroups ++ bins.
Proof.
  induction records as [|r records IH]; intros subgroups bin total.
  - cbn [fold_left]. destruct bin as [|b bin].
    + exists []. split; [constructor | cbn; rewrite app_nil_r; reflexivity].
    + exists [b :: bin]. split; [constructor; discriminate | reflexivity].
  - cbn [fold_left]. unfold pack_step at 2.
    destruct (Z.gtb_spec (total + Quantity r) capacity) as [Hgt | Hle].
    + destruct (IH (close_bin subgroups bin) [r] (Quantity r))
        as (bins & Hff & ->).
      destruct bin as [|b bin].
      * exists bins. split; [| reflexivity].
        apply ff_seed_first; [lia | exact Hff].
      * exists ((b :: bin) :: bins). split.
        -- apply ff_seed; [discriminate | lia | exact Hff].
        -- cbn [close_bin]. rewrite <- app_assoc. reflexivity.
    + destruct (IH subgroups (bin ++ [r]) (total + Quantity r))
        as (bins & Hff & ->).
      exists bins. split; [| reflexivity].
      apply ff_join; [lia | exact Hff].
Qed.

Lemma pack_first_fit capacity group :
  first_fit capacity [] 0 group (pack capacity group).
Proof.
  destruct (pack_loop_first_fit capacity group [] [] 0) as (bins & Hff & E).
  unfold pack. cbn [app] in E.
  destruct (fold_left (pack_step capacity) group ([], [], 0)) as [[sg cur] t].
  rewrite E. exact Hff.
Qed.

Lemma first_fit_functional capacity bin total records bins :
  first_fit capacity bin total records bins ->
  forall bins', first_fit capacity bin total records bins' -> bins' = bins.
Proof.
  induction 1 as [total | bin total Hne | total r records bins Hgt _ IH
                  | bin total r records bins Hne Hgt _ IH
                  | bin total r records bins Hle _ IH];
    intros bins' H'; inversion H'; subst;
    try reflexivity; try congruence; try lia;
    try (apply IH; assumption); try (f_equal; apply IH; assumption).
Qed.

Lemma total_quantity_app a b :
  total_quantity (a ++ b) = total_quantity a + total_quantity b.
Proof.
  unfold total_quantity.
  induction a as [|x a IH]; cbn [app fold_right]; lia.
Qed.

Lemma total_quantity_one r : total_quantity [r] = Quantity r.
Proof. unfold total_quantity. cbn [fold_right]. lia. Qed.

(** The bins of a first fit are the records in their order; no bin is
    empty; a bin of two or more records is within the capacity. *)
Lemma first_fit_bins capacity bin total records bins :
  first_fit capacity bin total records bins ->
  total = total_quantity bin ->
  ((2 <= length bin)%nat -> total <= capacity) ->
  concat bins = bin ++ records
  /\ Forall (fun b => b <> []
                      /\ ((2 <= length b)%nat -> total_quantity b <= capacity))
            bins.
Proof.
  induction 1 as [total | bin total Hne | total r records bins Hgt _ IH
                  | bin total r records bins Hne Hgt _ IH
                  | bin total r records bins Hle _ IH];
    intros Ht Hcap.
  - split; [reflexivity | constructor].
  - split; [cbn; rewrite !app_nil_r; reflexivity |].
    constructor; [| constructor]. split; [exact Hne |].
    intros H2. rewrite <- Ht. apply Hcap. exact H2.
  - destruct IH as [E F];
      [symmetry; apply total_quantity_one | cbn [length]; lia |].
    split; [exact E | exact F].
  - destruct IH as [E F];
      [symmetry; apply total_quantity_one | cbn [length]; lia |].
    split.
    + cbn [concat]. rewrite E. reflexivity.
    + constructor; [| exact F]. split; [exact Hne |].
      intros H2. rewrite <- Ht. apply Hcap. exact H2.
  - destruct IH as [E F].
    + rewrite total_quantity_app, total_quantity_one. lia.
    + intros _. exact Hle.
    + split; [| exact F]. rewrite E, <- app_assoc. reflexivity.
Qed.

(** With quantities that are not negative, a record above the capacity
    shares its bin with no other record. *)
Lemma first_fit_alone capacity bin total records bins :
  first_fit capacity bin total records bins ->
  total = total_quantity bin ->
  Forall (fun r => 0 <= Quantity r) (bin ++ records) ->
  (forall r, In r bin -> capacity < Quantity r -> bin = [r]) ->
  Forall (fun b => forall r, In r b -> capacity < Quantity r -> b = [r]) bins.
Proof.
  assert (forall l, Forall (fun r => 0 <= Quantity r) l ->
                    0 <= total_quantity l) as Hsum.
  { induction 1 as [|x l Hx _ IH]; [unfold total_quantity; cbn; lia |].
    change (x :: l) with ([x] ++ l).
    rewrite total_quantity_app, total_quantity_one. lia. }
  induction 1 as [total | bin total Hne | total r records bins Hgt _ IH
                  | bin total r records bins Hne Hgt _ IH
                  | bin total r records bins Hle _ IH];
    intros Ht Hpos Hbin.
  - constructor.
  - constructor; [exact Hbin | constructor].
  - apply IH; [symmetry; apply total_quantity_one | exact Hpos |].
    intros x [<- | []] _. reflexivity.
  - constructor; [exact Hbin |].
    apply IH; [symmetry; apply total_quantity_one | |].
    + apply Forall_app in Hpos as [_ Hpos]. exact Hpos.
    + intros x [<- | []] _. reflexivity.
  - apply IH.
    + rewrite total_quantity_app, total_quantity_one. lia.
    + rewrite <- app_assoc. exact Hpos.
    + intros x Hx Hbig. exfalso.
      apply Forall_app in Hpos as [Hposb Hposr].
      inversion Hposr as [|? ? Hr _]; subst.
      pose proof (Hsum _ Hposb) as Hb.
      apply in_app_iff in Hx as [Hx | [<- | []]]; [| lia].
      rewrite (Hbin x Hx Hbig), total_quantity_one in Hle. lia.
Qed.

(* ================================================================== *)
(** * [assign_cutoffs]: numbering                                       *)
(* ================================================================== *)

Lemma configured_lookup form_type :
  configured form_type ->
  FORM_CAPACITY settings form_type = Ok (capacity_of form_type)
  /\ CUTOFF_TYPES settings form_type = Ok (cutoff_type_of form_type).
Proof.
  unfold capacity_of, cutoff_type_of.
  intros [-> | [-> | ->]]; split; reflexivity.
Qed.

Lemma unconfigured_lookup form_type :
  ~ configured form_type ->
  FORM_CAPACITY settings form_type = Raise (KeyErrorForm form_type).
Proof.
  unfold configured, FORM_CAPACITY, lookup_123. intros H.
  destruct (Z.eqb_spec form_type 1); [tauto |].
  destruct (Z.eqb_spec form_type 2); [tauto |].
  destruct (Z.eqb_spec form_type 3); [tauto |].
  reflexivity.
Qed.

Lemma configured_dec form_type : {configured form_type} + {~ configured form_type}.
Proof.
  unfold configured.
  destruct (Z.eq_dec form_type 1); [left; tauto |].
  destruct (Z.eq_dec form_type 2); [left; tauto |].
  destruct (Z.eq_dec form_type 3); [left; tauto | right; tauto].
Qed.

Lemma pack_not_nil capacity group :
  Forall (fun b => b <> []) (pack capacity group).
Proof.
  destruct (first_fit_bins _ _ _ _ _ (pack_first_fit capacity group))
    as [_ H]; [reflexivity | cbn [length]; lia |].
  eapply Forall_impl; [| exact H]. cbn beta. tauto.
Qed.

Lemma concat_pack capacity group : concat (pack capacity group) = group.
Proof.
  destruct (first_fit_bins _ _ _ _ _ (pack_first_fit capacity group))
    as [H _]; [reflexivity | cbn [length]; lia | exact H].
Qed.

Lemma numbered_app tagged tagged' : forall counter,
  numbered counter (tagged ++ tagged') =
  numbered counter tagged
  ++ numbered (counter + Z.of_nat (length tagged)) tagged'.
Proof.
  induction tagged as [|[ct sg] tagged IH]; intros counter.
  - cbn [app numbered length]. rewrite Z.add_0_r. reflexivity.
  - cbn [app numbered length]. rewrite IH. do 3 f_equal. lia.
Qed.

Lemma emit_numbered cutoff_type subgroups : forall new_rows counter,
  Forall (fun b => b <> []) subgroups ->
  emit cutoff_type subgroups (new_rows, counter) =
  Ok (new_rows ++ concat (numbered counter (map (pair cutoff_type) subgroups)),
      counter + Z.of_nat (length subgroups)).
Proof.
  induction subgroups as [|sg subgroups IH]; intros new_rows counter Hne.
  - cbn. rewrite app_nil_r, Z.add_0_r. reflexivity.
  - inversion Hne as [|? ? Hsg Hne']; subst.
    cbn [emit map numbered concat length fst snd].
    destruct sg as [|r sg]; [congruence |].
    cbn [max_length_idx bind]. rewrite IH by exact Hne'.
    rewrite <- app_assoc. do 2 f_equal. lia.
Qed.

Lemma for_groups_numbered cols groups : forall new_rows counter,
  has_column cols ColQuantity = true ->
  Forall (fun g => configured (fst (fst g))) groups ->
  for_groups cols groups (new_rows, counter) =
  Ok (new_rows ++ concat (numbered counter (tagged_bins groups)),
      counter + Z.of_nat (length (tagged_bins groups))).
Proof.
  intros new_rows counter Hq. revert new_rows counter.
  induction groups as [|g groups IH]; intros new_rows counter Hc.
  - cbn. rewrite app_nil_r, Z.add_0_r. reflexivity.
  - inversion Hc as [|? ? Hg Hc']; subst.
    destruct (configured_lookup _ Hg) as [Hcap Hct].
    cbn [for_groups]. unfold assign_group.
    rewrite Hcap, Hct. cbn [bind require_columns]. rewrite Hq.
    rewrite emit_numbered by apply pack_not_nil. cbn [bind].
    rewrite IH by exact Hc'.
    cbn [tagged_bins flat_map]. fold (tagged_bins groups).
    rewrite numbered_app, concat_app, length_app, length_map.
    rewrite <- app_assoc. do 2 f_equal. lia.
Qed.

Lemma for_groups_unconfigured cols groups : forall st,
  Exists (fun g => ~ configured (fst (fst g))) groups ->
  exists e, for_groups cols groups st = Raise e.
Proof.
  induction groups as [|g groups IH]; intros st H;
    [inversion H |].
  cbn [for_groups].
  destruct (assign_group cols st g) as [st' | e] eqn:Hg;
    [| exists e; reflexivity].
  cbn [bind]. apply IH.
  inversion H as [? ? Hbad | ? ? Hrest]; subst; [| exact Hrest].
  exfalso. unfold assign_group in Hg.
  rewrite (unconfigured_lookup _ Hbad) in Hg. discriminate Hg.
Qed.

(* ================================================================== *)
(** * [assign_cutoffs]: the rows of the result                          *)
(* ================================================================== *)

Lemma map_snd_combine_seq {A} (l : list A) : forall start,
  map snd (combine (seq start (length l)) l) = l.
Proof.
  induction l as [|x l IH]; intros start; [reflexivity |].
  cbn [length seq combine map snd]. rewrite IH. reflexivity.
Qed.

Lemma base_mark_rows cutoff_type counter idx subgroup :
  map base (mark_rows cutoff_type counter idx subgroup) = subgroup.
Proof.
  unfold mark_rows, enumerate. rewrite map_map. cbn [base].
  apply map_snd_combine_seq.
Qed.

Lemma Cutoff_mark_rows cutoff_type counter idx subgroup :
  Forall (fun r => Cutoff r = counter)
         (mark_rows cutoff_type counter idx subgroup).
Proof.
  unfold mark_rows. apply Forall_forall. intros r Hr.
  apply in_map_iff in Hr as (ir & <- & _). reflexivity.
Qed.

Lemma mark_rows_not_nil cutoff_type counter idx subgroup :
  subgroup <> [] -> mark_rows cutoff_type counter idx subgroup <> [].
Proof.
  intros Hne H. apply (f_equal (map base)) in H.
  rewrite base_mark_rows in H. exact (Hne H).
Qed.

Lemma cutoffs_of_cons r rs :
  exists bin bins, cutoffs_of (r :: rs) = (r :: bin) :: bins.
Proof.
  cbn [cutoffs_of]. destruct (cutoffs_of rs) as [|[|r' bin] bins].
  - exists [], []. reflexivity.
  - exists [], []. reflexivity.
  - destruct (Cutoff r =? Cutoff r'); eexists _, _; reflexivity.
Qed.

Lemma cutoffs_of_run c bin : forall rs,
  bin <> [] ->
  Forall (fun r => Cutoff r = c) bin ->
  match rs with [] => True | r :: _ => Cutoff r <> c end ->
  cutoffs_of (bin ++ rs) = bin :: cutoffs_of rs.
Proof.
  induction bin as [|x bin IH]; intros rs Hne Hc Hrs; [congruence |].
  inversion Hc as [|? ? Hx Hc']; subst.
  destruct bin as [|y bin].
  - cbn [app]. destruct rs as [|r rs]; [reflexivity |].
    destruct (cutoffs_of_cons r rs) as (b & bs & E).
    cbn [cutoffs_of] in *. rewrite E.
    destruct (Z.eqb_spec (Cutoff x) (Cutoff r)); [congruence | reflexivity].
  - specialize (IH rs ltac:(discriminate) Hc' Hrs).
    change ((x :: y :: bin) ++ rs) with (x :: ((y :: bin) ++ rs)).
    cbn [cutoffs_of]. rewrite IH.
    inversion Hc' as [|? ? Hy _]; subst.
    rewrite Hy, Z.eqb_refl. reflexivity.
Qed.

Lemma numbered_ids tagged : forall counter r,
  In r (concat (numbered counter tagged)) -> counter <= Cutoff r.
Proof.
  induction tagged as [|[ct sg] tagged IH]; intros counter r H;
    [destruct H |].
  cbn [numbered concat] in H. apply in_app_iff in H as [H | H].
  - pose proof (Cutoff_mark_rows ct counter (longest_idx sg) sg) as Hc.
    rewrite Forall_forall in Hc. rewrite (Hc r H). lia.
  - apply IH in H. lia.
Qed.

(** The cutoffs of the rows are the marked subgroups. *)
Lemma cutoffs_of_numbered tagged : forall counter,
  Forall (fun t => snd t <> []) tagged ->
  cutoffs_of (concat (numbered counter tagged)) = numbered counter tagged.
Proof.
  induction tagged as [|[ct sg] tagged IH]; intros counter Hne;
    [reflexivity |].
  inversion Hne as [|? ? Hsg Hne']; subst. cbn [snd] in Hsg.
  cbn [numbered concat].
  rewrite (cutoffs_of_run counter).
  - rewrite IH by exact Hne'. reflexivity.
  - apply mark_rows_not_nil. exact Hsg.
  - apply Cutoff_mark_rows.
  - destruct (concat (numbered (counter + 1) tagged)) as [|r rs] eqn:E;
      [exact I |].
    pose proof (numbered_ids tagged (counter + 1) r) as H.
    rewrite E in H. specialize (H (or_introl eq_refl)). lia.
Qed.

Lemma tagged_bins_not_nil groups :
  Forall (fun t => snd t <> []) (tagged_bins groups).
Proof.
  unfold tagged_bins. apply Forall_forall. intros [ct sg] H.
  apply in_flat_map in H as (g & _ & H).
  apply in_map_iff in H as (b & E & Hb). injection E as _ <-.
  pose proof (pack_not_nil (capacity_of (fst (fst g))) (snd g)) as Hne.
  rewrite Forall_forall in Hne. cbn [snd]. apply Hne. exact Hb.
Qed.

Lemma base_numbered tagged : forall counter,
  map (map base) (numbered counter tagged) = map snd tagged.
Proof.
  induction tagged as [|[ct sg] tagged IH]; intros counter; [reflexivity |].
  cbn [numbered map snd]. rewrite base_mark_rows, IH. reflexivity.
Qed.

Lemma groupby_configured rs :
  Forall (fun r => configured (FormType r)) rs ->
  Forall (fun g => configured (fst (fst g))) (groupby rs).
Proof.
  intros H. unfold groupby. apply Forall_forall. intros g Hg.
  apply in_map_iff in Hg as (k & <- & Hk). cbn [fst].
  apply in_group_keys in Hk as (r & Hr & <-).
  rewrite Forall_forall in H. apply (H r Hr).
Qed.


Lemma require_columns_ok cols needed :
  require_columns cols needed = Ok tt <->
  Forall (fun c => has_column cols c = true) needed.
Proof.
  induction needed as [|c needed IH]; cbn [require_columns].
  - split; [constructor | reflexivity].
  - destruct (has_column cols c) eqn:E.
    + rewrite IH. split; [constructor; assumption |].
      intros H. inversion H. assumption.
    + split; [discriminate |]. intros H. inversion H. congruence.
Qed.

(** On a frame that has the columns the function reads and whose form
    types are configured, [assign_cutoffs] returns the marked subgroups
    of all groups, numbered from 1. *)
Lemma assign_cutoffs_rows df :
  require_columns (columns df)
    [ColFormType; ColWidthMm; ColLengthM; ColQuantity] = Ok tt ->
  Forall (fun r => configured (FormType r)) (rows df) ->
  exists out,
    assign_cutoffs df = Ok out
    /\ rows out =
       concat (numbered 1 (tagged_bins (groupby (sort_values (rows df))))).
Proof.
  intros Hcols Hconf. apply require_columns_ok in Hcols.
  inversion Hcols as [|? ? H1 Hcols1]; subst.
  inversion Hcols1 as [|? ? H2 Hcols2]; subst.
  inversion Hcols2 as [|? ? H3 Hcols3]; subst.
  inversion Hcols3 as [|? ? H4 _]; subst.
  unfold assign_cutoffs. cbn [require_columns]. rewrite H1, H2, H3.
  cbn [bind]. rewrite for_groups_numbered.
  - cbn [bind fst]. eexists. split; [reflexivity |].
    cbn [rows]. apply rows_frame_of_records.
  - exact H4.
  - apply groupby_configured.
    rewrite Forall_forall in *. intros r Hr. apply Hconf.
    apply (Permutation_in _ (sort_values_perm (rows df))). exact Hr.
Qed.

Lemma map_snd_tagged_bins groups :
  map snd (tagged_bins groups) =
  concat (map (fun g => pack (capacity_of (fst (fst g))) (snd g)) groups).
Proof.
  unfold tagged_bins. induction groups as [|g groups IH]; [reflexivity |].
  cbn [flat_map map concat]. rewrite map_app, IH. f_equal.
  rewrite map_map. cbn [snd]. apply map_id.
Qed.

Lemma Forall2_map_both {A B C} (P : B -> C -> Prop) (f : A -> B) (g : A -> C) l :
  (forall x, In x l -> P (f x) (g x)) -> Forall2 P (map f l) (map g l).
Proof.
  induction l as [|x l IH]; intros H; cbn [map]; constructor.
  - apply H. left. reflexivity.
  - apply IH. intros y Hy. apply H. right. exact Hy.
Qed.

Lemma in_groupby rs g r :
  In g (groupby rs) -> In r (snd g) -> In r rs /\ group_key r = fst g.
Proof.
  unfold groupby. intros Hg Hr.
  apply in_map_iff in Hg as (k & <- & _). cbn [fst snd] in *.
  apply filter_In in Hr as [Hr Hk]. apply has_key_true in Hk. tauto.
Qed.

(** The cutoffs of the result, on a frame that has the columns of an
    ingested table and whose form types are configured. *)
Lemma cutoffs_of_assign_cutoffs df :
  columns df = ingested_columns ->
  Forall (fun r => configured (FormType r)) (rows df) ->
  exists out,
    assign_cutoffs df = Ok out
    /\ cutoffs_of (rows out) =
       numbered 1 (tagged_bins (groupby (sort_values (rows df)))).
Proof.
  intros Hcols Hconf.
  destruct (assign_cutoffs_rows df) as (out & Hout & Hrows);
    [rewrite Hcols; reflexivity | exact Hconf |].
  exists out. split; [exact Hout |].
  rewrite Hrows. apply cutoffs_of_numbered, tagged_bins_not_nil.
Qed.


(* ================================================================== *)
(** * [assign_cutoffs]: every result                                    *)
(* ================================================================== *)

Lemma for_groups_ok cols groups : forall st st',
  for_groups cols groups st = Ok st' ->
  Forall (fun g => configured (fst (fst g))) groups
  /\ st' = (fst st ++ concat (numbered (snd st) (tagged_bins groups)),
            snd st + Z.of_nat (length (tagged_bins groups))).
Proof.
  induction groups as [|g groups IH]; intros [new_rows counter] st' H.
  - cbn in H. injection H as <-. split; [constructor |].
    cbn. rewrite app_nil_r, Z.add_0_r. reflexivity.
  - assert (configured (fst (fst g)) /\ has_column cols ColQuantity = true)
      as [Hg Hq].
    { cbn [for_groups] in H. unfold assign_group in H.
      destruct (configured_dec (fst (fst g))) as [Hg | Hg];
        [| rewrite (unconfigured_lookup _ Hg) in H; discriminate H].
      split; [exact Hg |].
      destruct (configured_lookup _ Hg) as [Hcap Hct].
      rewrite Hcap, Hct in H. cbn [bind require_columns] in H.
      destruct (has_column cols ColQuantity); [reflexivity | discriminate H]. }
    assert (Forall (fun g => configured (fst (fst g))) groups) as Hgs.
    { cbn [for_groups] in H.
      destruct (assign_group cols (new_rows, counter) g) as [st1 |];
        [| discriminate H].
      cbn [bind] in H. apply (IH _ _ H). }
    split; [constructor; assumption |].
    rewrite for_groups_numbered in H by (assumption || constructor; assumption).
    injection H as <-. reflexivity.
Qed.

(** Every result of [assign_cutoffs]: the form types are configured and
    the cutoffs are the marked subgroups of all groups, numbered from 1. *)
Lemma assign_cutoffs_ok df out :
  assign_cutoffs df = Ok out ->
  Forall (fun r => configured (FormType r)) (rows df)
  /\ rows out =
     concat (numbered 1 (tagged_bins (groupby (sort_values (rows df)))))
  /\ cutoffs_of (rows out) =
     numbered 1 (tagged_bins (groupby (sort_values (rows df)))).
Proof.
  unfold assign_cutoffs. intros H.
  destruct (require_columns (columns df) [ColFormType; ColWidthMm; ColLengthM]);
    [| discriminate H].
  cbn [bind] in H.
  destruct (for_groups (columns df) (groupby (sort_values (rows df))) ([], 1))
    as [st |] eqn:Hst; [| discriminate H].
  cbn [bind] in H. injection H as <-. cbn [rows].
  apply for_groups_ok in Hst as [Hconf ->]. cbn [fst snd app].
  rewrite rows_frame_of_records.
  split; [| split; [reflexivity
                   | apply cutoffs_of_numbered, tagged_bins_not_nil]].
  apply Forall_forall. intros r Hr.
  apply (Permutation_in _ (Permutation_sym (sort_values_perm (rows df)))) in Hr.
  rewrite Forall_forall in Hconf.
  assert (In (group_key r) (group_keys (sort_values (rows df)))) as Hk
    by (apply in_group_keys; exists r; tauto).
  specialize (Hconf (group_key r, filter (has_key (group_key r))
                                         (sort_values (rows df)))).
  apply Hconf. unfold groupby.
  apply (in_map (fun k => (k, filter (has_key k) (sort_values (rows df))))).
  exact Hk.
Qed.

(** The rows of the result are the sorted rows, in their order. *)
Lemma base_rows_assign_cutoffs df out :
  assign_cutoffs df = Ok out ->
  map base (rows out) = sort_values (rows df).
Proof.
  intros H. apply assign_cutoffs_ok in H as (_ & -> & _).
  rewrite concat_map, base_numbered, map_snd_tagged_bins.
  rewrite <- (groupby_concat (sort_values (rows df)))
    at 2 by apply sort_values_keys_sorted.
  generalize (groupby (sort_values (rows df))). intros groups.
  induction groups as [|g groups IH]; [reflexivity |].
  cbn [map concat]. rewrite concat_app, IH, concat_pack. reflexivity.
Qed.

(** A property of all subgroups is a property of all cutoffs. *)
Lemma numbered_Forall (P : list cut_row -> Prop) (Q : Z * list row -> Prop)
  tagged :
  (forall t counter,
      Q t -> P (mark_rows (fst t) counter (longest_idx (snd t)) (snd t))) ->
  Forall Q tagged ->
  forall counter, Forall P (numbered counter tagged).
Proof.
  intros HPQ. induction 1 as [|[ct sg] tagged Ht _ IH]; intros counter;
    cbn [numbered]; constructor; [| apply IH].
  apply (HPQ (ct, sg) counter Ht).
Qed.

Lemma tagged_bins_Forall (Q : Z * list row -> Prop) groups :
  (forall g sg, In g groups ->
                In sg (pack (capacity_of (fst (fst g))) (snd g)) ->
                Q (cutoff_type_of (fst (fst g)), sg)) ->
  Forall Q (tagged_bins groups).
Proof.
  intros H. apply Forall_forall. intros t Ht.
  apply in_flat_map in Ht as (g & Hg & Ht).
  apply in_map_iff in Ht as (sg & <- & Hsg). apply (H g sg Hg Hsg).
Qed.

Lemma in_pack capacity group sg r :
  In sg (pack capacity group) -> In r sg -> In r group.
Proof.
  intros Hsg Hr. rewrite <- (concat_pack capacity group).
  apply in_concat. exists sg. tauto.
Qed.

Lemma singleton_in {A} (l : list A) x : length l = 1%nat -> In x l -> l = [x].
Proof.
  destruct l as [|y [|z l]]; cbn; try discriminate.
  intros _ [-> | []]. reflexivity.
Qed.

Lemma length_mark_rows cutoff_type counter idx subgroup :
  length (mark_rows cutoff_type counter idx subgroup) = length subgroup.
Proof.
  rewrite <- (base_mark_rows cutoff_type counter idx subgroup) at 2.
  rewrite length_map. reflexivity.
Qed.


(** The cutoffs of every result are the first-fit bins of the groups of
    the sorted rows, group after group. *)
Lemma cutoffs_are_group_bins df out :
  assign_cutoffs df = Ok out ->
  exists groups binss,
    grouped (sort_values (rows df)) groups
    /\ bins_of_groups groups binss
    /\ map (map base) (cutoffs_of (rows out)) = concat binss.
Proof.
  intros H. destruct (assign_cutoffs_ok df out H) as (Hconf & _ & ->).
  rewrite base_numbered, map_snd_tagged_bins.
  exists (map snd (groupby (sort_values (rows df)))),
         (map (fun g => pack (capacity_of (fst (fst g))) (snd g))
              (groupby (sort_values (rows df)))).
  split; [apply groupby_grouped, sort_values_keys_sorted |].
  split; [| reflexivity].
  apply Forall2_map_both. intros g Hg.
  exists (capacity_of (fst (fst g))). split; [| apply pack_first_fit].
  intros r Hr. destruct (in_groupby _ _ _ Hg Hr) as [Hin Hkey].
  unfold group_key in Hkey. rewrite <- Hkey. cbn [fst].
  apply configured_lookup.
  rewrite Forall_forall in Hconf. apply Hconf.
  apply (Permutation_in _ (sort_values_perm (rows df))). exact Hin.
Qed.

(** C1: on an ingested table whose form types are all configured, the
    cutoff assignment returns a table whose cutoffs are the bins of the
    specified procedure: the records sorted by (form_type ascending,
    width_mm ascending, length_m descending), the sorted sequence cut
    into its (form_type, width_mm) groups without reordering, and each
    group packed by sequential first fit under the capacity of its form
    type. *)
Theorem assign_cutoffs_procedure df :
  columns df = ingested_columns ->
  Forall (fun r => configured (FormType r)) (rows df) ->
  exists out,
    assign_cutoffs df = Ok out
    /\ assigned_by_procedure (rows df) (map (map base) (cutoffs_of (rows out))).
Proof.
  intros Hcols Hconf.
  destruct (cutoffs_of_assign_cutoffs df Hcols Hconf) as (out & Hout & _).
  exists out. split; [exact Hout |].
  destruct (cutoffs_are_group_bins df out Hout) as (groups & binss & Hg & Hb & E).
  exists (sort_values (rows df)), groups, binss.
  split; [symmetry; apply sort_values_perm |].
  split; [apply sort_values_sorted |].
  split; [exact Hg |]. split; [exact Hb | exact E].
Qed.

(** C2: in every output of the cutoff assignment each input record sits
    whole in exactly one cutoff; a cutoff of two or more records sums
    to at most the configured capacity of its form type; a cutoff above
    its capacity consists of a single record whose own quantity is
    above the capacity; and, quantities being non-negative, a record
    above the capacity is alone in its cutoff. *)
Theorem cutoff_capacity df out :
  assign_cutoffs df = Ok out ->
  Permutation (map base (rows out)) (rows df)
  /\ concat (cutoffs_of (rows out)) = rows out
  /\ Forall (within_capacity (rows df)) (cutoffs_of (rows out)).
Proof.
  intros H.
  split; [rewrite (base_rows_assign_cutoffs df out H); apply sort_values_perm |].
  destruct (assign_cutoffs_ok df out H) as (Hconf & Hrows & Hcut).
  split; [rewrite Hcut; symmetry; exact Hrows |].
  rewrite Hcut. clear Hrows Hcut H out.
  apply numbered_Forall
    with (Q := fun t =>
                 exists capacity,
                   (forall r, In r (snd t) ->
                              FORM_CAPACITY settings (FormType r) = Ok capacity)
                   /\ snd t <> []
                   /\ ((2 <= length (snd t))%nat ->
                       total_quantity (snd t) <= capacity)
                   /\ (Forall (fun r => 0 <= Quantity r) (rows df) ->
                       forall r, In r (snd t) -> capacity < Quantity r ->
                                 snd t = [r])).
  - intros [ct sg] counter (capacity & Hcap & Hne & Hsum & Halone).
    cbn [fst snd] in *. unfold within_capacity. exists capacity.
    assert (forall r, In r (mark_rows ct counter (longest_idx sg) sg) ->
                      In (base r) sg) as Hin.
    { intros r Hr. rewrite <- (base_mark_rows ct counter (longest_idx sg) sg).
      apply in_map. exact Hr. }
    rewrite base_mark_rows, length_mark_rows.
    split; [intros r Hr; apply Hcap, Hin, Hr |].
    split; [exact Hsum |].
    split.
    + intros Hbig.
      assert (length sg = 1%nat) as Hlen.
      { destruct sg as [|x [|y sg]]; [congruence | reflexivity |].
        exfalso. cbn [length] in Hsum. lia. }
      destruct (mark_rows ct counter (longest_idx sg) sg) as [|r [|r' bin]] eqn:E;
        try (apply (f_equal (@length cut_row)) in E;
             rewrite length_mark_rows, Hlen in E; discriminate E).
      exists r. split; [reflexivity |].
      apply (f_equal (map base)) in E. rewrite base_mark_rows in E.
      rewrite E in Hbig. cbn [map] in Hbig.
      rewrite total_quantity_one in Hbig. exact Hbig.
    + intros Hpos r Hr Hbig. apply singleton_in; [| exact Hr].
      rewrite length_mark_rows.
      rewrite (Halone Hpos (base r) (Hin r Hr) Hbig). reflexivity.
  - apply tagged_bins_Forall. intros g sg Hg Hsg. cbn [snd].
    exists (capacity_of (fst (fst g))).
    assert (forall r, In r (snd g) ->
                      In r (rows df) /\ FormType r = fst (fst g)) as Hrows.
    { intros r Hr. destruct (in_groupby _ _ _ Hg Hr) as [Hin Hkey]. split.
      - apply (Permutation_in _ (sort_values_perm (rows df))). exact Hin.
      - rewrite <- Hkey. reflexivity. }
    pose proof (pack_first_fit (capacity_of (fst (fst g))) (snd g)) as Hff.
    destruct (first_fit_bins _ _ _ _ _ Hff) as [_ Hbins];
      [reflexivity | cbn [length]; lia |].
    rewrite Forall_forall in Hbins. destruct (Hbins sg Hsg) as [Hne Hsum].
    split; [| split; [exact Hne | split; [exact Hsum |]]].
    + intros r Hr. apply (in_pack _ _ _ _ Hsg) in Hr.
      destruct (Hrows r Hr) as [Hin E]. rewrite E.
      apply configured_lookup. rewrite <- E.
      rewrite Forall_forall in Hconf. apply Hconf. exact Hin.
    + intros Hpos.
      pose proof (first_fit_alone _ _ _ _ _ Hff eq_refl) as Halone.
      cbn [app] in Halone.
      assert (Forall (fun r => 0 <= Quantity r) (snd g)) as Hposg.
      { rewrite Forall_forall in *. intros r Hr. apply Hpos.
        apply (Hrows r Hr). }
      specialize (Halone Hposg (fun r Hr => False_ind _ Hr)).
      rewrite Forall_forall in Halone. apply (Halone sg Hsg).
Qed.

(* ================================================================== *)
(** * [assign_cutoffs]: the reference record of a cutoff                *)
(* ================================================================== *)




Lemma mark_from_others cutoff_type counter idx l : forall start,
  (idx < start)%nat ->
  map (fun ir => {| base := snd ir; Cutoff := counter;
                    CutoffType := if Nat.eqb (fst ir) idx
                                  then 0 else cutoff_type |})
      (combine (seq start (length l)) l)
  = map (fun x => {| base := x; Cutoff := counter;
                     CutoffType := cutoff_type |}) l.
Proof.
  induction l as [|x l IH]; intros start Hlt; [reflexivity |].
  cbn [length seq combine map fst snd].
  destruct (Nat.eqb_spec start idx); [lia |].
  rewrite IH by lia. reflexivity.
Qed.

Lemma mark_from_split cutoff_type counter idx r after : forall before start,
  idx = (start + length before)%nat ->
  map (fun ir => {| base := snd ir; Cutoff := counter;
                    CutoffType := if Nat.eqb (fst ir) idx
                                  then 0 else cutoff_type |})
      (combine (seq start (length (before ++ r :: after)))
               (before ++ r :: after))
  = map (fun x => {| base := x; Cutoff := counter;
                     CutoffType := cutoff_type |}) before
    ++ {| base := r; Cutoff := counter; CutoffType := 0 |}
    :: map (fun x => {| base := x; Cutoff := counter;
                        CutoffType := cutoff_type |}) after.
Proof.
  induction before as [|x before IH]; intros start Hidx.
  - cbn [app length seq combine map fst snd].
    destruct (Nat.eqb_spec start idx); [| cbn [length] in Hidx; lia].
    rewrite mark_from_others by lia. reflexivity.
  - cbn [app length seq combine map fst snd].
    destruct (Nat.eqb_spec start idx); [cbn [length] in Hidx; lia |].
    rewrite <- (IH (S start)) by (cbn [length] in Hidx; lia).
    reflexivity.
Qed.



(* ================================================================== *)
(** * [assign_cutoffs]: the cutoff ids                                  *)
(* ================================================================== *)

Lemma numbered_from tagged : forall k,
  Forall (fun t => snd t <> []) tagged ->
  Forall2 carries_id
          (map Z.of_nat (seq k (length tagged)))
          (numbered (Z.of_nat k) tagged).
Proof.
  induction tagged as [|[ct sg] tagged IH]; intros k Hne; [constructor |].
  inversion Hne as [|? ? Hsg Hne']; subst.
  cbn [length seq map numbered]. constructor.
  - split; [apply mark_rows_not_nil; exact Hsg | apply Cutoff_mark_rows].
  - replace (Z.of_nat k + 1) with (Z.of_nat (S k)) by lia.
    apply IH. exact Hne'.
Qed.

(** C4: in every output of the cutoff assignment the cutoffs, in the
    order of the rows, carry the ids 1, 2, ..., N, each id on the rows
    of one cutoff only; the cutoffs are the first-fit bins of the
    groups, the groups taken in ascending order of their keys and the
    bins of a group in the order they are closed. *)
Theorem cutoff_ids_sequential df out :
  assign_cutoffs df = Ok out ->
  exists groups binss,
    grouped (sort_values (rows df)) groups
    /\ bins_of_groups groups binss
    /\ map (map base) (cutoffs_of (rows out)) = concat binss
    /\ concat (cutoffs_of (rows out)) = rows out
    /\ Forall2 carries_id (ids_up_to (length (concat binss)))
               (cutoffs_of (rows out)).
Proof.
  intros H.
  destruct (cutoffs_are_group_bins df out H) as (groups & binss & Hg & Hb & E).
  exists groups, binss.
  split; [exact Hg |]. split; [exact Hb |]. split; [exact E |].
  destruct (assign_cutoffs_ok df out H) as (_ & Hrows & Hcut).
  split; [rewrite Hcut; symmetry; exact Hrows |].
  rewrite <- E, length_map, Hcut.
  replace (length (numbered 1 (tagged_bins (groupby (sort_values (rows df))))))
    with (length (tagged_bins (groupby (sort_values (rows df))))).
  - apply (numbered_from _ 1), tagged_bins_not_nil.
  - rewrite <- (length_map snd), <- (base_numbered _ 1), length_map.
    reflexivity.
Qed.

(* ================================================================== *)
(** * [process_file]                                                    *)
(* ================================================================== *)

Lemma split_ws_spaces content :
  Forall (fun c => is_space c = true) content -> split_ws content = [].
Proof. intros H. unfold split_ws. rewrite split_ws_from_spaces; auto. Qed.

Lemma parse_txt_file_no_items content :
  split_ws content = [] ->
  parse_txt_file content = Ok {| columns := []; rows := [] |}.
Proof.
  intros H. unfold parse_txt_file, parse_txt_file_traced.
  rewrite items_of_split_ws, H. reflexivity.
Qed.

(** C10: on a text without tokens, token-list ingestion returns a table
    with no rows and no columns, the cutoff assignment raises
    [KeyError] on the first sort column, and the whole call raises that
    error. *)
Theorem process_file_no_tokens sheet content :
  Forall (fun c => is_space c = true) content ->
  parse_txt_file content = Ok {| columns := []; rows := [] |}
  /\ assign_cutoffs {| columns := []; rows := [] |} = Raise (KeyError ColFormType)
  /\ process_file sheet (lit ".txt") (Some content)
     = Raise (KeyError ColFormType).
Proof.
  intros H. apply split_ws_spaces, parse_txt_file_no_items in H.
  split; [exact H |]. split; [reflexivity |].
  unfold process_file.
  destruct (str_eq_dec (lit ".txt") (lit ".txt")); [| congruence].
  rewrite H. reflexivity.
Qed.






(* ------------------------------------------------------------------ *)
(** ** Tabular ingestion                                                *)
(* ------------------------------------------------------------------ *)








(* ------------------------------------------------------------------ *)
(** ** When a batch aborts                                              *)
(* ------------------------------------------------------------------ *)







(* ------------------------------------------------------------------ *)
(** ** The derived columns                                              *)
(* ------------------------------------------------------------------ *)

Lemma calculate_derived_columns_rows df df' :
  calculate_derived_columns df = Ok df' -> rows df' = map derive (rows df).
Proof.
  unfold calculate_derived_columns. intros H.
  destruct (require_columns (columns df) [ColWidthM; ColLengthM]);
    [| discriminate H].
  cbn [bind] in H.
  destruct (require_columns (set_column (columns df) ColUnroll)
              [ColUnroll; ColQuantity]); [| discriminate H].
  cbn [bind] in H.
  destruct (require_columns
              (set_column (set_column (columns df) ColUnroll) ColTotalArea)
              [ColLengthM; ColProjectionM; ColQuantity]); [| discriminate H].
  cbn [bind] in H. injection H as <-. reflexivity.
Qed.

Lemma process_file_rows sheet file_extension content out :
  process_file sheet file_extension content = Ok out ->
  columns out = output_columns
  /\ exists df1, rows out = map derive (rows df1).
Proof.
  unfold process_file. intros H.
  match type of H with (bind ?m _ = _) => destruct m as [df |] end;
    [| discriminate H].
  cbn [bind] in H.
  destruct (assign_cutoffs df) as [df1 |]; [| discriminate H].
  cbn [bind] in H.
  destruct (calculate_derived_columns df1) as [df2 |] eqn:Hd;
    [| discriminate H].
  cbn [bind] in H. unfold reorder_columns in H.
  destruct (require_columns (columns df2) output_columns); [| discriminate H].
  cbn [bind] in H. injection H as <-. cbn [columns rows].
  split; [reflexivity |]. exists df1.
  apply calculate_derived_columns_rows. exact Hd.
Qed.

(* ================================================================== *)
(** * More on [parse_item_name]                                         *)
(* ================================================================== *)

(** A group takes no fewer characters than any run after which the
    rest of the pattern matches. *)
Lemma take_group_is_longest cls k : forall s taken grp groups,
  take_group cls k taken s = Some (grp :: groups) ->
  forall g s', token_of cls g -> s = g ++ s' -> k s' <> None ->
               (length taken + length g <= length grp)%nat.
Proof.
  induction s as [|a s IH]; intros taken grp groups H g s' [Hne Hg] E Hk;
    cbn [take_group] in H; [discriminate |].
  destruct g as [|b g]; [congruence |]. injection E as -> ->.
  inversion Hg as [|? ? Hb Hg']; subst. rewrite Hb in H.
  destruct (take_group cls k (b :: taken) (g ++ s')) as [r |] eqn:Hmore.
  - injection H as ->.
    destruct g as [|c g].
    + destruct (take_group_sound _ _ _ _ _ Hmore)
        as (h & s'' & gs & [Hh _] & _ & _ & E).
      injection E as -> _. rewrite length_app. cbn [length rev].
      rewrite length_app, length_rev. cbn [length].
      destruct h; [congruence | cbn [length]; lia].
    + specialize (IH (b :: taken) grp groups Hmore (c :: g) s').
      cbn [length] in *. rewrite <- Nat.add_succ_comm.
      apply IH; [split; [discriminate | assumption] | reflexivity | exact Hk].
  - destruct g as [|c g].
    + cbn [app] in *. destruct (k s') as [gs |]; [| congruence].
      injection H as <- _. cbn [rev]. rewrite length_app, length_rev.
      cbn [length]. lia.
    + exfalso.
      apply (take_group_complete cls k (c :: g) s' (b :: taken));
        [split; [discriminate | assumption] | exact Hk | exact Hmore].
Qed.

Lemma re_match_group cls rest s :
  re_match (Group cls :: rest) s = take_group cls (re_match rest) [] s.
Proof. reflexivity. Qed.

Lemma re_match_lit c rest s :
  re_match (Lit c :: rest) s =
  match s with
  | a :: s' => if (a =? c)%N then re_match rest s' else None
  | [] => None
  end.
Proof. reflexivity. Qed.

(** What a successful match of the identifier pattern consists of. *)
Lemma re_match_item_pattern_inv s groups :
  re_match item_pattern s = Some groups ->
  exists nm w l p f tail,
    groups = [nm; w; l; p; f]
    /\ s = (nm ++ underscore :: w ++ letter_x :: l ++ letter_x :: p
               ++ underscore :: f) ++ tail
    /\ conforms_as (nm ++ underscore :: w ++ letter_x :: l ++ letter_x :: p
                       ++ underscore :: f) nm w l p f
    /\ take_group is_digit (re_match []) [] (f ++ tail) = Some [f]
    /\ take_group is_word
         (re_match [Lit underscore; Group is_digit; Lit letter_x; Group is_digit; Lit letter_x;
                    Group is_digit; Lit underscore; Group is_digit]) [] s
       = Some [nm; w; l; p; f].
Proof.
  unfold item_pattern. intros H. rewrite re_match_group in H.
  pose proof H as H0.
  destruct (take_group_sound _ _ _ _ _ H) as (nm & s1 & g1 & Hnm & -> & H1 & ->).
  rewrite re_match_lit in H1.
  destruct s1 as [|c1 s1]; [discriminate H1 |].
  destruct (N.eqb_spec c1 underscore); [subst c1 | discriminate H1].
  rewrite re_match_group in H1.
  destruct (take_group_sound _ _ _ _ _ H1) as (w & s2 & g2 & Hw & -> & H2 & ->).
  rewrite re_match_lit in H2.
  destruct s2 as [|c2 s2]; [discriminate H2 |].
  destruct (N.eqb_spec c2 letter_x); [subst c2 | discriminate H2].
  rewrite re_match_group in H2.
  destruct (take_group_sound _ _ _ _ _ H2) as (l & s3 & g3 & Hl & -> & H3 & ->).
  rewrite re_match_lit in H3.
  destruct s3 as [|c3 s3]; [discriminate H3 |].
  destruct (N.eqb_spec c3 letter_x); [subst c3 | discriminate H3].
  rewrite re_match_group in H3.
  destruct (take_group_sound _ _ _ _ _ H3) as (p & s4 & g4 & Hp & -> & H4 & ->).
  rewrite re_match_lit in H4.
  destruct s4 as [|c4 s4]; [discriminate H4 |].
  destruct (N.eqb_spec c4 underscore); [subst c4 | discriminate H4].
  rewrite re_match_group in H4.
  pose proof H4 as H4'.
  destruct (take_group_sound _ _ _ _ _ H4) as (f & tail & g5 & Hf & -> & H5 & E).
  cbn [re_match] in H5. injection H5 as <-. cbn [rev app] in *. subst g4.
  exists nm, w, l, p, f, tail.
  split; [reflexivity |].
  split; [repeat (rewrite <- app_assoc; cbn [app]); reflexivity |].
  split; [split; [reflexivity | tauto] |].
  split; [exact H4' | exact H0].
Qed.

(** X1: when the parser returns fields, the identifier is a conforming
    identifier followed by some text; the name is returned verbatim,
    the four numbers are the values of their numerals, none of more
    than 4300 digits, and are not negative; and the form type takes
    every digit that follows its underscore. *)
Theorem parse_item_name_reads_prefix s spec :
  parse_item_name s = Ok spec ->
  exists w l p f tail,
    s = (name spec ++ underscore :: w ++ letter_x :: l ++ letter_x :: p
                   ++ underscore :: f) ++ tail
    /\ token_of is_word (name spec)
    /\ token_of is_digit w /\ token_of is_digit l
    /\ token_of is_digit p /\ token_of is_digit f
    /\ Forall (fun d => (length d <= int_max_str_digits)%nat) [w; l; p; f]
    /\ spec_width_mm spec = int_from 0 w /\ spec_length_mm spec = int_from 0 l
    /\ projection_mm spec = int_from 0 p /\ spec_form_type spec = int_from 0 f
    /\ 0 <= spec_width_mm spec /\ 0 <= spec_length_mm spec
    /\ 0 <= projection_mm spec /\ 0 <= spec_form_type spec
    /\ (forall c tail', tail = c :: tail' -> is_digit c = false).
Proof.
  unfold parse_item_name. intros H.
  destruct (re_match item_pattern s) as [groups |] eqn:Hm; [| discriminate H].
  destruct (re_match_item_pattern_inv s groups Hm)
    as (nm & w & l & p & f & tail & -> & Hs & Hc & Hlast & _).
  destruct (int w) as [wv |] eqn:Ew; [| discriminate H].
  destruct (int l) as [lv |] eqn:El; [| discriminate H].
  destruct (int p) as [pv |] eqn:Ep; [| discriminate H].
  destruct (int f) as [fv |] eqn:Ef; [| discriminate H].
  cbn [bind] in H. injection H as <-.
  cbn [name spec_width_mm spec_length_mm projection_mm spec_form_type].
  apply int_ok in Ew as (-> & Lw & Nw), El as (-> & Ll & Nl),
      Ep as (-> & Lp & Np), Ef as (-> & Lf & Nf).
  destruct Hc as (_ & Hnm & Hw & Hl & Hp & Hf).
  exists w, l, p, f, tail.
  do 6 (split; [assumption |]).
  split; [repeat (apply Forall_cons; [assumption |]); apply Forall_nil |].
  do 4 (split; [reflexivity |]).
  do 4 (split; [assumption |]).
  intros c tail' -> .
  destruct (is_digit c) eqn:Hd; [exfalso | reflexivity].
  assert (token_of is_digit (f ++ [c])) as Hfc.
  { split; [destruct f; discriminate |].
    apply Forall_app. split; [apply Hf | repeat constructor; exact Hd]. }
  pose proof (take_group_is_longest is_digit (re_match []) _ [] f [] Hlast
                (f ++ [c]) tail' Hfc) as Hlen.
  rewrite <- app_assoc in Hlen. specialize (Hlen eq_refl).
  cbn [re_match] in Hlen. specialize (Hlen ltac:(discriminate)).
  rewrite length_app in Hlen. cbn [length] in Hlen. lia.
Qed.

Lemma int_limit_message_head digits :
  hd 0%N (int_limit_message digits) = 69%N.
Proof.
  unfold int_limit_message.
  generalize (str_of_int (Z.of_nat digits)
                ++ lit " digits; use sys.set_int_max_str_digits() to increase the limit").
  intros rest. vm_compute. reflexivity.
Qed.

Lemma bad_format_message_head s : hd 0%N (bad_format_message s) = 1053%N.
Proof. unfold bad_format_message. vm_compute. reflexivity. Qed.

(** X2: the parser raises the [ValueError] whose message names the
    identifier exactly on the identifiers that do not start with a
    conforming identifier. *)
Theorem parse_item_name_rejects s :
  (forall t tail, s = t ++ tail -> ~ conforms t)
  <-> parse_item_name s = Raise (ValueError (bad_format_message s)).
Proof.
  rewrite <- re_match_prefix. split.
  - intros Hn. unfold parse_item_name. rewrite Hn. reflexivity.
  - intros H.
    destruct (parse_item_name_raises s _ H)
      as [[Hn _] | (nm & w & l & p & f & digits & _ & _ & _ & E)];
      [exact Hn |].
    exfalso.
    apply (f_equal (fun e => match e with
                             | ValueError msg => hd 0%N msg
                             | _ => 0%N
                             end)) in E.
    rewrite bad_format_message_head, int_limit_message_head in E.
    discriminate E.
Qed.

(** X3: of all the ways to read a conforming identifier at the start of the
    text, the parser takes one with the longest name. *)
Theorem parse_item_name_longest_name s spec t tail nm w l p f :
  parse_item_name s = Ok spec ->
  s = t ++ tail -> conforms_as t nm w l p f ->
  (length nm <= length (name spec))%nat.
Proof.
  intros H Hs Hc.
  apply parse_item_name_ok in H
    as (nm' & w' & l' & p' & f' & tail' & Hm & _ & _ & -> & _).
  destruct (re_match_item_pattern_inv s _ Hm)
    as (nm2 & w2 & l2 & p2 & f2 & tail2 & E & _ & _ & _ & Hname).
  injection E as <- <- <- <- <-.
  destruct Hc as (-> & Hnm & Hw & Hl & Hp & Hf).
  apply (take_group_is_longest is_word _ s [] nm' _ Hname nm
           ((underscore :: w ++ letter_x :: l ++ letter_x :: p
               ++ underscore :: f) ++ tail) Hnm).
  - rewrite Hs. repeat (rewrite <- app_assoc; cbn [app]). reflexivity.
  - apply (re_match_complete _ _ [w; l; p; f] tail). cbn [app].
    repeat (rewrite <- app_assoc; cbn [app]).
    apply matches_lit.
    do 3 (apply matches_group; [assumption |]; apply matches_lit).
    apply matches_group; [assumption |]. apply matches_end.
Qed.

(* ================================================================== *)
(** * More on [parse_txt_file]                                          *)
(* ================================================================== *)

Lemma split_ws_from_tokens s : forall cur,
  Forall (fun c => is_space c = false) cur ->
  Forall (fun t => t <> [] /\ Forall (fun c => is_space c = false) t)
         (split_ws_from cur s).
Proof.
  induction s as [|c s IH]; intros cur Hcur; cbn [split_ws_from].
  - destruct cur as [|a cur]; [constructor |].
    constructor; [| constructor]. split.
    + intros E. apply (f_equal (@length char)) in E.
      rewrite length_rev in E. discriminate E.
    + apply Forall_rev. exact Hcur.
  - destruct (is_space c) eqn:Hc.
    + destruct cur as [|a cur]; [apply IH; constructor |].
      constructor; [| apply IH; constructor]. split.
      * intros E. apply (f_equal (@length char)) in E.
        rewrite length_rev in E. discriminate E.
      * apply Forall_rev. exact Hcur.
    + apply IH. constructor; assumption.
Qed.

(** X4: every token of the text has a character and holds no white
    space. *)
Theorem items_of_tokens content :
  Forall (fun t => t <> [] /\ Forall (fun c => is_space c = false) t)
         (items_of content).
Proof.
  rewrite items_of_split_ws. apply split_ws_from_tokens. constructor.
Qed.

Lemma split_ws_from_app_space a c b : forall cur,
  is_space c = true ->
  split_ws_from cur (a ++ c :: b) = split_ws_from cur a ++ split_ws_from [] b.
Proof.
  induction a as [|x a IH]; intros cur Hc.
  - cbn [app split_ws_from]. rewrite Hc. destruct cur; reflexivity.
  - cbn [app split_ws_from]. destruct (is_space x).
    + rewrite (IH [] Hc). destruct cur; reflexivity.
    + apply IH. exact Hc.
Qed.

(** X5: any white-space character, a line break like a blank, separates
    tokens: the tokens of two texts joined by one are the tokens of the
    first followed by the tokens of the second. *)
Theorem items_of_app a c b :
  is_space c = true ->
  items_of (a ++ c :: b) = items_of a ++ items_of b.
Proof.
  intros Hc. rewrite !items_of_split_ws. unfold split_ws.
  apply split_ws_from_app_space. exact Hc.
Qed.

Lemma sum_occurrences keys items :
  NoDup keys -> (forall t, In t items -> In t keys) ->
  fold_right (fun t acc => occurrences items t + acc) 0 keys
  = Z.of_nat (length items).
Proof.
  intros Hnd. induction items as [|x items IH]; intros Hin.
  - clear Hnd Hin. induction keys as [|k keys IHk]; [reflexivity |].
    cbn [fold_right]. rewrite IHk. reflexivity.
  - assert (forall ks,
               fold_right (fun t acc => occurrences (x :: items) t + acc) 0 ks
               = fold_right (fun t acc => occurrences items t + acc) 0 ks
                 + Z.of_nat (count_occ str_eq_dec ks x)) as Hstep.
    { induction ks as [|k ks IHk]; [reflexivity |].
      cbn [fold_right count_occ]. rewrite IHk. unfold occurrences.
      cbn [count_occ].
      destruct (str_eq_dec x k) as [-> | Hne];
        destruct (str_eq_dec k k) as [_ | Hkk]; try congruence.
      - lia.
      - destruct (str_eq_dec k x); [congruence | lia]. }
    rewrite Hstep, IH by (intros t Ht; apply Hin; right; exact Ht).
    assert (count_occ str_eq_dec keys x = 1%nat) as ->.
    { apply NoDup_count_occ'; [exact Hnd |]. apply Hin. left. reflexivity. }
    cbn [length]. lia.
Qed.

(** X6: in the table token-list ingestion returns, every quantity is at
    least 1 and the quantities add up to the number of tokens of the
    text: no occurrence is lost or counted twice. *)
Theorem parse_txt_file_quantities content df :
  parse_txt_file content = Ok df ->
  Forall (fun r => 1 <= Quantity r) (rows df)
  /\ total_quantity (rows df) = Z.of_nat (length (split_ws content))
  /\ length (rows df) = length (first_occurrences (split_ws content)).
Proof.
  intros H. apply parse_txt_file_ok in H as [_ ->].
  rewrite rows_frame_of_records. split; [| split].
  - apply Forall_forall. intros r Hr.
    apply in_map_iff in Hr as (t & <- & Ht).
    cbn [Quantity record_for make_record].
    apply occurrences_positive, in_first_occurrences, Ht.
  - rewrite <- (sum_occurrences (first_occurrences (split_ws content))
                  (split_ws content)).
    + unfold total_quantity.
      induction (first_occurrences (split_ws content)) as [|t ts IH];
        [reflexivity |].
      cbn [map fold_right Quantity record_for make_record]. rewrite IH.
      reflexivity.
    + apply NoDup_first_occurrences.
    + intros t Ht. apply in_first_occurrences. exact Ht.
  - apply length_map.
Qed.

(* ================================================================== *)
(** * More on [parse_xlsx_file]                                         *)
(* ================================================================== *)




(* ================================================================== *)
(** * More on [assign_cutoffs]                                          *)
(* ================================================================== *)

Lemma insert_sorted_filter {A} (le : A -> A -> bool) (p : A -> bool) x l :
  (p x = true -> forall y, In y l -> p y = true -> le x y = true) ->
  filter p (insert_sorted le x l) = filter p (x :: l).
Proof.
  induction l as [|y l IH]; intros H; cbn [insert_sorted]; [reflexivity |].
  destruct (le x y) eqn:E; [reflexivity |].
  cbn [filter]. rewrite IH.
  - cbn [filter]. destruct (p x) eqn:Hx; [| reflexivity].
    destruct (p y) eqn:Hy; [| reflexivity].
    rewrite (H eq_refl y (or_introl eq_refl) Hy) in E. discriminate E.
  - intros Hx z Hz. apply H; [exact Hx | right; exact Hz].
Qed.

(** A stable pass does not reorder the elements of a class the
    comparison does not tell apart. *)
Lemma stable_sort_filter {A} (le : A -> A -> bool) (p : A -> bool) l :
  (forall a b, p a = true -> p b = true -> le a b = true) ->
  filter p (stable_sort le l) = filter p l.
Proof.
  intros H. induction l as [|x l IH]; cbn [stable_sort]; [reflexivity |].
  rewrite insert_sorted_filter.
  - cbn [filter]. rewrite IH. reflexivity.
  - intros Hx y _ Hy. apply H; assumption.
Qed.

Lemma same_sort_key_spec x r :
  same_sort_key x r = true <->
  FormType r = FormType x /\ width_mm r = width_mm x
  /\ num_le ops (LengthM r) (LengthM x) = true
  /\ num_le ops (LengthM x) (LengthM r) = true.
Proof.
  unfold same_sort_key. rewrite !andb_true_iff, !Z.eqb_eq. tauto.
Qed.

Lemma sort_values_filter x rs :
  filter (same_sort_key x) (sort_values rs) = filter (same_sort_key x) rs.
Proof.
  unfold sort_values. rewrite !stable_sort_filter; [reflexivity | | |];
    intros a b Ha Hb; apply same_sort_key_spec in Ha, Hb.
  - unfold by_length_desc.
    apply (num_le_trans _ (LengthM x)); tauto.
  - unfold by_width. apply Z.leb_le. lia.
  - unfold by_form. apply Z.leb_le. lia.
Qed.

(** X8: the sort is stable through to the output: the records that
    share a form type, a width and a length leave [assign_cutoffs] in
    the order they had in its input. *)
Theorem assign_cutoffs_stable df out x :
  assign_cutoffs df = Ok out ->
  filter (same_sort_key x) (map base (rows out))
  = filter (same_sort_key x) (rows df).
Proof.
  intros H. rewrite (base_rows_assign_cutoffs df out H).
  apply sort_values_filter.
Qed.

Lemma in_mark_rows cutoff_type counter idx subgroup r :
  In r (mark_rows cutoff_type counter idx subgroup) -> In (base r) subgroup.
Proof.
  intros H. apply (in_map base) in H. rewrite base_mark_rows in H. exact H.
Qed.

(** X9: a cutoff never mixes groups: all its records have one form type
    and one width. *)
Theorem cutoff_one_key df out :
  assign_cutoffs df = Ok out ->
  Forall (fun bin => forall a b, In a bin -> In b bin ->
                                 FormType (base a) = FormType (base b)
                                 /\ width_mm (base a) = width_mm (base b))
         (cutoffs_of (rows out)).
Proof.
  intros H. apply assign_cutoffs_ok in H as (_ & _ & ->).
  apply numbered_Forall
    with (Q := fun t => forall a b, In a (snd t) -> In b (snd t) ->
                                    group_key a = group_key b).
  - intros t counter Ht a b Ha Hb.
    apply in_mark_rows in Ha, Hb.
    pose proof (Ht _ _ Ha Hb) as E. unfold group_key in E.
    injection E as E1 E2. split; assumption.
  - apply tagged_bins_Forall. intros g sg Hg Hsg a b Ha Hb. cbn [snd] in *.
    apply (in_pack _ _ _ _ Hsg) in Ha, Hb.
    apply (in_groupby _ _ _ Hg) in Ha as [_ Ea], Hb as [_ Eb]. congruence.
Qed.

Lemma StronglySorted_filter {A} (R : A -> A -> Prop) (f : A -> bool) l :
  StronglySorted R l -> StronglySorted R (filter f l).
Proof.
  induction 1 as [|x l _ IH Hx]; cbn [filter]; [constructor |].
  destruct (f x); [| exact IH].
  constructor; [exact IH |].
  rewrite Forall_forall in *. intros y Hy. apply filter_In in Hy as [Hy _].
  apply Hx, Hy.
Qed.

Lemma StronglySorted_app_inv {A} (R : A -> A -> Prop) l l' :
  StronglySorted R (l ++ l') -> StronglySorted R l /\ StronglySorted R l'.
Proof.
  induction l as [|x l IH]; cbn [app]; intros H.
  - split; [constructor | exact H].
  - inversion H as [|? ? Hs Hx]; subst.
    destruct (IH Hs) as [H1 H2]. split; [| exact H2].
    constructor; [exact H1 |].
    rewrite Forall_forall in *. intros y Hy. apply Hx, in_or_app. left. exact Hy.
Qed.

Lemma StronglySorted_concat {A} (R : A -> A -> Prop) ls :
  StronglySorted R (concat ls) -> Forall (StronglySorted R) ls.
Proof.
  induction ls as [|l ls IH]; cbn [concat]; intros H; [constructor |].
  apply StronglySorted_app_inv in H as [H1 H2].
  constructor; [exact H1 | apply IH, H2].
Qed.

(** Within a group the rows run from the longest to the shortest. *)
Lemma group_lengths_descend rs g :
  In g (groupby (sort_values rs)) ->
  StronglySorted (fun a b => num_le ops (LengthM b) (LengthM a) = true) (snd g).
Proof.
  intros Hg.
  assert (StronglySorted sorted_before (snd g)) as Hs.
  { unfold groupby in Hg. apply in_map_iff in Hg as (k & <- & _). cbn [snd].
    apply StronglySorted_filter, sort_values_sorted. }
  assert (forall a b, In a (snd g) -> In b (snd g) -> group_key a = group_key b)
    as Hk.
  { intros a b Ha Hb.
    apply (in_groupby _ _ _ Hg) in Ha as [_ Ea], Hb as [_ Eb]. congruence. }
  induction Hs as [|x l _ IH Hx]; [constructor |].
  constructor.
  - apply IH. intros a b Ha Hb. apply Hk; right; assumption.
  - rewrite Forall_forall in *. intros y Hy.
    pose proof (Hk x y (or_introl eq_refl) (or_intror Hy)) as E.
    unfold group_key in E. injection E as E1 E2.
    destruct (Hx y Hy) as [Hlt | [_ [Hlt | [_ Hle]]]]; [lia | lia | exact Hle].
Qed.

Lemma argmax_from_keeps best best_key rest : forall i,
  Forall (fun r => num_le ops (LengthM r) best_key = true) rest ->
  argmax_from best best_key i rest = best.
Proof.
  induction rest as [|r rest IH]; intros i H; cbn [argmax_from];
    [reflexivity |].
  inversion H as [|? ? Hr Hrest]; subst. rewrite Hr. cbn [negb].
  apply IH, Hrest.
Qed.

Lemma mark_rows_first cutoff_type counter r rest :
  mark_rows cutoff_type counter 0 (r :: rest)
  = {| base := r; Cutoff := counter; CutoffType := 0 |}
    :: map (fun x => {| base := x; Cutoff := counter;
                        CutoffType := cutoff_type |}) rest.
Proof.
  unfold mark_rows, enumerate.
  exact (mark_from_split cutoff_type counter 0 r rest [] 0 eq_refl).
Qed.

(** X10: in the output the records of a cutoff run from the longest to
    the shortest, so the record marked with cutoff type 0 is always the
    first record of its cutoff, and every later record carries the
    constant configured for its form type. *)
Theorem cutoff_reference_first df out :
  assign_cutoffs df = Ok out ->
  Forall (fun bin =>
            StronglySorted
              (fun a b => num_le ops (LengthM (base b)) (LengthM (base a)) = true)
              bin
            /\ exists r rest,
                bin = r :: rest
                /\ CutoffType r = 0
                /\ Forall (fun x => CutoffType x
                                    = cutoff_type_of (FormType (base x))) rest)
         (cutoffs_of (rows out)).
Proof.
  intros H. apply assign_cutoffs_ok in H as (_ & _ & ->).
  apply numbered_Forall
    with (Q := fun t =>
                 snd t <> []
                 /\ StronglySorted
                      (fun a b => num_le ops (LengthM b) (LengthM a) = true)
                      (snd t)
                 /\ Forall (fun x => fst t = cutoff_type_of (FormType x))
                           (snd t)).
  - intros [cutoff_type [|r rest]] counter (Hne & Hs & Hc); cbn [fst snd] in *;
      [congruence |].
    inversion Hs as [|? ? Hs' Hr]; subst.
    inversion Hc as [|? ? _ Hc']; subst.
    unfold longest_idx. rewrite (argmax_from_keeps 0%nat _ rest 1%nat Hr).
    rewrite mark_rows_first. split.
    + constructor.
      * clear - Hs'. induction Hs' as [|x l _ IH Hx]; cbn [map]; constructor;
          [exact IH |].
        rewrite Forall_forall in *. intros y Hy.
        apply in_map_iff in Hy as (z & <- & Hz). cbn [base]. apply Hx, Hz.
      * rewrite Forall_forall in *. intros y Hy.
        apply in_map_iff in Hy as (z & <- & Hz). cbn [base]. apply Hr, Hz.
    + eexists _, _. split; [reflexivity |]. split; [reflexivity |].
      rewrite Forall_forall in *. intros y Hy.
      apply in_map_iff in Hy as (z & <- & Hz). cbn [base CutoffType].
      apply Hc', Hz.
  - apply tagged_bins_Forall. intros g sg Hg Hsg. cbn [fst snd].
    split; [| split].
    + pose proof (pack_not_nil (capacity_of (fst (fst g))) (snd g)) as Hp.
      rewrite Forall_forall in Hp. apply Hp, Hsg.
    + pose proof (group_lengths_descend _ _ Hg) as Hs.
      rewrite <- (concat_pack (capacity_of (fst (fst g))) (snd g)) in Hs.
      apply StronglySorted_concat in Hs. rewrite Forall_forall in Hs.
      apply Hs, Hsg.
    + apply Forall_forall. intros x Hx.
      apply (in_pack _ _ _ _ Hsg) in Hx.
      apply (in_groupby _ _ _ Hg) in Hx as [_ E].
      rewrite <- E. reflexivity.
Qed.

(* ------------------------------------------------------------------ *)
(** ** A cutoff is closed only when the next record does not fit        *)
(* ------------------------------------------------------------------ *)

Lemma first_fit_prefix capacity bin total records bins :
  first_fit capacity bin total records bins ->
  bin <> [] -> exists more rest, bins = (bin ++ more) :: rest.
Proof.
  induction 1 as [total | bin total Hne | total r records bins Hgt _ _
                 | bin total r records bins Hne Hgt _ _
                 | bin total r records bins Hle _ IH]; intros Hbin.
  - congruence.
  - exists [], []. rewrite app_nil_r. reflexivity.
  - congruence.
  - exists [], bins. rewrite app_nil_r. reflexivity.
  - destruct IH as (more & rest & ->); [destruct bin; discriminate |].
    exists (r :: more), rest. rewrite <- app_assoc. reflexivity.
Qed.

Lemma first_fit_greedy capacity bin total records bins :
  first_fit capacity bin total records bins ->
  total = total_quantity bin ->
  forall pre b r b' post,
    bins = pre ++ b :: (r :: b') :: post ->
    capacity < total_quantity b + Quantity r.
Proof.
  induction 1 as [total | bin total Hne | total r0 records bins Hgt Hff IH
                 | bin total r0 records bins Hne Hgt Hff IH
                 | bin total r0 records bins Hle Hff IH];
    intros Htot pre b r b' post E.
  - destruct pre; discriminate E.
  - destruct pre as [|? [|? ?]]; discriminate E.
  - apply (IH (eq_sym (total_quantity_one r0)) pre b r b' post E).
  - destruct pre as [|x pre]; cbn [app] in E.
    + injection E as <- E.
      destruct (first_fit_prefix _ _ _ _ _ Hff) as (more & rest & E');
        [discriminate |].
      rewrite E' in E. cbn [app] in E. injection E as <- _ _. lia.
    + injection E as _ E.
      apply (IH (eq_sym (total_quantity_one r0)) pre b r b' post E).
  - apply (IH) with (pre := pre) (b' := b') (post := post); [| exact E].
    rewrite total_quantity_app, total_quantity_one. lia.
Qed.

Lemma pack_greedy capacity group pre b r b' post :
  pack capacity group = pre ++ b :: (r :: b') :: post ->
  capacity < total_quantity b + Quantity r.
Proof.
  intros E.
  apply (first_fit_greedy _ _ _ _ _ (pack_first_fit capacity group) eq_refl
           pre b r b' post E).
Qed.

(** Two neighbours of a concatenation are neighbours in one of the
    lists, or come from two lists, the first before the second. *)
Lemma concat_neighbours {A} (lss : list (list A)) : forall pre b b' post,
  concat lss = pre ++ b :: b' :: post ->
  (exists l1 ls l2 p q, lss = l1 ++ ls :: l2 /\ ls = p ++ b :: b' :: q)
  \/ (exists l1 ls l2 ls' l3,
         lss = l1 ++ ls :: l2 ++ ls' :: l3 /\ In b ls /\ In b' ls').
Proof.
  induction lss as [|ls lss IH]; intros pre b b' post E; cbn [concat] in E.
  - destruct pre; discriminate E.
  - apply app_eq_app in E as (l & [[E1 E2] | [E1 E2]]).
    + destruct l as [|x [|y l]]; cbn [app] in E2.
      * rewrite app_nil_r in E1. subst ls.
        destruct (IH [] b b' post (eq_sym E2))
          as [(l1 & ls & l2 & p & q & -> & ->)
             | (l1 & ls & l2 & ls' & l3 & -> & Hb & Hb')].
        -- left. exists (pre :: l1), (p ++ b :: b' :: q), l2, p, q.
           split; reflexivity.
        -- right. exists (pre :: l1), ls, l2, ls', l3. repeat split; assumption.
      * injection E2 as <- E2. right.
        assert (In b' (concat lss)) as Hb'
          by (rewrite <- E2; left; reflexivity).
        apply in_concat in Hb' as (ls' & Hls' & Hb').
        apply in_split in Hls' as (l2 & l3 & ->).
        exists [], ls, l2, ls', l3. split; [reflexivity |].
        split; [| exact Hb']. rewrite E1. apply in_or_app. right. left.
        reflexivity.
      * injection E2 as <- <- E2. left.
        exists [], ls, lss, pre, l. split; [reflexivity | exact E1].
    + destruct (IH l b b' post E2)
        as [(l1 & ls0 & l2 & p & q & -> & ->)
           | (l1 & ls0 & l2 & ls' & l3 & -> & Hb & Hb')].
      * left. exists (ls :: l1), (p ++ b :: b' :: q), l2, p, q.
        split; reflexivity.
      * right. exists (ls :: l1), ls0, l2, ls', l3. repeat split; assumption.
Qed.

Lemma map_fst_groupby rs : map fst (groupby rs) = group_keys rs.
Proof. unfold groupby. rewrite map_map. cbn [fst]. apply map_id. Qed.

Lemma key_lt_irrefl k : ~ key_lt k k.
Proof. unfold key_lt. lia. Qed.

(** X11: the packing is greedy.  When a cutoff is followed by another
    cutoff of the same form type and width, the first record of the
    second did not fit into the first: together with it the first
    cutoff would exceed the capacity of the form type. *)
Theorem cutoff_closed_when_full df out pre c r c' post x :
  assign_cutoffs df = Ok out ->
  cutoffs_of (rows out) = pre ++ c :: (r :: c') :: post ->
  In x c ->
  FormType (base x) = FormType (base r) ->
  width_mm (base x) = width_mm (base r) ->
  capacity_of (FormType (base r))
  < total_quantity (map base c) + Quantity (base r).
Proof.
  intros H E Hx Hf Hw.
  apply assign_cutoffs_ok in H as (_ & _ & Hc).
  rewrite Hc in E. apply (f_equal (map (map base))) in E.
  rewrite base_numbered, map_snd_tagged_bins in E.
  rewrite map_app in E. cbn [map] in E.
  set (sorted := sort_values (rows df)) in *.
  apply (in_map base) in Hx.
  apply concat_neighbours in E
    as [(l1 & ls & l2 & p & q & E & Els)
       | (l1 & ls & l2 & ls' & l3 & E & Hb & Hb')].
  - apply map_eq_app in E as (G1 & G2 & EG & _ & E).
    apply map_eq_cons in E as (g & G3 & -> & Eg & _).
    assert (In g (groupby sorted)) as Hg
      by (rewrite EG; apply in_or_app; right; left; reflexivity).
    rewrite <- Eg in Els.
    assert (In (base r) (snd g)) as Hr.
    { apply (in_pack (capacity_of (fst (fst g))) (snd g) (base r :: map base c')).
      - rewrite Els. apply in_or_app. right. right. left. reflexivity.
      - left. reflexivity. }
    apply (in_groupby _ _ _ Hg) in Hr as [_ Hr].
    replace (FormType (base r)) with (fst (fst g))
      by (rewrite <- Hr; reflexivity).
    exact (pack_greedy _ _ _ _ _ _ _ Els).
  - exfalso.
    apply map_eq_app in E as (G1 & G2 & EG & _ & E).
    apply map_eq_cons in E as (g & G3 & -> & Eg & E).
    apply map_eq_app in E as (G4 & G5 & -> & _ & E).
    apply map_eq_cons in E as (g' & G6 & -> & Eg' & _).
    pose proof (group_keys_sorted sorted) as Hs.
    rewrite <- map_fst_groupby, EG in Hs.
    rewrite map_app in Hs. apply StronglySorted_app_inv in Hs as [_ Hs].
    cbn [map] in Hs. apply StronglySorted_inv in Hs as [_ Hlt].
    rewrite Forall_forall in Hlt.
    assert (key_lt (fst g) (fst g')) as Hk.
    { apply Hlt. rewrite map_app. apply in_or_app. right. left. reflexivity. }
    assert (In g (groupby sorted)) as Hg
      by (rewrite EG; apply in_or_app; right; left; reflexivity).
    assert (In g' (groupby sorted)) as Hg'.
    { rewrite EG. apply in_or_app. right. right. apply in_or_app. right.
      left. reflexivity. }
    rewrite <- Eg in Hb. rewrite <- Eg' in Hb'.
    apply (in_pack _ _ _ _ Hb) in Hx.
    assert (In (base r) (snd g')) as Hr
      by (apply (in_pack _ _ _ _ Hb'); left; reflexivity).
    apply (in_groupby _ _ _ Hg) in Hx as [_ Ex].
    apply (in_groupby _ _ _ Hg') in Hr as [_ Er].
    rewrite <- Ex, <- Er in Hk. unfold group_key in Hk.
    rewrite Hf, Hw in Hk. exact (key_lt_irrefl _ Hk).
Qed.

(* ------------------------------------------------------------------ *)
(** ** Form types absent from the configuration                         *)
(* ------------------------------------------------------------------ *)

Lemma for_groups_app cols groups groups' : forall st,
  for_groups cols (groups ++ groups') st =
  (st' <- for_groups cols groups st ;; for_groups cols groups' st').
Proof.
  induction groups as [|g groups IH]; intros st; cbn [app for_groups];
    [reflexivity |].
  destruct (assign_group cols st g) as [st' |]; cbn [bind];
    [apply IH | reflexivity].
Qed.

Lemma first_unconfigured (groups : list ((Z * Z) * list row)) :
  Exists (fun g => ~ configured (fst (fst g))) groups ->
  exists pre g post,
    groups = pre ++ g :: post
    /\ Forall (fun g => configured (fst (fst g))) pre
    /\ ~ configured (fst (fst g)).
Proof.
  induction groups as [|g groups IH]; intros H; [inversion H |].
  destruct (configured_dec (fst (fst g))) as [Hc | Hc].
  - destruct IH as (pre & g' & post & -> & Hpre & Hg').
    + inversion H as [? ? Hg | ? ? Hrest]; subst; [contradiction | exact Hrest].
    + exists (g :: pre), g', post. split; [reflexivity |].
      split; [constructor; assumption | exact Hg'].
  - exists [], g, groups. split; [reflexivity |]. split; [constructor | exact Hc].
Qed.

(** X12: on an ingested table that holds a form type absent from the
    configuration, [assign_cutoffs] raises the [KeyError] of the
    smallest such form type, whatever the order of the rows. *)
Theorem assign_cutoffs_unknown_form df :
  columns df = ingested_columns ->
  Exists (fun r => ~ configured (FormType r)) (rows df) ->
  exists form_type,
    assign_cutoffs df = Raise (KeyErrorForm form_type)
    /\ ~ configured form_type
    /\ (exists r, In r (rows df) /\ FormType r = form_type)
    /\ forall r, In r (rows df) -> ~ configured (FormType r) ->
                 form_type <= FormType r.
Proof.
  intros Hcols Hex.
  set (sorted := sort_values (rows df)).
  assert (forall r, In r (rows df) <-> In r sorted) as Hin.
  { intros r. split; apply Permutation_in;
      [apply Permutation_sym |]; apply sort_values_perm. }
  assert (Exists (fun g => ~ configured (fst (fst g))) (groupby sorted)) as Hg.
  { apply Exists_exists in Hex as (r & Hr & Hc). apply Exists_exists.
    exists (group_key r, filter (has_key (group_key r)) sorted).
    split; [| exact Hc].
    unfold groupby. apply in_map_iff. exists (group_key r).
    split; [reflexivity |]. apply in_group_keys. exists r.
    split; [apply Hin, Hr | reflexivity]. }
  apply first_unconfigured in Hg as (pre & g & post & EG & Hpre & Hc).
  exists (fst (fst g)). split; [| split; [exact Hc | split]].
  - unfold assign_cutoffs. rewrite Hcols.
    change (require_columns ingested_columns [ColFormType; ColWidthMm; ColLengthM])
      with (@Ok unit tt).
    cbn [bind]. fold sorted. rewrite EG, for_groups_app.
    rewrite (for_groups_numbered ingested_columns pre [] 1 eq_refl Hpre).
    cbn [bind for_groups]. unfold assign_group.
    rewrite (unconfigured_lookup _ Hc). reflexivity.
  - assert (In (fst g) (group_keys sorted)) as Hk.
    { rewrite <- map_fst_groupby, EG. apply in_map, in_or_app. right. left.
      reflexivity. }
    apply in_group_keys in Hk as (r & Hr & E). exists r.
    split; [apply Hin, Hr | rewrite <- E; reflexivity].
  - intros r Hr Hrc.
    assert (In (group_key r) (group_keys sorted)) as Hk
      by (apply in_group_keys; exists r; split; [apply Hin, Hr | reflexivity]).
    pose proof (group_keys_sorted sorted) as Hs.
    rewrite <- map_fst_groupby, EG, map_app in Hs, Hk.
    cbn [map] in Hs, Hk.
    apply in_app_or in Hk as [Hk | [Hk | Hk]].
    + exfalso. apply in_map_iff in Hk as (g' & E & Hg').
      rewrite Forall_forall in Hpre. apply Hpre in Hg'.
      rewrite E in Hg'. exact (Hrc Hg').
    + rewrite Hk. cbn [group_key fst]. lia.
    + apply StronglySorted_app_inv in Hs as [_ Hs].
      apply StronglySorted_inv in Hs as [_ Hlt].
      rewrite Forall_forall in Hlt. apply Hlt in Hk.
      unfold key_lt, group_key in Hk. cbn [fst snd] in Hk. lia.
Qed.

(* ================================================================== *)
(** * More on [process_file]                                            *)
(* ================================================================== *)




End Calculator.

(* ================================================================== *)
(** * Instances of the theorems                                         *)
(* ================================================================== *)

(* ------------------------------------------------------------------ *)
(** ** The instance with exact arithmetic                               *)
(* ------------------------------------------------------------------ *)

Lemma exact_le_total (a b : num exact) :
  num_le exact a b = true \/ num_le exact b a = true.
Proof.
  cbn [num_le exact]. unfold Qle_bool. rewrite !Z.leb_le. lia.
Qed.

Lemma exact_le_trans (a b c : num exact) :
  num_le exact a b = true -> num_le exact b c = true ->
  num_le exact a c = true.
Proof.
  cbn [num_le exact]. rewrite !Qle_bool_iff. apply Qle_trans.
Qed.

(** A table of five records: four of form type 1 and width 500 with
    quantities 10, 8, 5 and 20 against the capacity 15, and one of form
    type 2. *)
Definition sample_row (nm : string) (quantity width length form : Z)
  : row exact :=
  record_for exact
    {| name := lit nm; spec_width_mm := width; spec_length_mm := length;
       projection_mm := 50; spec_form_type := form |}
    quantity.

Definition sample_frame : DataFrame (row exact) := {|
  columns := ingested_columns;
  rows := [sample_row "a" 10 500 250 1; sample_row "d" 3 400 300 2;
           sample_row "b" 8 500 300 1; sample_row "e" 20 500 200 1;
           sample_row "c" 5 500 300 1]
|}.

(** The table [assign_cutoffs] returns on [sample_frame]. *)
Definition sample_cutoffs : DataFrame (cut_row exact) :=
  match assign_cutoffs exact default_settings sample_frame with
  | Ok out => out
  | Raise _ => {| columns := []; rows := [] |}
  end.


Definition no_sheet : DataFrame (sheet_row exact) :=
  {| columns := []; rows := [] |}.



(** Two records of form type 1 and width 500, the longer with the
    quantity 16, above the capacity 15, the shorter with the quantity
    -5. *)
Definition negative_frame : DataFrame (row exact) := {|
  columns := ingested_columns;
  rows := [sample_row "a" 16 500 300 1; sample_row "b" (-5) 500 250 1]
|}.

Definition negative_cutoffs : DataFrame (cut_row exact) :=
  match assign_cutoffs exact default_settings negative_frame with
  | Ok out => out
  | Raise _ => {| columns := []; rows := [] |}
  end.


(** An identifier whose width has 4301 digits. *)
Definition long_identifier : str :=
  lit "tray_" ++ repeat 49%N 4301 ++ lit "x300x50_1".

Lemma conforms_as_forallb s nm w l p f :
  s = nm ++ underscore :: w ++ letter_x :: l ++ letter_x :: p
         ++ underscore :: f ->
  forallb (fun g => negb (Nat.eqb (length g) 0)) [nm; w; l; p; f]
  && forallb is_word nm && forallb is_digit w && forallb is_digit l
  && forallb is_digit p && forallb is_digit f = true ->
  conforms_as s nm w l p f.
Proof.
  intros E H.
  assert (forall g : str, negb (Nat.eqb (length g) 0) = true -> g <> [])
    as Hne by (intros g Hg ->; discriminate Hg).
  apply andb_true_iff in H as [H Hf]. apply andb_true_iff in H as [H Hp].
  apply andb_true_iff in H as [H Hl]. apply andb_true_iff in H as [H Hw].
  apply andb_true_iff in H as [H Hnm]. cbn [forallb] in H.
  apply andb_true_iff in H as [H1 H]. apply andb_true_iff in H as [H2 H].
  apply andb_true_iff in H as [H3 H]. apply andb_true_iff in H as [H4 H].
  apply andb_true_iff in H as [H5 _].
  split; [exact E |].
  repeat split;
    solve [ apply Hne; assumption
          | apply Forall_forall, forallb_forall; assumption ].
Qed.

(** The first two elements of a list of lists whose second element has
    a head. *)
Lemma first_two {A} (l : list (list A)) (d : A) :
  (2 <=? length l)%nat && negb (Nat.eqb (length (nth 1 l [])) 0) = true ->
  l = [] ++ nth 0 l [] :: (nth 0 (nth 1 l []) d :: tl (nth 1 l []))
           :: skipn 2 l.
Proof.
  destruct l as [|a [|[|b bs] l]]; try discriminate. reflexivity.
Qed.

Lemma ok_value {A} (m : result A) (d : A) :
  is_ok m = true ->
  m = Ok match m with Ok a => a | Raise _ => d end.
Proof. destruct m; [reflexivity | discriminate]. Qed.

Lemma parse_round_trip_witness :
  conforms_as (lit "tray_0500x300x50_1") (lit "tray") (lit "0500") (lit "300")
    (lit "50") (lit "1")
  /\ Forall (fun d => (length d <= int_max_str_digits)%nat)
            [lit "0500"; lit "300"; lit "50"; lit "1"]
  /\ (exists spec,
        parse_item_name (lit "tray_0500x300x50_1") = Ok spec
        /\ name spec = lit "tray"
        /\ int (lit "0500") = Ok (spec_width_mm spec)
        /\ int (lit "300") = Ok (spec_length_mm spec)
        /\ int (lit "50") = Ok (projection_mm spec)
        /\ int (lit "1") = Ok (spec_form_type spec)
        /\ (exists w' l' p' f',
              conforms_as (reconstruct spec) (lit "tray") w' l' p' f'
              /\ int w' = int (lit "0500") /\ int l' = int (lit "300")
              /\ int p' = int (lit "50") /\ int f' = int (lit "1"))
        /\ parse_item_name (reconstruct spec) = Ok spec).
Proof.
  assert (conforms_as (lit "tray_0500x300x50_1") (lit "tray") (lit "0500")
            (lit "300") (lit "50") (lit "1")) as H.
  { apply conforms_as_forallb; vm_compute; reflexivity. }
  assert (Forall (fun d => (length d <= int_max_str_digits)%nat)
            [lit "0500"; lit "300"; lit "50"; lit "1"]) as Hshort.
  { repeat (apply Forall_cons;
            [apply Nat.leb_le; vm_compute; reflexivity |]).
    apply Forall_nil. }
  split; [exact H |]. split; [exact Hshort |].
  exact (proj1 (parse_round_trip (lit "tray_0500x300x50_1") (lit "tray")
                  (lit "0500") (lit "300") (lit "50") (lit "1") H) Hshort).
Defined.

(* ------------------------------------------------------------------ *)
(** ** Witnesses                                                        *)
(* ------------------------------------------------------------------ *)

Lemma sample_frame_configured :
  Forall (fun r => configured (FormType exact r)) (rows sample_frame).
Proof.
  unfold sample_frame, configured. cbn [rows].
  repeat (apply Forall_cons; [cbn; lia |]). apply Forall_nil.
Qed.

Lemma sample_cutoffs_assigned :
  assign_cutoffs exact default_settings sample_frame = Ok sample_cutoffs.
Proof. apply ok_value. vm_compute. reflexivity. Qed.


Lemma assign_cutoffs_procedure_witness :
  columns sample_frame = ingested_columns
  /\ Forall (fun r => configured (FormType exact r)) (rows sample_frame)
  /\ exists out,
       assign_cutoffs exact default_settings sample_frame = Ok out
       /\ assigned_by_procedure exact default_settings (rows sample_frame)
            (map (map (base exact)) (cutoffs_of exact (rows out))).
Proof.
  split; [reflexivity |]. split; [exact sample_frame_configured |].
  exact (assign_cutoffs_procedure exact default_settings exact_le_total
           exact_le_trans sample_frame eq_refl sample_frame_configured).
Defined.

Lemma cutoff_capacity_witness :
  assign_cutoffs exact default_settings sample_frame = Ok sample_cutoffs
  /\ Permutation (map (base exact) (rows sample_cutoffs)) (rows sample_frame)
  /\ concat (cutoffs_of exact (rows sample_cutoffs)) = rows sample_cutoffs
  /\ Forall (within_capacity exact default_settings (rows sample_frame))
            (cutoffs_of exact (rows sample_cutoffs)).
Proof.
  split; [exact sample_cutoffs_assigned |].
  exact (cutoff_capacity exact default_settings sample_frame sample_cutoffs
           sample_cutoffs_assigned).
Defined.


Lemma cutoff_ids_sequential_witness :
  assign_cutoffs exact default_settings sample_frame = Ok sample_cutoffs
  /\ exists groups binss,
       grouped exact (sort_values exact (rows sample_frame)) groups
       /\ bins_of_groups exact default_settings groups binss
       /\ map (map (base exact)) (cutoffs_of exact (rows sample_cutoffs))
          = concat binss
       /\ concat (cutoffs_of exact (rows sample_cutoffs)) = rows sample_cutoffs
       /\ Forall2 (carries_id exact) (ids_up_to (length (concat binss)))
                  (cutoffs_of exact (rows sample_cutoffs)).
Proof.
  split; [exact sample_cutoffs_assigned |].
  exact (cutoff_ids_sequential exact default_settings sample_frame
           sample_cutoffs sample_cutoffs_assigned).
Defined.

Lemma process_file_no_tokens_witness :
  Forall (fun c => is_space c = true) (lit "  ")
  /\ parse_txt_file exact (lit "  ") = Ok {| columns := []; rows := [] |}
  /\ assign_cutoffs exact default_settings {| columns := []; rows := [] |}
     = Raise (KeyError ColFormType)
  /\ process_file exact default_settings no_sheet (lit ".txt")
       (Some (lit "  "))
     = Raise (KeyError ColFormType).
Proof.
  assert (Forall (fun c => is_space c = true) (lit "  ")) as H
    by (repeat constructor).
  split; [exact H |].
  exact (process_file_no_tokens exact default_settings no_sheet (lit "  ") H).
Defined.

(* ------------------------------------------------------------------ *)
(** ** Counterexamples                                                  *)
(* ------------------------------------------------------------------ *)


(** C2 as stated fails when a quantity is negative: on the capacity 15
    the record with the quantity 16 opens a cutoff, and the record with
    the quantity -5 joins it, the total being 11. *)
Lemma negative_cutoffs_assigned :
  assign_cutoffs exact default_settings negative_frame = Ok negative_cutoffs.
Proof. apply ok_value. vm_compute. reflexivity. Qed.

Lemma over_capacity_record_not_alone :
  ~ (forall df out,
        assign_cutoffs exact default_settings df = Ok out ->
        Forall (fun bin =>
                  forall r, In r bin ->
                            capacity_of default_settings
                              (FormType exact (base exact r))
                            < Quantity exact (base exact r) ->
                            bin = [r])
               (cutoffs_of exact (rows out))).
Proof.
  intros H.
  specialize (H negative_frame negative_cutoffs negative_cutoffs_assigned).
  rewrite Forall_forall in H.
  set (bins := cutoffs_of exact (rows negative_cutoffs)) in *.
  set (bin := nth 0 bins []).
  set (r := nth 0 bin {| base := sample_row "a" 16 500 300 1; Cutoff := 0;
                         CutoffType := 0 |}).
  assert (In bin bins) as Hbin
    by (apply nth_In, Nat.ltb_lt; vm_compute; reflexivity).
  assert (In r bin) as Hr
    by (apply nth_In, Nat.ltb_lt; vm_compute; reflexivity).
  assert (capacity_of default_settings (FormType exact (base exact r))
          < Quantity exact (base exact r)) as Hq
    by (apply Z.ltb_lt; vm_compute; reflexivity).
  assert (Nat.eqb (length bin) 2 = true) as Hlen by (vm_compute; reflexivity).
  rewrite (H bin Hbin r Hr Hq) in Hlen. discriminate Hlen.
Qed.


(** C8 as stated fails on an identifier that matches the grammar with a
    numeral of 4301 digits: the parser raises the [ValueError] of
    [int]. *)
Lemma long_numeral_not_parsed :
  conforms long_identifier
  /\ parse_item_name long_identifier
     = Raise (ValueError (int_limit_message 4301)).
Proof.
  split.
  - exists (lit "tray"), (repeat 49%N 4301), (lit "300"), (lit "50"), (lit "1").
    apply conforms_as_forallb; vm_compute; reflexivity.
  - vm_compute. reflexivity.
Qed.

(* ------------------------------------------------------------------ *)
(** ** Instances of the further properties                              *)
(* ------------------------------------------------------------------ *)

(** The table token-list ingestion returns on [sample_text]. *)
Definition sample_ingested : DataFrame (row exact) :=
  match parse_txt_file exact sample_text with
  | Ok df => df
  | Raise _ => {| columns := []; rows := [] |}
  end.



(** A table with the form types 7, 4 and 1, of which only 1 is
    configured. *)
Definition unknown_forms_frame : DataFrame (row exact) := {|
  columns := ingested_columns;
  rows := [sample_row "a" 1 500 300 7; sample_row "b" 1 500 300 4;
           sample_row "c" 1 500 300 1]
|}.

(** The cutoffs of [sample_cutoffs]: the first holds the records b and
    c, the second the record a of the same form type and width. *)
Definition sample_bins : list (list (cut_row exact)) :=
  cutoffs_of exact (rows sample_cutoffs).

Definition first_bin : list (cut_row exact) := nth 0 sample_bins [].

Definition second_bin : list (cut_row exact) := nth 1 sample_bins [].

Definition any_cut_row : cut_row exact :=
  {| base := sample_row "a" 10 500 250 1; Cutoff := 0; CutoffType := 0 |}.

Lemma parse_item_name_reads_prefix_witness :
  parse_item_name (lit "tray_500x300x50_1zz")
  = Ok {| name := lit "tray"; spec_width_mm := 500; spec_length_mm := 300;
          projection_mm := 50; spec_form_type := 1 |}
  /\ exists w l p f tail,
       lit "tray_500x300x50_1zz"
       = (lit "tray" ++ underscore :: w ++ letter_x :: l ++ letter_x :: p
            ++ underscore :: f) ++ tail
       /\ token_of is_word (lit "tray")
       /\ token_of is_digit w /\ token_of is_digit l
       /\ token_of is_digit p /\ token_of is_digit f
       /\ Forall (fun d => (length d <= int_max_str_digits)%nat) [w; l; p; f]
       /\ 500 = int_from 0 w /\ 300 = int_from 0 l
       /\ 50 = int_from 0 p /\ 1 = int_from 0 f
       /\ 0 <= 500 /\ 0 <= 300 /\ 0 <= 50 /\ 0 <= 1
       /\ (forall c tail', tail = c :: tail' -> is_digit c = false).
Proof.
  assert (parse_item_name (lit "tray_500x300x50_1zz")
          = Ok {| name := lit "tray"; spec_width_mm := 500;
                  spec_length_mm := 300; projection_mm := 50;
                  spec_form_type := 1 |}) as H by (vm_compute; reflexivity).
  split; [exact H |].
  exact (parse_item_name_reads_prefix _ _ H).
Defined.

Lemma parse_item_name_longest_name_witness :
  parse_item_name (lit "a_1x2x3_4_5x6x7_8")
  = Ok {| name := lit "a_1x2x3_4"; spec_width_mm := 5; spec_length_mm := 6;
          projection_mm := 7; spec_form_type := 8 |}
  /\ conforms_as (lit "a_1x2x3_4") (lit "a") (lit "1") (lit "2") (lit "3")
       (lit "4")
  /\ (length (lit "a") <= length (lit "a_1x2x3_4"))%nat.
Proof.
  assert (parse_item_name (lit "a_1x2x3_4_5x6x7_8")
          = Ok {| name := lit "a_1x2x3_4"; spec_width_mm := 5;
                  spec_length_mm := 6; projection_mm := 7;
                  spec_form_type := 8 |}) as H by (vm_compute; reflexivity).
  assert (conforms_as (lit "a_1x2x3_4") (lit "a") (lit "1") (lit "2")
            (lit "3") (lit "4")) as Hc.
  { apply conforms_as_forallb; vm_compute; reflexivity. }
  split; [exact H |]. split; [exact Hc |].
  exact (parse_item_name_longest_name (lit "a_1x2x3_4_5x6x7_8") _
           (lit "a_1x2x3_4") (lit "_5x6x7_8") (lit "a") (lit "1") (lit "2")
           (lit "3") (lit "4") H eq_refl Hc).
Defined.

(** The no-break space U+00A0 separates tokens. *)
Lemma items_of_app_witness :
  is_space 160%N = true
  /\ items_of (lit "ab" ++ 160%N :: lit "cd")
     = items_of (lit "ab") ++ items_of (lit "cd").
Proof.
  assert (is_space 160%N = true) as H by (vm_compute; reflexivity).
  split; [exact H |].
  exact (items_of_app (lit "ab") 160%N (lit "cd") H).
Defined.

Lemma sample_text_ingested :
  parse_txt_file exact sample_text = Ok sample_ingested.
Proof. apply ok_value. vm_compute. reflexivity. Qed.

Lemma parse_txt_file_quantities_witness :
  parse_txt_file exact sample_text = Ok sample_ingested
  /\ Forall (fun r => 1 <= Quantity exact r) (rows sample_ingested)
  /\ total_quantity exact (rows sample_ingested)
     = Z.of_nat (length (split_ws sample_text))
  /\ length (rows sample_ingested)
     = length (first_occurrences (split_ws sample_text)).
Proof.
  split; [exact sample_text_ingested |].
  exact (parse_txt_file_quantities exact sample_text sample_ingested
           sample_text_ingested).
Defined.



Lemma assign_cutoffs_stable_witness :
  assign_cutoffs exact default_settings sample_frame = Ok sample_cutoffs
  /\ filter (same_sort_key exact (sample_row "b" 8 500 300 1))
       (map (base exact) (rows sample_cutoffs))
     = filter (same_sort_key exact (sample_row "b" 8 500 300 1))
         (rows sample_frame).
Proof.
  split; [exact sample_cutoffs_assigned |].
  exact (assign_cutoffs_stable exact default_settings exact_le_trans
           sample_frame sample_cutoffs (sample_row "b" 8 500 300 1)
           sample_cutoffs_assigned).
Defined.

Lemma cutoff_one_key_witness :
  assign_cutoffs exact default_settings sample_frame = Ok sample_cutoffs
  /\ Forall (fun bin =>
               forall a b, In a bin -> In b bin ->
                           FormType exact (base exact a)
                           = FormType exact (base exact b)
                           /\ width_mm exact (base exact a)
                              = width_mm exact (base exact b))
            (cutoffs_of exact (rows sample_cutoffs)).
Proof.
  split; [exact sample_cutoffs_assigned |].
  exact (cutoff_one_key exact default_settings sample_frame sample_cutoffs
           sample_cutoffs_assigned).
Defined.

Lemma cutoff_reference_first_witness :
  assign_cutoffs exact default_settings sample_frame = Ok sample_cutoffs
  /\ Forall (fun bin =>
               StronglySorted
                 (fun a b => num_le exact (LengthM exact (base exact b))
                                    (LengthM exact (base exact a)) = true)
                 bin
               /\ exists r rest,
                   bin = r :: rest
                   /\ CutoffType exact r = 0
                   /\ Forall (fun x => CutoffType exact x
                                       = cutoff_type_of default_settings
                                           (FormType exact (base exact x)))
                             rest)
            (cutoffs_of exact (rows sample_cutoffs)).
Proof.
  split; [exact sample_cutoffs_assigned |].
  exact (cutoff_reference_first exact default_settings exact_le_total
           exact_le_trans sample_frame sample_cutoffs
           sample_cutoffs_assigned).
Defined.

Lemma sample_bins_split :
  cutoffs_of exact (rows sample_cutoffs)
  = [] ++ first_bin :: (nth 0 second_bin any_cut_row :: tl second_bin)
            :: skipn 2 sample_bins.
Proof.
  apply (first_two sample_bins any_cut_row). vm_compute. reflexivity.
Qed.

Lemma first_bin_head : In (nth 0 first_bin any_cut_row) first_bin.
Proof. apply nth_In, Nat.ltb_lt. vm_compute. reflexivity. Qed.

Lemma first_bin_head_key :
  FormType exact (base exact (nth 0 first_bin any_cut_row))
  = FormType exact (base exact (nth 0 second_bin any_cut_row))
  /\ width_mm exact (base exact (nth 0 first_bin any_cut_row))
     = width_mm exact (base exact (nth 0 second_bin any_cut_row)).
Proof. split; apply Z.eqb_eq; vm_compute; reflexivity. Qed.

Lemma cutoff_closed_when_full_witness :
  assign_cutoffs exact default_settings sample_frame = Ok sample_cutoffs
  /\ cutoffs_of exact (rows sample_cutoffs)
     = [] ++ first_bin :: (nth 0 second_bin any_cut_row :: tl second_bin)
               :: skipn 2 sample_bins
  /\ In (nth 0 first_bin any_cut_row) first_bin
  /\ capacity_of default_settings
       (FormType exact (base exact (nth 0 second_bin any_cut_row)))
     < total_quantity exact (map (base exact) first_bin)
       + Quantity exact (base exact (nth 0 second_bin any_cut_row)).
Proof.
  split; [exact sample_cutoffs_assigned |]. split; [exact sample_bins_split |].
  split; [exact first_bin_head |].
  exact (cutoff_closed_when_full exact default_settings sample_frame
           sample_cutoffs [] first_bin (nth 0 second_bin any_cut_row)
           (tl second_bin) (skipn 2 sample_bins)
           (nth 0 first_bin any_cut_row) sample_cutoffs_assigned
           sample_bins_split first_bin_head (proj1 first_bin_head_key)
           (proj2 first_bin_head_key)).
Defined.

Lemma assign_cutoffs_unknown_form_witness :
  columns unknown_forms_frame = ingested_columns
  /\ Exists (fun r => ~ configured (FormType exact r))
       (rows unknown_forms_frame)
  /\ exists form_type,
       assign_cutoffs exact default_settings unknown_forms_frame
       = Raise (KeyErrorForm form_type)
       /\ ~ configured form_type
       /\ (exists r, In r (rows unknown_forms_frame)
                     /\ FormType exact r = form_type)
       /\ forall r, In r (rows unknown_forms_frame) ->
                    ~ configured (FormType exact r) ->
                    form_type <= FormType exact r.
Proof.
  assert (Exists (fun r => ~ configured (FormType exact r))
            (rows unknown_forms_frame)) as H.
  { apply Exists_cons_hd. unfold configured. cbn. lia. }
  split; [reflexivity |]. split; [exact H |].
  exact (assign_cutoffs_unknown_form exact default_settings
           unknown_forms_frame eq_refl H).
Defined.


